(** * Rotation and quota-lifecycle engine of the account manager

    A shallow embedding of [app/models.py] (the [Account], [Quota] and
    [Session] models) and of [app/utils/rotation.py] (the
    [RotationManager]), followed by the properties of the engine.

    Conventions of the embedding.
    - The three tables are lists of rows; a Python object obtained from a
      query is the row at an index of its table, and an attribute
      assignment followed by [db.session.commit()] is an update of that
      row.  A query without [order_by] lists the rows in table order and
      [.first()] takes the first one.
    - [datetime] values are microsecond counts, tagged [Naive] (no
      [tzinfo]) or [Aware] (the instant in UTC).  Mixing the two in an
      order comparison or a subtraction raises [TypeError], as in Python.
    - [datetime.now(timezone.utc)] reads the next value of a clock carried
      by the state; nothing is assumed about the clock.
    - A method is a function from the state to either a value and a new
      state, or a raised exception and the state as last committed. *)

From stdpp Require Import base option list strings.
From Stdlib Require Import ZArith Lia.

(** ** Values *)

Inductive provider := anthropic | gemini.
Inductive estado := disponible | agotada.
Inductive motivo := manual | cuota_agotada.
Inductive classification := Disponible | LimiteParcial | LimiteTotal.

Inductive datetime := Naive (t : Z) | Aware (t : Z).

(** Microseconds. *)
Definition timedelta := Z.

Inductive exn := ValueError (msg : string) | TypeError.

Global Instance provider_eq_dec : EqDecision provider.
Proof. solve_decision. Defined.
Global Instance estado_eq_dec : EqDecision estado.
Proof. solve_decision. Defined.
Global Instance motivo_eq_dec : EqDecision motivo.
Proof. solve_decision. Defined.
Global Instance datetime_eq_dec : EqDecision datetime.
Proof. solve_decision. Defined.

(** The stored value of a timestamp, whatever its tag: what the
    database orders by. *)
Definition stamp (d : datetime) : Z :=
  match d with Naive t => t | Aware t => t end.

(** [a >= b] on datetimes: [None] stands for the [TypeError] Python raises
    when exactly one side is naive. *)
Definition datetime_ge (a b : datetime) : option bool :=
  match a, b with
  | Aware x, Aware y => Some (y <=? x)%Z
  | Naive x, Naive y => Some (y <=? x)%Z
  | _, _ => None
  end.

(** [a - b] on datetimes, with the same failure. *)
Definition datetime_sub (a b : datetime) : option timedelta :=
  match a, b with
  | Aware x, Aware y => Some (x - y)%Z
  | Naive x, Naive y => Some (x - y)%Z
  | _, _ => None
  end.

(** ** Rows *)

Module Account.
Record t := mk {
  id : string;
  user_id : string;
  email_google : string;
  nombre : option string;
  activa : bool;
  veces_usada : option Z;
  tiempo_total_uso : option timedelta;
  created_at : option datetime
}.
End Account.

Module Quota.
Record t := mk {
  account_id : string;
  provider : provider;
  estado : estado;
  proximo_reset : option datetime;
  agotada_en : option datetime
}.
End Quota.

Module Session.
Record t := mk {
  account_id : string;
  provider : provider;
  inicio : datetime;
  fin : option datetime;
  duracion : option timedelta;
  motivo_fin : option motivo
}.
End Session.

(** ** State: the three tables and the clock *)

Record state := State {
  accounts : list Account.t;
  quotas : list Quota.t;
  sessions : list Session.t;
  clock : nat → Z;
  reads : nat
}.

Definition with_accounts (l : list Account.t) (st : state) : state :=
  State l (quotas st) (sessions st) (clock st) (reads st).
Definition with_quotas (l : list Quota.t) (st : state) : state :=
  State (accounts st) l (sessions st) (clock st) (reads st).
Definition with_sessions (l : list Session.t) (st : state) : state :=
  State (accounts st) (quotas st) l (clock st) (reads st).

(** The state after one more reading of the clock. *)
Definition tick (st : state) : state :=
  State (accounts st) (quotas st) (sessions st) (clock st) (S (reads st)).

(** ** Methods as state transformers that may raise *)

Inductive result (A : Type) :=
| Ok (a : A) (st : state)
| Raise (e : exn) (st : state).
Arguments Ok {A} a st.
Arguments Raise {A} e st.

Definition M (A : Type) := state → result A.

Definition ret {A} (a : A) : M A := λ st, Ok a st.
Definition raise {A} (e : exn) : M A := λ st, Raise e st.
Definition bind {A B} (m : M A) (k : A → M B) : M B :=
  λ st, match m st with
        | Ok a st' => k a st'
        | Raise e st' => Raise e st'
        end.

Notation "'let!' x ':=' m 'in' k" := (bind m (λ x, k))
  (at level 10, x pattern, m at level 100, k at level 200).
Notation "m ';;' k" := (bind m (λ _, k))
  (at level 100, k at level 200, right associativity).

(** The state a call leaves behind, whether it returned or raised. *)
Definition state_of {A} (r : result A) : state :=
  match r with Ok _ st => st | Raise _ st => st end.

(** [datetime.now(timezone.utc)] *)
Definition datetime_now : M datetime :=
  λ st, Ok (Aware (clock st (reads st))) (tick st).

Definition get_state : M state := λ st, Ok st st.

(** ** [Quota] *)

(** [quota.reset()] on the row at index [qi]. *)
Definition reset_row (q : Quota.t) : Quota.t :=
  Quota.mk (Quota.account_id q) (Quota.provider q) disponible None None.

Definition Quota_reset (qi : nat) : M unit :=
  λ st, match quotas st !! qi with
        | Some q => Ok () (with_quotas (<[qi := reset_row q]> (quotas st)) st)
        | None => Ok () st
        end.

(** [quota.mark_exhausted(reset_time)] *)
Definition Quota_mark_exhausted (qi : nat) (reset_time : datetime) : M unit :=
  let! now := datetime_now in
  λ st, match quotas st !! qi with
        | Some q =>
            Ok () (with_quotas
                     (<[qi := Quota.mk (Quota.account_id q) (Quota.provider q)
                                agotada (Some reset_time) (Some now)]> (quotas st)) st)
        | None => Ok () st
        end.

(** [quota.is_available()] for the row [q] read at index [qi]. *)
Definition Quota_is_available (qi : nat) (q : Quota.t) : M bool :=
  match Quota.estado q with
  | disponible => ret true
  | agotada =>
      match Quota.proximo_reset q with
      | Some reset_time =>
          let! now := datetime_now in
          (* [now.replace(tzinfo=timezone.utc)] leaves an aware [now] as it is *)
          match datetime_ge now reset_time with
          | None => raise TypeError
          | Some true => Quota_reset qi ;; ret true
          | Some false => ret false
          end
      | None => ret false
      end
  end.

(** ** [Account] *)

(** [get_anthropic_quota] / [get_gemini_quota]: the first quota row of the
    account for the provider, with its index. *)
Definition Account_get_quota (p : provider) (a : Account.t) (st : state)
  : option (nat * Quota.t) :=
  list_find (λ q, Quota.account_id q = Account.id a ∧ Quota.provider q = p)
            (quotas st).

(** [is_anthropic_available] / [is_gemini_available] *)
Definition Account_is_available (p : provider) (a : Account.t) : M bool :=
  λ st, match Account_get_quota p a st with
        | None => Ok true st
        | Some (qi, q) => Quota_is_available qi q st
        end.

Definition Account_is_anthropic_available := Account_is_available anthropic.
Definition Account_is_gemini_available := Account_is_available gemini.

(** [get_classification] *)
Definition classify (anthropic_available gemini_available : bool) : classification :=
  if anthropic_available && gemini_available then Disponible
  else if anthropic_available || gemini_available then LimiteParcial
  else LimiteTotal.

Definition Account_get_classification (a : Account.t) : M classification :=
  let! anthropic_available := Account_is_anthropic_available a in
  let! gemini_available := Account_is_gemini_available a in
  ret (classify anthropic_available gemini_available).

(** ** JSON views ([to_dict])

    Keys that only render a value as text ([isoformat], [str]) carry the
    value itself; the surrogate [id] of quota and session rows and the
    floating-point [*_segundos] keys are left out. *)

Module SessionDict.
Record t := mk {
  account_id : string;
  provider : provider;
  inicio : datetime;
  fin : option datetime;
  duracion : option timedelta;
  motivo_fin : option motivo;
  activa : bool
}.
End SessionDict.

(** [str(self.duracion) if self.duracion else None]: a zero duration is
    falsy. *)
Definition truthy_duracion (d : option timedelta) : bool :=
  match d with Some x => negb (x =? 0)%Z | None => false end.

Definition Session_to_dict (s : Session.t) : SessionDict.t :=
  SessionDict.mk (Session.account_id s) (Session.provider s) (Session.inicio s)
    (Session.fin s)
    (if truthy_duracion (Session.duracion s) then Session.duracion s else None)
    (Session.motivo_fin s)
    (bool_decide (Session.fin s = None)).

(** [{'disponible': True}] when the account has no row for the provider. *)
Inductive quota_dict :=
| QuotaDict (p : provider) (e : estado) (available : bool)
            (proximo_reset agotada_en : option datetime)
| QuotaDefault.

(** [quota.to_dict()]: ['estado'] is read before ['disponible'] calls
    [is_available()], the two timestamps after it. *)
Definition Quota_to_dict (qi : nat) (q : Quota.t) : M quota_dict :=
  let! available := Quota_is_available qi q in
  λ st, match quotas st !! qi with
        | Some q' =>
            Ok (QuotaDict (Quota.provider q) (Quota.estado q) available
                  (Quota.proximo_reset q') (Quota.agotada_en q')) st
        | None =>
            Ok (QuotaDict (Quota.provider q) (Quota.estado q) available
                  (Quota.proximo_reset q) (Quota.agotada_en q)) st
        end.

Module AccountDict.
Record t := mk {
  id : string;
  email_google : string;
  nombre : option string;
  activa : bool;
  veces_usada : option Z;
  tiempo_total_uso : timedelta;
  created_at : option datetime;
  classification : classification;
  quotas_anthropic : quota_dict;
  quotas_gemini : quota_dict
}.
End AccountDict.

Definition Account_quota_dict (p : provider) (a : Account.t) : M quota_dict :=
  λ st, match Account_get_quota p a st with
        | Some (qi, q) => Quota_to_dict qi q st
        | None => Ok QuotaDefault st
        end.

(** [account.to_dict(include_quotas=True)] *)
Definition Account_to_dict (a : Account.t) : M AccountDict.t :=
  let! cls := Account_get_classification a in
  let! qa := Account_quota_dict anthropic a in
  let! qg := Account_quota_dict gemini a in
  ret (AccountDict.mk (Account.id a) (Account.email_google a) (Account.nombre a)
         (Account.activa a) (Account.veces_usada a)
         (default 0%Z (Account.tiempo_total_uso a)) (Account.created_at a)
         cls qa qg).

(** ** [Session.end_session] *)

(** The roll-up of a closed session into its account. *)
Definition rollup (d : option timedelta) (a : Account.t) : Account.t :=
  let veces := default 0%Z (Account.veces_usada a) in
  let tiempo := default 0%Z (Account.tiempo_total_uso a) in
  Account.mk (Account.id a) (Account.user_id a) (Account.email_google a)
    (Account.nombre a) false (Some (veces + 1)%Z)
    (Some (if truthy_duracion d then (tiempo + default 0 d)%Z else tiempo))
    (Account.created_at a).

(** [Account.query.get(pk)] *)
Definition Account_query_get (pk : string) (st : state) : option (nat * Account.t) :=
  list_find (λ a, Account.id a = pk) (accounts st).

(** The row of a session once [fin], [duracion] and [motivo_fin] are set. *)
Definition closed_row (s : Session.t) (fin : datetime) (d : timedelta) (m : motivo)
  : Session.t :=
  Session.mk (Session.account_id s) (Session.provider s) (Session.inicio s)
    (Some fin) (Some d) (Some m).

(** [session.end_session(motivo)] for the row [s] read at index [si].
    Both branches of the [tzinfo] test assign the same aware [fin]. *)
Definition Session_end_session (si : nat) (s : Session.t) (m : motivo) : M unit :=
  let! fin := datetime_now in
  match datetime_sub fin (Session.inicio s) with
  | None => raise TypeError
  | Some d =>
      λ st,
        let st1 := with_sessions (<[si := closed_row s fin d m]> (sessions st)) st in
        match Account_query_get (Session.account_id s) st1 with
        | Some (ai, a) =>
            Ok () (with_accounts (<[ai := rollup (Some d) a]> (accounts st1)) st1)
        | None => Ok () st1
        end
  end.

(** ** Loops *)

Fixpoint foldM {A S : Type} (f : S → A → M S) (l : list A) (s : S) : M S :=
  match l with
  | [] => ret s
  | x :: l' => let! s' := f s x in foldM f l' s'
  end.

(** ** [list.sort(key=lambda a: a.veces_usada)]

    The sort is stable.  With two or more elements every key takes part in
    a comparison, and comparing [None] raises [TypeError]. *)

Fixpoint insert_by {A} (key : A → Z) (x : A) (l : list A) : list A :=
  match l with
  | [] => [x]
  | y :: l' => if (key x <=? key y)%Z then x :: y :: l'
               else y :: insert_by key x l'
  end.

Fixpoint sort_by {A} (key : A → Z) (l : list A) : list A :=
  match l with
  | [] => []
  | x :: l' => insert_by key x (sort_by key l')
  end.

(** The sort key of an account whose [veces_usada] is set. *)
Definition usage (a : Account.t) : Z := default 0%Z (Account.veces_usada a).

Definition sort_by_veces_usada (l : list Account.t) : option (list Account.t) :=
  match l with
  | [] | [_] => Some l
  | _ =>
      if forallb (λ a, bool_decide (is_Some (Account.veces_usada a))) l
      then Some (sort_by usage l)
      else None
  end.

(** ** Results of the engine *)

Module RotationResult.
(** The dict built by [rotate_to_next]; the last two keys are only
    present on some paths ([None] when the key is absent). *)
Record t := mk {
  ended_session : option SessionDict.t;
  next_account : option AccountDict.t;
  next_provider : option provider;
  rotated : bool;
  needs_user_choice : bool;
  next_anthropic_reset : option (option datetime);
  new_session : option SessionDict.t
}.
End RotationResult.

Inductive mas_usado := Anthropic | Gemini | Empate.

Module Summary.
(** [horas_anthropic] and [horas_gemini] are kept as exact durations in
    microseconds: the source divides every duration by 3600 seconds in
    floating point and rounds the totals to two decimals for display. *)
Record t := mk {
  total : nat;
  disponibles : nat;
  limite_parcial : nat;
  limite_total : nat;
  limite_anthropic : nat;
  limite_gemini : nat;
  horas_anthropic : timedelta;
  horas_gemini : timedelta;
  sesiones_anthropic : nat;
  sesiones_gemini : nat;
  modelo_mas_usado : option mas_usado
}.
End Summary.

(** The earliest timestamp of a list, the first one on ties:
    [order_by(... .asc()).first()]. *)
Fixpoint earliest (l : list datetime) : option datetime :=
  match l with
  | [] => None
  | d :: l' =>
      match earliest l' with
      | Some m => if (stamp d <=? stamp m)%Z then Some d else Some m
      | None => Some d
      end
  end.

(** [account.sessions] *)
Definition Account_sessions (a : Account.t) (st : state) : list Session.t :=
  filter (λ s, Session.account_id s = Account.id a) (sessions st).

(** ** [RotationManager] *)

Module RotationManager.
Section Methods.
(** [self.user_id] *)
Variable user_id : string.

(** [Account.query.filter_by(user_id=self.user_id).all()] *)
Definition query_accounts (st : state) : list Account.t :=
  filter (λ a, Account.user_id a = user_id) (accounts st).

(** [... .join(Account).filter(Account.user_id == self.user_id, ...)]:
    the row has an account of this user. *)
Definition joined (account_id : string) (st : state) : Prop :=
  Exists (λ a, Account.id a = account_id ∧ Account.user_id a = user_id)
         (accounts st).

Global Instance joined_dec account_id st : Decision (joined account_id st).
Proof. unfold joined. apply _. Defined.

(** The test of one account in the loop of [get_available_accounts]. *)
Definition available_for (p : option provider) (account : Account.t) : M bool :=
  match p with
  | Some anthropic => Account_is_anthropic_available account
  | Some gemini => Account_is_gemini_available account
  | None =>
      let! a := Account_is_anthropic_available account in
      if a then ret true else Account_is_gemini_available account
  end.

(** The body of the loop of [get_available_accounts]. *)
Definition collect (p : option provider) (available : list Account.t)
    (account : Account.t) : M (list Account.t) :=
  let! ok := available_for p account in
  ret (if ok then available ++ [account] else available).

Definition get_available_accounts (p : option provider) : M (list Account.t) :=
  let! st := get_state in
  foldM (collect p) (query_accounts st) [].

(** Sort by [veces_usada] and take element [0], if the list is not
    empty. *)
Definition least_used (l : list Account.t) : M (option Account.t) :=
  match l with
  | [] => ret None
  | _ =>
      match sort_by_veces_usada l with
      | Some sorted => ret (head sorted)
      | None => raise TypeError
      end
  end.

Definition best_gemini : M (option (Account.t * provider)) :=
  let! gemini_accounts := get_available_accounts (Some gemini) in
  let! best := least_used gemini_accounts in
  ret (match best with Some a => Some (a, gemini) | None => None end).

Definition get_best_account (prefer_anthropic : bool)
  : M (option (Account.t * provider)) :=
  if prefer_anthropic then
    let! anthropic_accounts := get_available_accounts (Some anthropic) in
    let! best := least_used anthropic_accounts in
    match best with
    | Some a => ret (Some (a, anthropic))
    | None => best_gemini
    end
  else best_gemini.

Definition get_active_session (st : state) : option (nat * Session.t) :=
  list_find (λ s, Session.fin s = None ∧ joined (Session.account_id s) st)
            (sessions st).

Definition conflict_msg : string := "Ya hay una sesión activa. Finalízala primero.".
Definition not_found_msg : string := "Cuenta no encontrada".
Definition exhausted_msg (p : provider) : string :=
  match p with
  | anthropic => "Cuota de Anthropic agotada para esta cuenta"
  | gemini => "Cuota de Gemini agotada para esta cuenta"
  end.

Definition set_activa (b : bool) (a : Account.t) : Account.t :=
  Account.mk (Account.id a) (Account.user_id a) (Account.email_google a)
    (Account.nombre a) b (Account.veces_usada a) (Account.tiempo_total_uso a)
    (Account.created_at a).

Definition start_session (account_id : string) (p : provider) : M Session.t :=
  let! st := get_state in
  match get_active_session st with
  | Some _ => raise (ValueError conflict_msg)
  | None =>
      match list_find (λ a, Account.id a = account_id ∧ Account.user_id a = user_id)
                      (accounts st) with
      | None => raise (ValueError not_found_msg)
      | Some (ai, account) =>
          let! available := Account_is_available p account in
          if available then
            let! inicio := datetime_now in
            λ st',
              let session := Session.mk account_id p inicio None None None in
              Ok session
                 (with_sessions (sessions st' ++ [session])
                    (with_accounts (<[ai := set_activa true account]> (accounts st')) st'))
          else raise (ValueError (exhausted_msg p))
      end
  end.

(** The part of [end_session] that marks the quota of the closed
    session, creating the row first when there is none. *)
Definition exhaust_quota_of (session : Session.t) (proximo_reset : datetime) : M unit :=
  λ st,
    match list_find (λ q, Quota.account_id q = Session.account_id session
                          ∧ Quota.provider q = Session.provider session)
                    (quotas st) with
    | Some (qi, _) => Quota_mark_exhausted qi proximo_reset st
    | None =>
        let quota := Quota.mk (Session.account_id session)
                       (Session.provider session) disponible None None in
        Quota_mark_exhausted (length (quotas st)) proximo_reset
          (with_quotas (quotas st ++ [quota]) st)
    end.

Definition end_session (m : motivo) (proximo_reset : option datetime)
  : M (option Session.t) :=
  let! st := get_state in
  match get_active_session st with
  | None => ret None
  | Some (si, session) =>
      Session_end_session si session m ;;
      match m, proximo_reset with
      | cuota_agotada, Some r => exhaust_quota_of session r
      | _, _ => ret ()
      end ;;
      let! st' := get_state in
      ret (sessions st' !! si)
  end.

Definition get_next_anthropic_reset (st : state) : option datetime :=
  earliest
    (omap Quota.proximo_reset
       (filter (λ q, joined (Quota.account_id q) st
                     ∧ Quota.provider q = anthropic
                     ∧ Quota.estado q = agotada)
               (quotas st))).

Definition rotate_to_next (m : motivo) (proximo_reset : option datetime)
    (auto_start : bool) : M RotationResult.t :=
  let! ended_session := end_session m proximo_reset in
  let! best := get_best_account true in
  let ended := Session_to_dict <$> ended_session in
  match best with
  | None =>
      ret (RotationResult.mk ended None None false false None None)
  | Some (next_account, next_provider) =>
      let! next := Account_to_dict next_account in
      match next_provider with
      | gemini =>
          let! st := get_state in
          ret (RotationResult.mk ended (Some next) (Some gemini) false true
                 (Some (get_next_anthropic_reset st)) None)
      | anthropic =>
          if auto_start then
            let! new_session := start_session (Account.id next_account) anthropic in
            ret (RotationResult.mk ended (Some next) (Some anthropic) true false
                   None (Some (Session_to_dict new_session)))
          else
            ret (RotationResult.mk ended (Some next) (Some anthropic) false false
                   None None)
      end
  end.

(** The counters of the loop of [get_summary]. *)
Record tally := Tally {
  t_disponibles : nat;
  t_limite_parcial : nat;
  t_limite_total : nat;
  t_limite_anthropic : nat;
  t_limite_gemini : nat;
  t_horas_anthropic : timedelta;
  t_horas_gemini : timedelta;
  t_sesiones_anthropic : nat;
  t_sesiones_gemini : nat
}.

Definition tally0 : tally := Tally 0 0 0 0 0 0%Z 0%Z 0 0.

Definition count_classification (c : classification) (t : tally) : tally :=
  match c with
  | Disponible =>
      Tally (S (t_disponibles t)) (t_limite_parcial t) (t_limite_total t)
        (t_limite_anthropic t) (t_limite_gemini t) (t_horas_anthropic t)
        (t_horas_gemini t) (t_sesiones_anthropic t) (t_sesiones_gemini t)
  | LimiteParcial =>
      Tally (t_disponibles t) (S (t_limite_parcial t)) (t_limite_total t)
        (t_limite_anthropic t) (t_limite_gemini t) (t_horas_anthropic t)
        (t_horas_gemini t) (t_sesiones_anthropic t) (t_sesiones_gemini t)
  | LimiteTotal =>
      Tally (t_disponibles t) (t_limite_parcial t) (S (t_limite_total t))
        (t_limite_anthropic t) (t_limite_gemini t) (t_horas_anthropic t)
        (t_horas_gemini t) (t_sesiones_anthropic t) (t_sesiones_gemini t)
  end.

Definition count_exhausted (anthropic_ok gemini_ok : bool) (t : tally) : tally :=
  Tally (t_disponibles t) (t_limite_parcial t) (t_limite_total t)
    (if anthropic_ok then t_limite_anthropic t else S (t_limite_anthropic t))
    (if gemini_ok then t_limite_gemini t else S (t_limite_gemini t))
    (t_horas_anthropic t) (t_horas_gemini t)
    (t_sesiones_anthropic t) (t_sesiones_gemini t).

(** The body of the inner loop over the finished sessions. *)
Definition count_session (t : tally) (session : Session.t) : tally :=
  if truthy_duracion (Session.duracion session) then
    let horas := default 0%Z (Session.duracion session) in
    match Session.provider session with
    | anthropic =>
        Tally (t_disponibles t) (t_limite_parcial t) (t_limite_total t)
          (t_limite_anthropic t) (t_limite_gemini t)
          (t_horas_anthropic t + horas)%Z (t_horas_gemini t)
          (S (t_sesiones_anthropic t)) (t_sesiones_gemini t)
    | gemini =>
        Tally (t_disponibles t) (t_limite_parcial t) (t_limite_total t)
          (t_limite_anthropic t) (t_limite_gemini t)
          (t_horas_anthropic t) (t_horas_gemini t + horas)%Z
          (t_sesiones_anthropic t) (S (t_sesiones_gemini t))
    end
  else t.

Definition finished_sessions (a : Account.t) (st : state) : list Session.t :=
  filter (λ s, Session.fin s ≠ None) (Account_sessions a st).

(** The body of the loop over the accounts. *)
Definition summarize_account (t : tally) (account : Account.t) : M tally :=
  let! cls := Account_get_classification account in
  let! anthropic_ok := Account_is_anthropic_available account in
  let! gemini_ok := Account_is_gemini_available account in
  let! st := get_state in
  ret (foldl count_session
         (count_exhausted anthropic_ok gemini_ok (count_classification cls t))
         (finished_sessions account st)).

Definition most_used (sesiones_anthropic sesiones_gemini : nat) : option mas_usado :=
  if (sesiones_gemini <? sesiones_anthropic)%nat then Some Anthropic
  else if (sesiones_anthropic <? sesiones_gemini)%nat then Some Gemini
  else if (0 <? sesiones_anthropic)%nat then Some Empate
  else None.

Definition get_summary : M Summary.t :=
  let! st := get_state in
  let accounts := query_accounts st in
  let! t := foldM summarize_account accounts tally0 in
  ret (Summary.mk (length accounts) (t_disponibles t) (t_limite_parcial t)
         (t_limite_total t) (t_limite_anthropic t) (t_limite_gemini t)
         (t_horas_anthropic t) (t_horas_gemini t)
         (t_sesiones_anthropic t) (t_sesiones_gemini t)
         (most_used (t_sesiones_anthropic t) (t_sesiones_gemini t))).

End Methods.
End RotationManager.

(** * Specification vocabulary *)

(** The key of a quota row: the pair the table is unique on. *)
Definition key (q : Quota.t) : string * provider :=
  (Quota.account_id q, Quota.provider q).

(** Between [st] and [st'] the clock was read and exhausted rows whose key
    is in [K] were reset; nothing else happened. *)
Definition recovered (K : string * provider → Prop) (st st' : state) : Prop :=
  accounts st' = accounts st ∧ sessions st' = sessions st ∧
  clock st' = clock st ∧
  Forall2 (λ q q', q' = q ∨ (K (key q) ∧ Quota.estado q = agotada ∧ q' = reset_row q))
          (quotas st) (quotas st').

(** The provider is usable for the account as the rows stand: there is no
    row, or the row says [disponible]. *)
Definition quota_open (p : provider) (a : Account.t) (st : state) : Prop :=
  match Account_get_quota p a st with
  | Some (_, q) => Quota.estado q = disponible
  | None => True
  end.

Global Instance quota_open_dec p a st : Decision (quota_open p a st).
Proof.
  unfold quota_open. destruct (Account_get_quota p a st) as [[? ?]|]; apply _.
Defined.

Definition open_sessions (st : state) : list Session.t :=
  filter (λ s, Session.fin s = None) (sessions st).

Definition active_accounts (st : state) : list Account.t :=
  filter (λ a, Account.activa a = true) (accounts st).

(** What the engine maintains: account ids are a key, at most one session
    is open, an open session belongs to an account of the user, and an
    active account has an open session. *)
Definition Inv (user_id : string) (st : state) : Prop :=
  NoDup (Account.id <$> accounts st) ∧
  length (open_sessions st) ≤ 1 ∧
  (∀ s, s ∈ sessions st → Session.fin s = None →
        RotationManager.joined user_id (Session.account_id s) st) ∧
  (∀ a, a ∈ accounts st → Account.activa a = true →
        ∃ s, s ∈ sessions st ∧ Session.fin s = None ∧
             Session.account_id s = Account.id a).

(** The calls of the engine that touch sessions, and a sequence of them
    run one after the other; a call that raises leaves the state of its
    last commit. *)
Inductive call :=
| StartSession (account_id : string) (p : provider)
| EndSession (m : motivo) (proximo_reset : option datetime)
| RotateToNext (m : motivo) (proximo_reset : option datetime) (auto_start : bool).

Definition run_call (user_id : string) (st : state) (c : call) : state :=
  match c with
  | StartSession account_id p =>
      state_of (RotationManager.start_session user_id account_id p st)
  | EndSession m r => state_of (RotationManager.end_session user_id m r st)
  | RotateToNext m r auto =>
      state_of (RotationManager.rotate_to_next user_id m r auto st)
  end.

Definition run_calls (user_id : string) (cs : list call) (st : state) : state :=
  foldl (run_call user_id) st cs.

(** The row of the account for the provider is exhausted with a reset
    time stored without time zone: the check of this row raises. *)
Definition quota_naive (p : provider) (a : Account.t) (st : state) : Prop :=
  match Account_get_quota p a st with
  | Some (_, q) =>
      Quota.estado q = agotada ∧ ∃ t, Quota.proximo_reset q = Some (Naive t)
  | None => False
  end.

(** A call that only reads the clock and lets quotas recover. *)
Definition quiet {A} (m : M A) : Prop :=
  ∀ st, recovered (λ _, True) st (state_of (m st)).

(** A call that keeps [P], whether it returns or raises. *)
Definition preserves {A} (P : state → Prop) (m : M A) : Prop :=
  ∀ st, P st → P (state_of (m st)).

(** The (id, owner) pairs of the accounts, which the joins go through. *)
Definition owner_keys (st : state) : list (string * string) :=
  (λ a, (Account.id a, Account.user_id a)) <$> accounts st.

(** The quota row [end_session] leaves for the session it closed for
    [cuota_agotada], and the quota table with it. *)
Definition exhausted_row (s : Session.t) (r : datetime) (now : Z) : Quota.t :=
  Quota.mk (Session.account_id s) (Session.provider s) agotada (Some r)
    (Some (Aware now)).

Definition quotas_after_exhaust (s : Session.t) (r : datetime) (st : state)
  : list Quota.t :=
  match list_find (λ q, Quota.account_id q = Session.account_id s
                        ∧ Quota.provider q = Session.provider s) (quotas st) with
  | Some (qi, _) => <[qi := exhausted_row s r (clock st (reads st))]> (quotas st)
  | None => quotas st ++ [exhausted_row s r (clock st (reads st))]
  end.

(** The closed sessions of the accounts of a user. *)
Definition closed_sessions (user_id : string) (st : state) : list Session.t :=
  RotationManager.query_accounts user_id st ≫=
    λ a, RotationManager.finished_sessions a st.

Definition total_duration (l : list Session.t) : timedelta :=
  foldr (λ s acc, (default 0 (Session.duracion s) + acc)%Z) 0%Z l.

Definition of_provider (p : provider) (l : list Session.t) : list Session.t :=
  filter (λ s, Session.provider s = p) l.

(** The sessions the counters of [get_summary] count: those with a
    duration that is neither missing nor zero. *)
Definition counted (l : list Session.t) : list Session.t :=
  filter (λ s, truthy_duracion (Session.duracion s) = true) l.

(** The first of the least keys of a list. *)
Fixpoint first_min {A} (key : A → Z) (l : list A) : option A :=
  match l with
  | [] => None
  | x :: l' =>
      match first_min key l' with
      | Some y => if (key x <=? key y)%Z then Some x else Some y
      | None => Some x
      end
  end.

(** [a] is, among the members of [l] that satisfy [P], the one with the
    least [veces_usada], and the first of them in [l] when there are
    several. *)
Definition first_least_used (P : Account.t → Prop) (l : list Account.t)
    (a : Account.t) : Prop :=
  ∃ i, l !! i = Some a ∧ P a ∧
       ∀ j b, l !! j = Some b → P b →
              (usage a <= usage b)%Z ∧ (j < i → (usage a < usage b)%Z).

(** An exhausted anthropic quota row of an account of the user. *)
Definition exhausted_anthropic (user_id : string) (st : state) (q : Quota.t) : Prop :=
  q ∈ quotas st ∧ RotationManager.joined user_id (Quota.account_id q) st ∧
  Quota.provider q = anthropic ∧ Quota.estado q = agotada.

(** * Concrete pools

    Small states on which the theorems below are run. *)

(** [SINGLE_USER_ID] of [models.py]. *)
Definition SINGLE_USER_ID : string := "00000000-0000-0000-0000-000000000000".

(** A clock that reads the same instant every time. *)
Definition frozen (t : Z) : nat → Z := λ _, t.

Definition account_alpha : Account.t :=
  Account.mk "alpha" SINGLE_USER_ID "alpha@example.com" None false
    (Some 0%Z) (Some 0%Z) (Some (Aware 100)).

Definition account_beta : Account.t :=
  Account.mk "beta" SINGLE_USER_ID "beta@example.com" None false
    (Some 0%Z) (Some 0%Z) (Some (Aware 200)).

(** Two unused accounts without quota rows; the younger one is listed
    first. *)
Definition pool_two : state :=
  State [account_beta; account_alpha] [] [] (frozen 1000) 0.

(** One account whose anthropic quota is exhausted until 5000 and whose
    gemini quota has no row. *)
Definition pool_gemini_only : state :=
  State [account_alpha]
    [Quota.mk "alpha" anthropic agotada (Some (Aware 5000)) (Some (Aware 900))]
    [] (frozen 1000) 0.

(** A session started and ended at the same reading of the clock. *)
Definition calls_start_end : list call :=
  [StartSession "alpha" anthropic; EndSession manual None].

Definition pool_zero_duration : state :=
  run_calls SINGLE_USER_ID calls_start_end pool_two.

(** What [get_summary] reports on it. *)
Definition summary_zero_duration : Summary.t :=
  Summary.mk 2 2 0 0 0 0 0%Z 0%Z 0 0 None.

(** A quota row that is available, to be marked exhausted. *)
Definition pool_one_quota : state :=
  State [account_alpha] [Quota.mk "alpha" anthropic disponible None None] []
    (frozen 1000) 0.

(** An open session whose start is stored without time zone, as a
    [DateTime] column without [timezone=True] returns it. *)
Definition session_naive : Session.t :=
  Session.mk "alpha" anthropic (Naive 900) None None None.

Definition pool_naive_start : state :=
  State [RotationManager.set_activa true account_alpha] [] [session_naive]
    (frozen 1000) 0.



Definition calls_mixed : list call :=
  [StartSession "alpha" anthropic; StartSession "beta" gemini;
   RotateToNext cuota_agotada (Some (Aware 5000)) true;
   StartSession "alpha" gemini; EndSession manual None].

(** ** The tie-break of the specification

    Follows the words of the specification, not the code: among the
    candidates with the same [timesUsed], the one created first wins. *)
Definition created (a : Account.t) : Z :=
  match Account.created_at a with Some d => stamp d | None => 0%Z end.

Definition spec_earliest_created_on_ties (P : Account.t → Prop)
    (l : list Account.t) (a : Account.t) : Prop :=
  ∀ b, b ∈ l → P b → usage b = usage a → (created a <= created b)%Z.

(** The quota the listing looks at is usable for the account as the rows
    stand: the one of the provider asked for, or either one when no
    provider is given. *)
Definition relevant_open (p : option provider) (a : Account.t) (st : state) : Prop :=
  match p with
  | Some q => quota_open q a st
  | None => quota_open anthropic a st ∨ quota_open gemini a st
  end.

Global Instance relevant_open_dec p a st : Decision (relevant_open p a st).
Proof. destruct p; apply _. Defined.

(** A call that raises nothing but [TypeError]. *)
Definition raises_only_TypeError {A} (m : M A) : Prop :=
  ∀ st e st', m st = Raise e st' → e = TypeError.

(** ** [RotationManager.check_and_reset_quotas]

    The filter of the query is evaluated by the database, on the stored
    values: a row without [proximo_reset] never passes
    [proximo_reset <= now]. *)

Definition expired (user_id : string) (now : Z) (st : state) (q : Quota.t) : Prop :=
  RotationManager.joined user_id (Quota.account_id q) st ∧
  Quota.estado q = agotada ∧
  match Quota.proximo_reset q with
  | Some d => (stamp d <= now)%Z
  | None => False
  end.

Global Instance expired_dec user_id now st q : Decision (expired user_id now st q).
Proof. unfold expired. destruct (Quota.proximo_reset q); apply _. Defined.

(** The body of the loop: [quota.reset(); count += 1]. *)
Definition reset_and_count (count : nat) (iq : nat * Quota.t) : M nat :=
  Quota_reset iq.1 ;; ret (S count).

Definition check_and_reset_quotas (user_id : string) : M nat :=
  let! now := datetime_now in
  let! st := get_state in
  let expired_quotas :=
    filter (λ iq, expired user_id (stamp now) st iq.2) (imap pair (quotas st)) in
  foldM reset_and_count expired_quotas 0.

(** The quota table after the sweep at [now]. *)
Definition swept (user_id : string) (now : Z) (st : state) : list Quota.t :=
  (λ q, if decide (expired user_id now st q) then reset_row q else q) <$> quotas st.

(** [pool_two] after a session was started on the older account. *)
Definition pool_started : state :=
  run_calls SINGLE_USER_ID [StartSession "alpha" anthropic] pool_two.

(** One account whose anthropic quota was exhausted until 500, which the
    clock has passed, and whose gemini quota is exhausted until 5000. *)
Definition pool_expired : state :=
  State [account_alpha]
    [Quota.mk "alpha" anthropic agotada (Some (Aware 500)) (Some (Aware 400));
     Quota.mk "alpha" gemini agotada (Some (Aware 5000)) (Some (Aware 400))]
    [] (frozen 1000) 0.

(** One account whose anthropic quota is exhausted until 5000, a reset
    time stored without time zone, as a [DateTime] column without
    [timezone=True] returns it; no session is open. *)
Definition pool_naive_reset : state :=
  State [account_alpha]
    [Quota.mk "alpha" anthropic agotada (Some (Naive 5000)) (Some (Aware 900))]
    [] (frozen 1000) 0.

(** * The HTTP routes

    The routes of [accounts/routes.py], [quotas/routes.py] and
    [sessions/routes.py] that read or write the three tables, after the
    decorators ([g.user_id] is always [SINGLE_USER_ID]) and after the
    parsing of the request: a missing or empty JSON field is [None], a
    provider comes as the token of the URL or of the body, a motive as one
    of its two tokens, a timestamp as what [datetime.fromisoformat] made of
    it.  The two session routes that read an optional body also take the
    bodies on which they raise before their [try].  A route answers with
    a status and a payload, or fails with an exception nothing catches
    (Flask answers 500); the state is the one last committed. *)

Inductive payload :=
| PError (error : string)
| PMessage (message : string)
| PAccount (account : AccountDict.t)
| PQuotas (quotas_anthropic quotas_gemini : quota_dict)
| PQuota (quota : quota_dict)
| PSession (session : SessionDict.t) (account : option AccountDict.t)
| PActive (session : option SessionDict.t) (account : option AccountDict.t)
| PRotation (result : RotationResult.t)
| PResetCount (reset_count : nat)
| PSummary (summary : Summary.t).

Record response := Response { status : nat; body : payload }.

(** [IntegrityError] is what the commit raises on a primary key that is
    taken, [AttributeError] what [data.get] raises on a body that is not an
    object and [.replace] on a [proximo_reset] that is not text. *)
Inductive failure := Uncaught (e : exn) | IntegrityError | AttributeError.

Inductive outcome :=
| Replied (r : response) (st : state)
| Failed (f : failure) (st : state).

Definition outcome_state (o : outcome) : state :=
  match o with Replied _ st => st | Failed _ st => st end.

Definition http (m : M response) : state → outcome :=
  λ st, match m st with
        | Ok r st' => Replied r st'
        | Raise e st' => Failed (Uncaught e) st'
        end.

Definition reply (status : nat) (b : payload) : M response := ret (Response status b).

(** [provider not in ['anthropic', 'gemini']] *)
Definition parse_provider (token : string) : option provider :=
  if decide (token = "anthropic") then Some anthropic
  else if decide (token = "gemini") then Some gemini
  else None.

Definition provider_token (p : provider) : string :=
  match p with anthropic => "anthropic" | gemini => "gemini" end.

(** The field [proximo_reset] of a body: absent or empty, present but
    refused by [fromisoformat], or parsed. *)
Inductive reset_field := Missing | Malformed | Parsed (d : datetime).

(** [Account.query.filter_by(id=account_id, user_id=g.user_id).first()] *)
Definition find_account (user_id account_id : string) (st : state)
  : option (nat * Account.t) :=
  list_find (λ a, Account.id a = account_id ∧ Account.user_id a = user_id)
            (accounts st).

(** [Quota.query.filter_by(account_id=..., provider=...).first()] *)
Definition find_quota (account_id : string) (p : provider) (st : state)
  : option (nat * Quota.t) :=
  list_find (λ q, Quota.account_id q = account_id ∧ Quota.provider q = p)
            (quotas st).

Module AccountsRoutes.
Section Routes.
(** [g.user_id] *)
Variable user_id : string.

(** The row of [Account(user_id=..., email_google=..., nombre=...)] with
    the defaults of its columns. *)
Definition new_account (id email : string) (nombre : option string)
    (created_at : datetime) : Account.t :=
  Account.mk id user_id email nombre false (Some 0%Z) (Some 0%Z) (Some created_at).

(** The row of [Quota(account_id=..., provider=...)]. *)
Definition new_quota (account_id : string) (p : provider) : Quota.t :=
  Quota.mk account_id p disponible None None.

(** [POST /accounts].  [new_id] is what [uuid4] draws for the row. *)
Definition create_account (new_id : string) (email_google nombre : option string)
  : state → outcome :=
  λ st,
    match email_google with
    | None => Replied (Response 400 (PError "Email de Google es requerido")) st
    | Some email =>
        if decide (email = "")
        then Replied (Response 400 (PError "Email de Google es requerido")) st
        else
          match list_find (λ a, Account.user_id a = user_id
                                ∧ Account.email_google a = email) (accounts st) with
          | Some _ => Replied (Response 409 (PError "Esta cuenta ya está registrada")) st
          | None =>
              (* the defaults of the columns are drawn, then the row is
                 inserted *)
              let created_at := Aware (clock st (reads st)) in
              if decide (new_id ∈ Account.id <$> accounts st)
              then Failed IntegrityError (tick st)
              else
                let account := new_account new_id email nombre created_at in
                http (let! d := Account_to_dict account in
                      reply 201 (PAccount d))
                     (State (accounts st ++ [account])
                            (quotas st ++ [new_quota new_id anthropic;
                                           new_quota new_id gemini])
                            (sessions st) (clock st) (S (reads st)))
          end
    end.

(** [GET /accounts/<account_id>] *)
Definition get_account (account_id : string) : state → outcome :=
  http (let! st := get_state in
        match find_account user_id account_id st with
        | None => reply 404 (PError "Cuenta no encontrada")
        | Some (_, account) =>
            let! d := Account_to_dict account in
            reply 200 (PAccount d)
        end).

(** The body of [PUT /accounts/<account_id>]: the keys it holds. *)
Record update_body := UpdateBody {
  upd_nombre : option (option string);
  upd_email_google : option string
}.

Definition set_nombre (nombre : option string) (a : Account.t) : Account.t :=
  Account.mk (Account.id a) (Account.user_id a) (Account.email_google a)
    nombre (Account.activa a) (Account.veces_usada a)
    (Account.tiempo_total_uso a) (Account.created_at a).

Definition set_email_google (email : string) (a : Account.t) : Account.t :=
  Account.mk (Account.id a) (Account.user_id a) email
    (Account.nombre a) (Account.activa a) (Account.veces_usada a)
    (Account.tiempo_total_uso a) (Account.created_at a).

(** [PUT /accounts/<account_id>].  Without a body ['nombre' in data]
    raises [TypeError]. *)
Definition update_account (account_id : string) (data : option update_body)
  : state → outcome :=
  http (let! st := get_state in
        match find_account user_id account_id st with
        | None => reply 404 (PError "Cuenta no encontrada")
        | Some (ai, account) =>
            match data with
            | None => raise TypeError
            | Some data =>
                let account1 :=
                  match upd_nombre data with
                  | Some nombre => set_nombre nombre account
                  | None => account
                  end in
                let taken email :=
                  list_find (λ a, Account.user_id a = user_id
                                  ∧ Account.email_google a = email
                                  ∧ Account.id a ≠ account_id) (accounts st) in
                match upd_email_google data with
                | Some email =>
                    match taken email with
                    | Some _ => reply 409 (PError "Ya existe una cuenta con ese email")
                    | None =>
                        let account2 := set_email_google email account1 in
                        (λ st', Ok () (with_accounts (<[ai := account2]> (accounts st')) st')) ;;
                        let! d := Account_to_dict account2 in
                        reply 200 (PAccount d)
                    end
                | None =>
                    (λ st', Ok () (with_accounts (<[ai := account1]> (accounts st')) st')) ;;
                    let! d := Account_to_dict account1 in
                    reply 200 (PAccount d)
                end
            end
        end).

(** [DELETE /accounts/<account_id>].  The relationships cascade: the quota
    and session rows of the account go with it. *)
Definition delete_account (account_id : string) : state → outcome :=
  http (let! st := get_state in
        match find_account user_id account_id st with
        | None => reply 404 (PError "Cuenta no encontrada")
        | Some (ai, account) =>
            if Account.activa account
            then reply 400 (PError "No se puede eliminar una cuenta activa")
            else
              (λ st', Ok ()
                 (State (delete ai (accounts st'))
                    (filter (λ q, Quota.account_id q ≠ Account.id account) (quotas st'))
                    (filter (λ s, Session.account_id s ≠ Account.id account) (sessions st'))
                    (clock st') (reads st'))) ;;
              reply 200 (PMessage "Cuenta eliminada exitosamente")
        end).

(** [GET /accounts/summary] *)
Definition get_summary : state → outcome :=
  http (let! s := RotationManager.get_summary user_id in reply 200 (PSummary s)).

End Routes.
End AccountsRoutes.

Module QuotasRoutes.
Section Routes.
Variable user_id : string.

(** [GET /quotas/<account_id>] *)
Definition get_quotas (account_id : string) : state → outcome :=
  http (let! st := get_state in
        match find_account user_id account_id st with
        | None => reply 404 (PError "Cuenta no encontrada")
        | Some (_, account) =>
            let! qa := Account_quota_dict anthropic account in
            let! qg := Account_quota_dict gemini account in
            reply 200 (PQuotas qa qg)
        end).

(** Get the quota row of the account for the provider, creating it when
    there is none; its index. *)
Definition get_or_create_quota (account_id : string) (p : provider) : M nat :=
  λ st, match find_quota account_id p st with
        | Some (qi, _) => Ok qi st
        | None =>
            Ok (length (quotas st))
               (with_quotas (quotas st ++ [AccountsRoutes.new_quota account_id p]) st)
        end.

(** [quota.to_dict()] on the row at an index. *)
Definition quota_dict_at (qi : nat) : M quota_dict :=
  λ st, match quotas st !! qi with
        | Some q => Quota_to_dict qi q st
        | None => Ok QuotaDefault st
        end.

(** [POST /quotas/<account_id>/<provider>/exhausted] *)
Definition mark_exhausted (account_id provider : string) (proximo_reset : reset_field)
  : state → outcome :=
  http (match parse_provider provider with
        | None => reply 400 (PError "Proveedor inválido")
        | Some p =>
            let! st := get_state in
            match find_account user_id account_id st with
            | None => reply 404 (PError "Cuenta no encontrada")
            | Some _ =>
                match proximo_reset with
                | Missing => reply 400 (PError "Fecha de próximo reinicio es requerida")
                | Malformed => reply 400 (PError "Formato de fecha inválido")
                | Parsed reset_time =>
                    let! qi := get_or_create_quota account_id p in
                    Quota_mark_exhausted qi reset_time ;;
                    let! d := quota_dict_at qi in
                    reply 200 (PQuota d)
                end
            end
        end).

(** [POST /quotas/<account_id>/<provider>/reset] *)
Definition reset_quota (account_id provider : string) : state → outcome :=
  http (match parse_provider provider with
        | None => reply 400 (PError "Proveedor inválido")
        | Some p =>
            let! st := get_state in
            match find_account user_id account_id st with
            | None => reply 404 (PError "Cuenta no encontrada")
            | Some _ =>
                match find_quota account_id p st with
                | None => reply 404 (PError "Cuota no encontrada")
                | Some (qi, _) =>
                    Quota_reset qi ;;
                    let! d := quota_dict_at qi in
                    reply 200 (PQuota d)
                end
            end
        end).

(** [POST /quotas/check-resets] *)
Definition check_resets : state → outcome :=
  http (let! n := check_and_reset_quotas user_id in reply 200 (PResetCount n)).

End Routes.
End QuotasRoutes.

Module SessionsRoutes.
Section Routes.
Variable user_id : string.

(** The body of [POST /sessions/start] when it is not empty: the two keys
    it may hold. *)
Record start_body := StartBody {
  sb_account_id : option string;
  sb_provider : option string
}.

Definition required (field : option string) : option string :=
  match field with
  | Some v => if decide (v = "") then None else Some v
  | None => None
  end.

(** [POST /sessions/start]; [data] is [None] for a body that is null or an
    empty object.  Only [ValueError] is caught. *)
Definition start_session (data : option start_body) : state → outcome :=
  http (match data with
        | None => reply 400 (PError "Datos requeridos")
        | Some data =>
            match required (sb_account_id data), required (sb_provider data) with
            | Some account_id, Some provider =>
                match parse_provider provider with
                | None => reply 400 (PError "Proveedor inválido")
                | Some p =>
                    λ st,
                      match RotationManager.start_session user_id account_id p st with
                      | Ok new_session st1 =>
                          match Account_query_get account_id st1 with
                          | Some (_, account) =>
                              (let! d := Account_to_dict account in
                               reply 201 (PSession (Session_to_dict new_session) (Some d))) st1
                          | None =>
                              reply 201 (PSession (Session_to_dict new_session) None) st1
                          end
                      | Raise (ValueError msg) st1 => reply 400 (PError msg) st1
                      | Raise TypeError st1 => Raise TypeError st1
                      end
                end
            | _, _ => reply 400 (PError "account_id y provider son requeridos")
            end
        end).

(** What [str(e)] gives for the [TypeError] of [fin - inicio]. *)
Definition internal_error_msg : string :=
  "Error interno del servidor: can't subtract offset-naive and offset-aware datetimes".

(** What [POST /sessions/end] finds as [request.get_json() or {}]: a value
    that is not an object (and not falsy), an object whose [proximo_reset]
    is neither falsy nor text, or an object read as its motive, ['manual']
    when the key is missing, and its [proximo_reset]. *)
Inductive end_request :=
| EndNotObject
| EndResetNotText
| EndRequest (m : motivo) (proximo_reset : reset_field).

(** [POST /sessions/end].  [data.get] and [.replace] come before the [try]
    and only [ValueError] is caught around the parsing; inside the [try]
    every exception is caught. *)
Definition end_session (rq : end_request) : state → outcome :=
  match rq with
  | EndNotObject => Failed AttributeError
  | EndResetNotText => Failed AttributeError
  | EndRequest m proximo_reset =>
      http (match proximo_reset with
            | Malformed => reply 400 (PError "Formato de fecha inválido")
            | _ =>
                let r := match proximo_reset with Parsed d => Some d | _ => None end in
                λ st,
                  match RotationManager.end_session user_id m r st with
                  | Ok None st1 => reply 404 (PError "No hay sesión activa") st1
                  | Ok (Some ended_session) st1 =>
                      reply 200 (PSession (Session_to_dict ended_session) None) st1
                  | Raise _ st1 => reply 500 (PError internal_error_msg) st1
                  end
            end)
  end.

(** [GET /sessions/active] *)
Definition get_active_session : state → outcome :=
  http (let! st := get_state in
        match RotationManager.get_active_session user_id st with
        | None => reply 200 (PActive None None)
        | Some (_, active) =>
            match Account_query_get (Session.account_id active) st with
            | Some (_, account) =>
                let! d := Account_to_dict account in
                reply 200 (PActive (Some (Session_to_dict active)) (Some d))
            | None => reply 200 (PActive (Some (Session_to_dict active)) None)
            end
        end).

(** What [POST /sessions/rotate] finds as its body, read as for
    [POST /sessions/end]; the motive is ['cuota_agotada'] and [auto_start]
    true when their keys are missing. *)
Inductive rotate_request :=
| RotateNotObject
| RotateResetNotText
| RotateRequest (m : motivo) (proximo_reset : reset_field) (auto_start : bool).

(** [POST /sessions/rotate].  Nothing is caught but the [ValueError] of
    the parsing. *)
Definition rotate_session (rq : rotate_request) : state → outcome :=
  match rq with
  | RotateNotObject => Failed AttributeError
  | RotateResetNotText => Failed AttributeError
  | RotateRequest m proximo_reset auto_start =>
      http (match proximo_reset with
            | Malformed => reply 400 (PError "Formato de fecha inválido")
            | _ =>
                let r := match proximo_reset with Parsed d => Some d | _ => None end in
                let! result := RotationManager.rotate_to_next user_id m r auto_start in
                reply 200 (PRotation result)
            end)
  end.

End Routes.
End SessionsRoutes.

(** ** Requests *)

Inductive request :=
| PostAccounts (new_id : string) (email_google nombre : option string)
| GetAccount (account_id : string)
| PutAccount (account_id : string) (data : option AccountsRoutes.update_body)
| DeleteAccount (account_id : string)
| GetAccountsSummary
| GetQuotas (account_id : string)
| PostQuotaExhausted (account_id provider : string) (proximo_reset : reset_field)
| PostQuotaReset (account_id provider : string)
| PostQuotasCheckResets
| PostSessionsStart (data : option SessionsRoutes.start_body)
| PostSessionsEnd (rq : SessionsRoutes.end_request)
| GetSessionsActive
| PostSessionsRotate (rq : SessionsRoutes.rotate_request).

(** [login_required] sets [g.user_id] to [SINGLE_USER_ID] on every route. *)
Definition handle (rq : request) : state → outcome :=
  match rq with
  | PostAccounts new_id email nombre =>
      AccountsRoutes.create_account SINGLE_USER_ID new_id email nombre
  | GetAccount account_id => AccountsRoutes.get_account SINGLE_USER_ID account_id
  | PutAccount account_id data =>
      AccountsRoutes.update_account SINGLE_USER_ID account_id data
  | DeleteAccount account_id => AccountsRoutes.delete_account SINGLE_USER_ID account_id
  | GetAccountsSummary => AccountsRoutes.get_summary SINGLE_USER_ID
  | GetQuotas account_id => QuotasRoutes.get_quotas SINGLE_USER_ID account_id
  | PostQuotaExhausted account_id provider r =>
      QuotasRoutes.mark_exhausted SINGLE_USER_ID account_id provider r
  | PostQuotaReset account_id provider =>
      QuotasRoutes.reset_quota SINGLE_USER_ID account_id provider
  | PostQuotasCheckResets => QuotasRoutes.check_resets SINGLE_USER_ID
  | PostSessionsStart data => SessionsRoutes.start_session SINGLE_USER_ID data
  | PostSessionsEnd rq => SessionsRoutes.end_session SINGLE_USER_ID rq
  | GetSessionsActive => SessionsRoutes.get_active_session SINGLE_USER_ID
  | PostSessionsRotate rq => SessionsRoutes.rotate_session SINGLE_USER_ID rq
  end.

Definition serve (rqs : list request) (st : state) : state :=
  foldl (λ st rq, outcome_state (handle rq st)) st rqs.

(** A database without rows. *)
Definition empty_database (clock : nat → Z) : state := State [] [] [] clock 0.

(** ** What the routes maintain

    The constraints of the schema ([unique_user_email],
    [unique_account_provider], the two foreign keys) and the bookkeeping of
    the sessions, on a database that only the routes have written. *)
Record Sound (st : state) : Prop := MkSound {
  sound_inv : Inv SINGLE_USER_ID st;
  sound_owner : ∀ a, a ∈ accounts st → Account.user_id a = SINGLE_USER_ID;
  sound_emails : NoDup (Account.email_google <$> accounts st);
  sound_quota_keys : NoDup (key <$> quotas st);
  sound_quota_owner :
    ∀ k, k ∈ key <$> quotas st → k.1 ∈ Account.id <$> accounts st;
  sound_session_owner :
    ∀ s, s ∈ sessions st → Session.account_id s ∈ Account.id <$> accounts st;
  sound_active :
    ∀ s, s ∈ sessions st → Session.fin s = None →
         ∃ a, a ∈ accounts st ∧ Account.id a = Session.account_id s
              ∧ Account.activa a = true
}.

(** A few requests on the empty database; the second and the fifth are
    refused. *)
Definition requests_mixed : list request :=
  [PostAccounts "a1" (Some "one@example.com") None;
   PostAccounts "a2" (Some "one@example.com") (Some "again");
   PostAccounts "a2" (Some "two@example.com") None;
   PostSessionsStart (Some (SessionsRoutes.StartBody (Some "a1") (Some "anthropic")));
   DeleteAccount "a1";
   PostSessionsRotate
     (SessionsRoutes.RotateRequest cuota_agotada (Parsed (Aware 5000)) true);
   DeleteAccount "a1";
   GetAccountsSummary].

(** What [DELETE /accounts/<account_id>] answers for an active account. *)
Definition refused_active : response :=
  Response 400 (PError "No se puede eliminar una cuenta activa").

(** The empty database after one account was created and a session
    started on it. *)
Definition database_one_active : state :=
  serve [PostAccounts "a1" (Some "one@example.com") None;
         PostSessionsStart
           (Some (SessionsRoutes.StartBody (Some "a1") (Some "anthropic")))]
        (empty_database (frozen 1000)).

(** * Properties *)

Import RotationManager.

(** ** The monad *)

Lemma bind_Ok {A B} (m : M A) (k : A → M B) st b st2 :
  bind m k st = Ok b st2 ↔ ∃ a st1, m st = Ok a st1 ∧ k a st1 = Ok b st2.
Proof.
  unfold bind. destruct (m st) as [a st1|e st1]; split.
  - intros H. by exists a, st1.
  - by intros (a'&st1'&[= <- <-]&H).
  - intros [=].
  - intros (a'&st1'&Hd&_). discriminate Hd.
Qed.

Lemma bind_Raise {A B} (m : M A) (k : A → M B) st e st2 :
  bind m k st = Raise e st2 ↔
  m st = Raise e st2 ∨ ∃ a st1, m st = Ok a st1 ∧ k a st1 = Raise e st2.
Proof.
  unfold bind. destruct (m st) as [a st1|e' st1]; split.
  - intros H. right. by exists a, st1.
  - intros [Hd|(a'&st1'&Heq&H)]; [discriminate Hd|]. by injection Heq as <- <-.
  - intros H. injection H as -> ->. by left.
  - intros [H|(a'&st1'&Hd&_)]; [by injection H as -> ->|discriminate Hd].
Qed.

Lemma bind_eq {A B} (m : M A) (k : A → M B) st a st1 :
  m st = Ok a st1 → bind m k st = k a st1.
Proof. unfold bind. by intros ->. Qed.

(** ** Lazy recovery only touches quota rows *)



Lemma recovered_refl K st : recovered K st st.
Proof.
  repeat split. apply Forall2_same_length_lookup. split; [done|].
  intros i q q' ? ?. left. congruence.
Qed.

Lemma recovered_tick K st : recovered K st (tick st).
Proof. apply (recovered_refl K st). Qed.

Lemma recovered_mono (K K' : string * provider → Prop) st st' :
  (∀ k, K k → K' k) → recovered K st st' → recovered K' st st'.
Proof.
  intros HK (?&?&?&HF). repeat split; try done.
  eapply Forall2_impl; [exact HF|].
  intros q q' [->|(?&?&->)]; [by left|right]. split_and!; try done. by apply HK.
Qed.

Lemma recovered_trans K st st1 st2 :
  recovered K st st1 → recovered K st1 st2 → recovered K st st2.
Proof.
  intros (Ha&Hs&Hc&HF) (Ha'&Hs'&Hc'&HF').
  repeat split; try congruence.
  revert HF'. generalize (quotas st2). induction HF as [|q q1 l l1 Hq _ IH]; intros l2 HF'.
  - by inversion HF'.
  - inversion HF' as [|? q2 ? l2' Hq' HF'' ]; subst. constructor; [|by apply IH].
    destruct Hq as [->|(?&?&->)]; [done|].
    destruct Hq' as [->|(?&Habs&?)]; [by right|]. by destruct q.
Qed.

Lemma recovered_reset qi q st :
  quotas st !! qi = Some q → Quota.estado q = agotada →
  recovered (λ k, k = key q) st (with_quotas (<[qi := reset_row q]> (quotas st)) st).
Proof.
  intros Hq He. repeat split. simpl.
  apply Forall2_same_length_lookup. split; [by rewrite length_insert|].
  intros i x y Hx Hy. destruct (decide (i = qi)) as [->|Hne].
  - rewrite list_lookup_insert_eq in Hy by (by eapply lookup_lt_Some).
    right. split_and!; congruence.
  - rewrite list_lookup_insert_ne in Hy by done. left. congruence.
Qed.

(** What [is_available] does, case by case. *)
Lemma Quota_is_available_unfold qi q st :
  Quota_is_available qi q st =
  match Quota.estado q, Quota.proximo_reset q with
  | disponible, _ => Ok true st
  | agotada, None => Ok false st
  | agotada, Some (Naive _) => Raise TypeError (tick st)
  | agotada, Some (Aware r) =>
      if (r <=? clock st (reads st))%Z
      then match quotas st !! qi with
           | Some q' => Ok true (with_quotas (<[qi := reset_row q']> (quotas st)) (tick st))
           | None => Ok true (tick st)
           end
      else Ok false (tick st)
  end.
Proof.
  unfold Quota_is_available. destruct (Quota.estado q); [done|].
  destruct (Quota.proximo_reset q) as [[r|r]|]; try done.
  unfold bind, datetime_now. simpl. destruct (r <=? _)%Z; [|done].
  unfold Quota_reset. simpl. by destruct (quotas st !! qi).
Qed.

Lemma Quota_is_available_recovered qi q st :
  quotas st !! qi = Some q →
  recovered (λ k, k = key q) st (state_of (Quota_is_available qi q st)).
Proof.
  intros Hq. rewrite Quota_is_available_unfold.
  destruct (Quota.estado q) eqn:He; [apply recovered_refl|].
  destruct (Quota.proximo_reset q) as [[r|r]|];
    [apply recovered_tick| |apply recovered_refl].
  destruct (r <=? clock st (reads st))%Z; [|apply recovered_tick].
  rewrite Hq. simpl.
  eapply recovered_trans; [apply recovered_tick|].
  by apply (recovered_reset qi q (tick st)).
Qed.

Lemma Account_get_quota_Some p a st qi q :
  Account_get_quota p a st = Some (qi, q) →
  quotas st !! qi = Some q ∧ key q = (Account.id a, p).
Proof.
  unfold Account_get_quota. intros (?&(?&?)&_)%list_find_Some.
  split; [done|]. unfold key. congruence.
Qed.

Lemma Account_is_available_recovered p a st :
  recovered (λ k, k = (Account.id a, p)) st (state_of (Account_is_available p a st)).
Proof.
  unfold Account_is_available.
  destruct (Account_get_quota p a st) as [[qi q]|] eqn:Hg; [|apply recovered_refl].
  apply Account_get_quota_Some in Hg as [Hq <-].
  by apply Quota_is_available_recovered.
Qed.


Lemma recovered_get_quota K st st' p a :
  recovered K st st' →
  match Account_get_quota p a st with
  | None => Account_get_quota p a st' = None
  | Some (i, q) =>
      ∃ q', Account_get_quota p a st' = Some (i, q') ∧
            (q' = q ∨ (K (Account.id a, p) ∧ Quota.estado q = agotada ∧ q' = reset_row q))
  end.
Proof.
  intros (_&_&_&HF). unfold Account_get_quota.
  induction HF as [|q q' l l' Hq _ IH]; [done|].
  assert (key q' = key q) as Hk by (by destruct Hq as [->|(_&_&->)]).
  cbn [list_find]. unfold key in Hk.
  destruct (decide (Quota.account_id q = Account.id a ∧ Quota.provider q = p)) as [Hp|Hp].
  - rewrite decide_True by (destruct Hp; split; congruence).
    exists q'. split; [done|]. destruct Hq as [->|(HK&?&->)]; [by left|right].
    split; [|done]. destruct Hp as [<- <-]. exact HK.
  - rewrite decide_False by (intros [? ?]; apply Hp; split; congruence).
    destruct (list_find _ l) as [[i x]|]; simpl in *.
    + destruct IH as (x'&->&?). by exists x'.
    + by rewrite IH.
Qed.

Lemma quota_open_mono K st st' p a :
  recovered K st st' → quota_open p a st → quota_open p a st'.
Proof.
  intros HR. unfold quota_open.
  pose proof (recovered_get_quota K st st' p a HR) as H.
  destruct (Account_get_quota p a st) as [[i q]|].
  - destruct H as (q'&->&[->|(_&_&->)]); done.
  - by rewrite H.
Qed.

Lemma quota_open_frame K st st' p a :
  recovered K st st' → ¬ K (Account.id a, p) →
  quota_open p a st' ↔ quota_open p a st.
Proof.
  intros HR HK. unfold quota_open.
  pose proof (recovered_get_quota K st st' p a HR) as H.
  destruct (Account_get_quota p a st) as [[i q]|].
  - destruct H as (q'&->&[->|(?&_&_)]); done.
  - by rewrite H.
Qed.

Lemma get_quota_insert p a st0 st qi q q' :
  Account_get_quota p a st = Some (qi, q) → key q' = key q →
  Account_get_quota p a (with_quotas (<[qi := q']> (quotas st)) st0) = Some (qi, q').
Proof.
  unfold Account_get_quota, key. simpl.
  intros (Hq&(?&?)&Hlt)%list_find_Some [= Ha Hp].
  apply list_find_insert_Some. right. left.
  split_and!; try done; try congruence. by eapply lookup_lt_Some.
Qed.

(** The answer of [is_available] can be read off the state it leaves:
    the lazy transition is persisted. *)
Lemma Account_is_available_open p a st b st' :
  Account_is_available p a st = Ok b st' → b = true ↔ quota_open p a st'.
Proof.
  unfold Account_is_available, quota_open.
  destruct (Account_get_quota p a st) as [[qi q]|] eqn:Hg.
  - rewrite Quota_is_available_unfold.
    pose proof Hg as [Hq Hk]%Account_get_quota_Some.
    destruct (Quota.estado q) eqn:He.
    { intros [= <- <-]. by rewrite Hg. }
    destruct (Quota.proximo_reset q) as [[r|r]|]; try done.
    + destruct (r <=? clock st (reads st))%Z.
      * rewrite Hq. intros [= <- <-].
        by rewrite (get_quota_insert p a (tick st) st qi q (reset_row q)).
      * intros [= <- <-].
        change (Account_get_quota p a (tick st)) with (Account_get_quota p a st).
        rewrite Hg, He. done.
    + intros [= <- <-]. rewrite Hg, He. done.
  - intros [= <- <-]. by rewrite Hg.
Qed.

Lemma Account_is_available_Ok_recovered p a st b st' :
  Account_is_available p a st = Ok b st' →
  recovered (λ k, k = (Account.id a, p)) st st'.
Proof.
  intros H. pose proof (Account_is_available_recovered p a st) as HR.
  by rewrite H in HR.
Qed.


Lemma Account_get_classification_Ok a st c st' :
  Account_get_classification a st = Ok c st' ↔
  ∃ x st1 y, Account_is_anthropic_available a st = Ok x st1 ∧
             Account_is_gemini_available a st1 = Ok y st' ∧ c = classify x y.
Proof.
  unfold Account_get_classification. rewrite bind_Ok. split.
  - intros (x&st1&Hx&(y&st2&Hy&[= <- <-])%bind_Ok). by exists x, st1, y.
  - intros (x&st1&y&Hx&Hy&->). exists x, st1. split; [done|].
    apply bind_Ok. by exists y, st'.
Qed.

(** ** Quota availability *)

Lemma Quota_is_available_disponible qi q st :
  Quota.estado q = disponible → Quota_is_available qi q st = Ok true st.
Proof. intros H. by rewrite Quota_is_available_unfold, H. Qed.

Lemma Quota_is_available_aware qi q r st :
  quotas st !! qi = Some q → Quota.estado q = agotada →
  Quota.proximo_reset q = Some (Aware r) →
  Quota_is_available qi q st =
  if (r <=? clock st (reads st))%Z
  then Ok true (with_quotas (<[qi := reset_row q]> (quotas st)) (tick st))
  else Ok false (tick st).
Proof. intros Hq He Hr. by rewrite Quota_is_available_unfold, He, Hr, Hq. Qed.

Lemma Quota_is_available_naive qi q t st :
  Quota.estado q = agotada → Quota.proximo_reset q = Some (Naive t) →
  Quota_is_available qi q st = Raise TypeError (tick st).
Proof. intros He Hr. by rewrite Quota_is_available_unfold, He, Hr. Qed.

(** With an aware reset time in the past [mark_exhausted] followed by
    [is_available] heals the row at once. *)
Lemma mark_exhausted_aware_then_available qi q r st :
  quotas st !! qi = Some q → (r <= clock st (S (reads st)))%Z →
  ∃ q' st1,
    Quota_mark_exhausted qi (Aware r) st = Ok () st1 ∧
    quotas st1 !! qi = Some q' ∧
    Quota.estado q' = agotada ∧ Quota.proximo_reset q' = Some (Aware r) ∧
    Quota_is_available qi q' st1 =
      Ok true (with_quotas (<[qi := reset_row q]> (quotas st)) (tick (tick st))).
Proof.
  intros Hq Hr. eexists _, _. unfold Quota_mark_exhausted, bind, datetime_now.
  cbn. rewrite Hq. split; [done|].
  cbn. rewrite list_lookup_insert_eq by (by eapply lookup_lt_Some).
  split_and!; try done.
  rewrite Quota_is_available_unfold. cbn.
  rewrite (proj2 (Z.leb_le _ _) Hr).
  rewrite list_lookup_insert_eq by (by eapply lookup_lt_Some).
  unfold with_quotas, tick, reset_row. cbn. by rewrite list_insert_insert_eq.
Qed.

(** C2.  [is_available] on an exhausted row whose [proximo_reset] is stored
    without time zone compares it with the aware [now] and raises
    [TypeError]: the call does not return a boolean. *)
Theorem C2_naive_reset_raises qi account_id p t agotada_en st :
  Quota_is_available qi (Quota.mk account_id p agotada (Some (Naive t)) agotada_en) st
  = Raise TypeError (tick st).
Proof. by apply Quota_is_available_naive with t. Qed.

(** C8.  A provider without a quota row counts as available and leaves the
    state alone; the classification is [Disponible] when both providers
    are available, [LimiteParcial] when exactly one is and [LimiteTotal]
    when neither is, where available is what the two checks answered and,
    equally, what the rows say once the checks have run. *)
Theorem C8_fail_open_and_classification a st :
  (∀ p, Account_get_quota p a st = None → Account_is_available p a st = Ok true st) ∧
  (∀ x st1 y st2,
     Account_is_anthropic_available a st = Ok x st1 →
     Account_is_gemini_available a st1 = Ok y st2 →
     ∃ c, Account_get_classification a st = Ok c st2 ∧
          (c = Disponible ↔ x = true ∧ y = true) ∧
          (c = LimiteParcial ↔ x ≠ y) ∧
          (c = LimiteTotal ↔ x = false ∧ y = false)) ∧
  (∀ c st', Account_get_classification a st = Ok c st' →
     (c = Disponible ↔ quota_open anthropic a st' ∧ quota_open gemini a st') ∧
     (c = LimiteParcial ↔ ¬ (quota_open anthropic a st' ↔ quota_open gemini a st')) ∧
     (c = LimiteTotal ↔ ¬ quota_open anthropic a st' ∧ ¬ quota_open gemini a st')).
Proof.
  split_and!.
  - intros p Hp. unfold Account_is_available. by rewrite Hp.
  - intros x st1 y st2 Hx Hy. exists (classify x y). split.
    + apply Account_get_classification_Ok. by exists x, st1, y.
    + destruct x, y; cbn; split_and!; split; (done || by intros [? ?]).
  - intros c st' (x&st1&y&Hx&Hy&->)%Account_get_classification_Ok.
    pose proof (Account_is_available_open _ _ _ _ _ Hx) as Hox.
    pose proof (Account_is_available_open _ _ _ _ _ Hy) as Hoy.
    pose proof (Account_is_available_Ok_recovered _ _ _ _ _ Hy) as HR.
    assert (quota_open anthropic a st' ↔ quota_open anthropic a st1) as Hfr.
    { eapply quota_open_frame; [exact HR|]. by intros [= ?]. }
    rewrite Hfr, <- Hox, <- Hoy.
    destruct x, y; cbn; intuition congruence.
Qed.

Lemma start_session_unfold user_id account_id p st :
  start_session user_id account_id p st =
  match get_active_session user_id st with
  | Some _ => Raise (ValueError conflict_msg) st
  | None =>
      match list_find (λ a, Account.id a = account_id ∧ Account.user_id a = user_id)
                      (accounts st) with
      | None => Raise (ValueError not_found_msg) st
      | Some (ai, a) =>
          match Account_is_available p a st with
          | Ok true st1 =>
              let s := Session.mk account_id p (Aware (clock st1 (reads st1))) None None None in
              Ok s (with_sessions (sessions st1 ++ [s])
                      (with_accounts (<[ai := set_activa true a]> (accounts st1)) (tick st1)))
          | Ok false st1 => Raise (ValueError (exhausted_msg p)) st1
          | Raise e st1 => Raise e st1
          end
      end
  end.
Proof.
  unfold start_session, bind, get_state.
  destruct (get_active_session user_id st); [done|].
  destruct (list_find _ (accounts st)) as [[ai a]|]; [|done].
  destruct (Account_is_available p a st) as [[] st1|]; done.
Qed.

(** ** Ending a session *)

Lemma Session_end_session_unfold si s m st :
  Session_end_session si s m st =
  match Session.inicio s with
  | Naive _ => Raise TypeError (tick st)
  | Aware t =>
      let now := clock st (reads st) in
      let st1 := with_sessions
                   (<[si := closed_row s (Aware now) (now - t)%Z m]> (sessions st))
                   (tick st) in
      match Account_query_get (Session.account_id s) st with
      | Some (ai, a) =>
          Ok () (with_accounts (<[ai := rollup (Some (now - t)%Z) a]> (accounts st)) st1)
      | None => Ok () st1
      end
  end.
Proof.
  unfold Session_end_session, bind, datetime_now. cbn.
  destruct (Session.inicio s) as [t|t]; [done|]. cbn.
  unfold Account_query_get. cbn.
  by destruct (list_find _ (accounts st)) as [[ai a]|].
Qed.

Lemma exhaust_quota_of_eq s r st :
  exhaust_quota_of s r st =
  Ok () (with_quotas (quotas_after_exhaust s r st) (tick st)).
Proof.
  unfold exhaust_quota_of, quotas_after_exhaust.
  destruct (list_find _ (quotas st)) as [[qi q]|] eqn:Hf.
  - apply list_find_Some in Hf as (Hq&(Ha&Hp)&_).
    unfold Quota_mark_exhausted, bind, datetime_now. cbn. rewrite Hq.
    unfold exhausted_row. by rewrite Ha, Hp.
  - unfold Quota_mark_exhausted, bind, datetime_now. cbn.
    rewrite lookup_app_r by lia. rewrite Nat.sub_diag. cbn.
    unfold with_quotas, tick. cbn. f_equal. f_equal.
    replace (length (quotas st)) with (length (quotas st) + 0) at 1 by lia.
    by rewrite insert_app_r.
Qed.

Lemma end_session_unfold user_id m r st :
  end_session user_id m r st =
  match get_active_session user_id st with
  | None => Ok None st
  | Some (si, s) =>
      match Session_end_session si s m st with
      | Raise e st1 => Raise e st1
      | Ok _ st1 =>
          match m, r with
          | cuota_agotada, Some r =>
              let st2 := with_quotas (quotas_after_exhaust s r st1) (tick st1) in
              Ok (sessions st2 !! si) st2
          | _, _ => Ok (sessions st1 !! si) st1
          end
      end
  end.
Proof.
  unfold end_session, bind, get_state.
  destruct (get_active_session user_id st) as [[si s]|]; [|done].
  destruct (Session_end_session si s m st) as [[] st1|]; [|done].
  destruct m; [done|]. destruct r as [r|]; [|done].
  by rewrite exhaust_quota_of_eq.
Qed.

Lemma get_active_session_Some user_id st si s :
  get_active_session user_id st = Some (si, s) →
  sessions st !! si = Some s ∧ Session.fin s = None ∧
  joined user_id (Session.account_id s) st.
Proof. unfold get_active_session. intros (?&(?&?)&_)%list_find_Some. done. Qed.

Lemma joined_query_get user_id k st :
  joined user_id k st → is_Some (Account_query_get k st).
Proof.
  unfold joined, Account_query_get. intros (a&Ha&Hid&_)%Exists_exists.
  eapply list_find_elem_of; [exact Ha|done].
Qed.

(** No active session: nothing to end, nothing changes. *)
Lemma end_session_idle user_id m r st :
  get_active_session user_id st = None → end_session user_id m r st = Ok None st.
Proof. intros H. by rewrite end_session_unfold, H. Qed.

(** An active session whose start is stored aware is closed, rolled into
    its account, and its quota marked when asked. *)
Lemma end_session_aware user_id m r st si s t :
  get_active_session user_id st = Some (si, s) →
  Session.inicio s = Aware t →
  let now := clock st (reads st) in
  let d := (now - t)%Z in
  let s' := closed_row s (Aware now) d m in
  ∃ ai a st',
    Account_query_get (Session.account_id s) st = Some (ai, a) ∧
    end_session user_id m r st = Ok (Some s') st' ∧
    sessions st' = <[si := s']> (sessions st) ∧
    accounts st' = <[ai := rollup (Some d) a]> (accounts st) ∧
    quotas st' =
      match m, r with
      | cuota_agotada, Some r => quotas_after_exhaust s r (tick st)
      | _, _ => quotas st
      end.
Proof.
  intros Hact Hin now d s'.
  pose proof Hact as (Hs&Hfin&Hj)%get_active_session_Some.
  destruct (joined_query_get _ _ _ Hj) as [[ai a] Hget].
  exists ai, a. rewrite end_session_unfold, Hact, Session_end_session_unfold, Hin.
  cbn zeta. rewrite Hget.
  assert (si < length (sessions st)) by (by eapply lookup_lt_Some).
  destruct m; [|destruct r as [r|]]; eexists; (split; [done|]); cbn;
    rewrite list_lookup_insert_eq by done; done.
Qed.

(** With a start stored naive the subtraction [fin - inicio] raises. *)
Lemma end_session_naive user_id m r st si s t :
  get_active_session user_id st = Some (si, s) →
  Session.inicio s = Naive t →
  end_session user_id m r st = Raise TypeError (tick st).
Proof.
  intros Hact Hin.
  by rewrite end_session_unfold, Hact, Session_end_session_unfold, Hin.
Qed.

(** ** Lists *)

Lemma filter_empty_iff {A} (P : A → Prop) `{∀ x, Decision (P x)} (l : list A) :
  filter P l = [] ↔ ∀ x, x ∈ l → ¬ P x.
Proof.
  split.
  - intros Hnil x Hx HP. by eapply filter_nil_not_elem_of.
  - intros Hno. destruct (filter P l) as [|x l'] eqn:Hf; [done|].
    assert (x ∈ filter P l) as [HP Hx]%list_elem_of_filter by (rewrite Hf; left).
    by destruct (Hno x Hx).
Qed.

Lemma filter_empty_1 {A} (P : A → Prop) `{∀ x, Decision (P x)} (l : list A) x :
  filter P l = [] → x ∈ l → ¬ P x.
Proof. intros Hf Hx HP. by eapply filter_nil_not_elem_of. Qed.

Lemma filter_empty_2 {A} (P : A → Prop) `{∀ x, Decision (P x)} (l : list A) :
  (∀ x, x ∈ l → ¬ P x) → filter P l = [].
Proof. apply (filter_empty_iff P l). Qed.

Lemma filter_le1_eq {A} (P : A → Prop) `{∀ x, Decision (P x)} (l : list A) x y :
  length (filter P l) ≤ 1 → x ∈ l → y ∈ l → P x → P y → x = y.
Proof.
  intros Hlen Hx Hy HPx HPy.
  assert (x ∈ filter P l) as Hx' by (by apply list_elem_of_filter).
  assert (y ∈ filter P l) as Hy' by (by apply list_elem_of_filter).
  destruct (filter P l) as [|z [|z' l']]; simpl in Hlen; [| |lia].
  - by apply elem_of_nil in Hx'.
  - apply list_elem_of_singleton in Hx', Hy'. congruence.
Qed.

Lemma filter_insert_last_open {A} (P : A → Prop) `{∀ x, Decision (P x)}
    (l : list A) i x x' :
  l !! i = Some x → P x → ¬ P x' → length (filter P l) ≤ 1 →
  filter P (<[i := x']> l) = [].
Proof.
  intros Hi HP HP' Hlen.
  rewrite insert_take_drop by (by eapply lookup_lt_Some).
  rewrite <- (take_drop_middle l i x Hi) in Hlen.
  rewrite filter_app, filter_cons_True, length_app in Hlen by done.
  simpl in Hlen.
  rewrite filter_app, filter_cons_False by done.
  rewrite (nil_length_inv (filter P (take i l))) by lia.
  by rewrite (nil_length_inv (filter P (drop (S i) l))) by lia.
Qed.

Lemma NoDup_fmap_lookup {A B} (f : A → B) (l : list A) i j x y :
  NoDup (f <$> l) → l !! i = Some x → l !! j = Some y → f x = f y → i = j.
Proof.
  intros Hnd Hi Hj Hf. eapply (NoDup_lookup _ i j (f x) Hnd).
  - by rewrite list_lookup_fmap, Hi.
  - by rewrite list_lookup_fmap, Hj, Hf.
Qed.

Lemma fmap_insert_same {A B} (f : A → B) (l : list A) i x x' :
  l !! i = Some x → f x' = f x → f <$> <[i := x']> l = f <$> l.
Proof.
  intros Hi Hf. rewrite list_fmap_insert, Hf.
  apply list_insert_id. by rewrite list_lookup_fmap, Hi.
Qed.

(** ** The invariant *)

Lemma joined_owner_keys user_id k st :
  joined user_id k st ↔ (k, user_id) ∈ owner_keys st.
Proof.
  unfold joined, owner_keys. rewrite Exists_exists, list_elem_of_fmap.
  split.
  - intros (a&Ha&<-&<-). by exists a.
  - intros (a&[= -> ->]&Ha). by exists a.
Qed.

Lemma Inv_tables user_id st st' :
  accounts st' = accounts st → sessions st' = sessions st →
  Inv user_id st → Inv user_id st'.
Proof.
  intros Ha Hs (Hnd&Hlen&Hvis&Hact). unfold Inv, open_sessions.
  setoid_rewrite joined_owner_keys. unfold owner_keys. rewrite Ha, Hs.
  setoid_rewrite joined_owner_keys in Hvis. done.
Qed.

Lemma Inv_recovered user_id K st st' :
  recovered K st st' → Inv user_id st → Inv user_id st'.
Proof. intros (Ha&Hs&_). by apply Inv_tables. Qed.

(** With the invariant, the engine sees the open session if there is one. *)
Lemma Inv_idle user_id st :
  Inv user_id st → get_active_session user_id st = None →
  open_sessions st = [] ∧ active_accounts st = [].
Proof.
  intros (Hnd&Hlen&Hvis&Hact) Hnone.
  assert (open_sessions st = []) as Hopen.
  { apply filter_empty_2. intros s Hs Hfin.
    unfold get_active_session in Hnone.
    rewrite list_find_None, Forall_forall in Hnone.
    apply (Hnone s Hs). split; [done|]. by apply Hvis. }
  split; [done|]. apply filter_empty_2. intros a Ha Hact'.
  destruct (Hact a Ha Hact') as (s&Hs&Hfin&_).
  by apply (filter_empty_1 _ _ s Hopen).
Qed.

Lemma Inv_started user_id st ai a s Q C R :
  Inv user_id st → open_sessions st = [] →
  accounts st !! ai = Some a → Account.user_id a = user_id →
  Session.account_id s = Account.id a → Session.fin s = None →
  Inv user_id (State (<[ai := set_activa true a]> (accounts st)) Q
                 (sessions st ++ [s]) C R).
Proof.
  intros (Hnd&Hlen&Hvis&Hact) Hopen Hai Hu Hsid Hfin.
  assert (ai < length (accounts st)) as Hlt by (by eapply lookup_lt_Some).
  assert (∀ x, x ∈ sessions st → Session.fin x ≠ None) as Hclosed.
  { intros x Hx. by apply (filter_empty_1 _ _ x Hopen). }
  unfold Inv, open_sessions. setoid_rewrite joined_owner_keys.
  unfold owner_keys. cbn.
  rewrite !(fmap_insert_same _ _ ai a) by done. split_and!.
  - done.
  - rewrite filter_app, length_app. fold (open_sessions st). rewrite Hopen.
    etrans; [apply length_filter|done].
  - intros x [Hx| ->%list_elem_of_singleton ]%elem_of_app Hx'.
    + by destruct (Hclosed x Hx).
    + rewrite Hsid, <- Hu. apply list_elem_of_fmap. exists a. split; [done|].
      by eapply list_elem_of_lookup_2.
  - intros x (j&Hj)%list_elem_of_lookup Hx.
    apply list_lookup_insert_Some in Hj as [(<-&<-&_)|(Hne&Hj)].
    + exists s. split; [|done]. apply elem_of_app. right. by left.
    + destruct (Hact x) as (s0&Hs0&Hfin0&_); [by eapply list_elem_of_lookup_2|done|].
      by destruct (Hclosed s0 Hs0).
Qed.

Lemma Inv_ended user_id st si s s' ai a a' Q C R :
  Inv user_id st →
  sessions st !! si = Some s → Session.fin s = None → Session.fin s' ≠ None →
  Account_query_get (Session.account_id s) st = Some (ai, a) →
  Account.id a' = Account.id a → Account.user_id a' = Account.user_id a →
  Account.activa a' = false →
  Inv user_id (State (<[ai := a']> (accounts st)) Q (<[si := s']> (sessions st)) C R).
Proof.
  intros (Hnd&Hlen&Hvis&Hact) Hsi Hfin Hfin' Hget Hid Hu Hina.
  apply list_find_Some in Hget as (Hai&Hida&_).
  assert (open_sessions (State (<[ai := a']> (accounts st)) Q
                           (<[si := s']> (sessions st)) C R) = []) as Hopen.
  { unfold open_sessions. cbn. by eapply filter_insert_last_open. }
  unfold Inv. setoid_rewrite joined_owner_keys. unfold owner_keys.
  rewrite Hopen. cbn.
  rewrite !(fmap_insert_same _ _ ai a) by (done || congruence). split_and!.
  - done.
  - lia.
  - intros x Hx Hx'. exfalso. by apply (filter_empty_1 _ _ x Hopen).
  - intros x (j&Hj)%list_elem_of_lookup Hx. exfalso.
    apply list_lookup_insert_Some in Hj as [(<-&<-&_)|(Hne&Hj)]; [congruence|].
    destruct (Hact x) as (s0&Hs0&Hfin0&Hs0id); [by eapply list_elem_of_lookup_2|done|].
    assert (s0 = s) as ->.
    { eapply (filter_le1_eq _ (sessions st)); try done.
      by eapply list_elem_of_lookup_2. }
    apply Hne. eapply (NoDup_fmap_lookup Account.id); try done. congruence.
Qed.

(** ** Calls that only let quotas recover *)

Lemma quiet_ret {A} (a : A) : quiet (ret a).
Proof. intros st. apply recovered_refl. Qed.

Lemma quiet_raise {A} e : quiet (@raise A e).
Proof. intros st. apply recovered_refl. Qed.

Lemma quiet_bind {A B} (m : M A) (k : A → M B) :
  quiet m → (∀ a, quiet (k a)) → quiet (bind m k).
Proof.
  intros Hm Hk st. unfold bind. specialize (Hm st).
  destruct (m st) as [a st1|e st1]; [|done].
  eapply recovered_trans; [exact Hm|apply Hk].
Qed.

Lemma quiet_get_state {A} (k : state → M A) :
  (∀ s, quiet (k s)) → quiet (bind get_state k).
Proof. intros Hk st. apply (Hk st st). Qed.

Lemma quiet_foldM {A S} (f : S → A → M S) l s :
  (∀ s x, quiet (f s x)) → quiet (foldM f l s).
Proof.
  intros Hf. revert s. induction l as [|x l IH]; intros s; cbn.
  - apply quiet_ret.
  - apply quiet_bind; [apply Hf|apply IH].
Qed.

Lemma quiet_is_available p a : quiet (Account_is_available p a).
Proof.
  intros st. eapply recovered_mono; [|apply Account_is_available_recovered]. done.
Qed.

Lemma quiet_get_classification a : quiet (Account_get_classification a).
Proof.
  apply quiet_bind; [apply quiet_is_available|]. intros x.
  apply quiet_bind; [apply quiet_is_available|]. intros y. apply quiet_ret.
Qed.

Lemma quiet_quota_dict p a : quiet (Account_quota_dict p a).
Proof.
  intros st. unfold Account_quota_dict.
  destruct (Account_get_quota p a st) as [[qi q]|] eqn:Hg; [|apply recovered_refl].
  apply Account_get_quota_Some in Hg as [Hq _].
  unfold Quota_to_dict, bind.
  pose proof (Quota_is_available_recovered qi q st Hq) as HR.
  destruct (Quota_is_available qi q st) as [b st1|e st1]; cbn in *.
  - eapply recovered_mono; [|destruct (quotas st1 !! qi); exact HR]. done.
  - eapply recovered_mono; [|exact HR]. done.
Qed.

Lemma quiet_to_dict a : quiet (Account_to_dict a).
Proof.
  apply quiet_bind; [apply quiet_get_classification|]. intros c.
  apply quiet_bind; [apply quiet_quota_dict|]. intros qa.
  apply quiet_bind; [apply quiet_quota_dict|]. intros qg. apply quiet_ret.
Qed.

Lemma quiet_available_for p a : quiet (available_for p a).
Proof.
  destruct p as [[]|]; cbn; try apply quiet_is_available.
  apply quiet_bind; [apply quiet_is_available|].
  intros []; [apply quiet_ret|apply quiet_is_available].
Qed.

Lemma quiet_get_available_accounts user_id p : quiet (get_available_accounts user_id p).
Proof.
  apply quiet_get_state. intros s. apply quiet_foldM. intros l a.
  apply quiet_bind; [apply quiet_available_for|]. intros b. apply quiet_ret.
Qed.

Lemma quiet_least_used l : quiet (least_used l).
Proof.
  unfold least_used. destruct l; [apply quiet_ret|].
  destruct (sort_by_veces_usada _); [apply quiet_ret|apply quiet_raise].
Qed.

Lemma quiet_best_gemini user_id : quiet (best_gemini user_id).
Proof.
  apply quiet_bind; [apply quiet_get_available_accounts|]. intros l.
  apply quiet_bind; [apply quiet_least_used|]. intros b. apply quiet_ret.
Qed.

Lemma quiet_get_best_account user_id b : quiet (get_best_account user_id b).
Proof.
  destruct b; cbn; [|apply quiet_best_gemini].
  apply quiet_bind; [apply quiet_get_available_accounts|]. intros l.
  apply quiet_bind; [apply quiet_least_used|].
  intros [a|]; [apply quiet_ret|apply quiet_best_gemini].
Qed.

(** ** The engine keeps the invariant *)

Lemma preserves_bind {A B} P (m : M A) (k : A → M B) :
  preserves P m → (∀ a, preserves P (k a)) → preserves P (bind m k).
Proof.
  intros Hm Hk st HP. unfold bind. specialize (Hm st HP).
  destruct (m st) as [a st1|e st1]; [|done]. by apply Hk.
Qed.

Lemma preserves_ret {A} P (a : A) : preserves P (ret a).
Proof. by intros st. Qed.

Lemma quiet_preserves_Inv {A} user_id (m : M A) :
  quiet m → preserves (Inv user_id) m.
Proof. intros Hm st. apply Inv_recovered with (λ _, True), Hm. Qed.

Lemma start_session_preserves user_id account_id p :
  preserves (Inv user_id) (start_session user_id account_id p).
Proof.
  intros st HI. rewrite start_session_unfold.
  destruct (get_active_session user_id st) eqn:Hact; [done|].
  destruct (list_find _ (accounts st)) as [[ai a]|] eqn:Hf; [|done].
  pose proof (Account_is_available_recovered p a st) as HR.
  destruct (Account_is_available p a st) as [[] st1|e st1]; cbn in HR |- *;
    try (by eapply Inv_recovered).
  destruct HR as (Ha&Hs&_).
  apply list_find_Some in Hf as (Hai&(Hid&Hu)&_).
  unfold with_sessions, with_accounts, tick. cbn. rewrite Ha, Hs.
  apply Inv_started; try done. by apply (Inv_idle user_id).
Qed.

Lemma end_session_preserves user_id m r :
  preserves (Inv user_id) (end_session user_id m r).
Proof.
  intros st HI. rewrite end_session_unfold.
  destruct (get_active_session user_id st) as [[si s]|] eqn:Hact; [|done].
  pose proof Hact as (Hs&Hfin&Hj)%get_active_session_Some.
  destruct (joined_query_get _ _ _ Hj) as [[ai a] Hget].
  rewrite Session_end_session_unfold.
  destruct (Session.inicio s) as [t|t]; cbn.
  { by eapply Inv_tables. }
  rewrite Hget.
  assert (∀ Q C R, Inv user_id
            (State (<[ai := rollup (Some (clock st (reads st) - t)%Z) a]> (accounts st)) Q
               (<[si := closed_row s (Aware (clock st (reads st)))
                          (clock st (reads st) - t)%Z m]> (sessions st)) C R)) as HI'.
  { intros Q C R. by eapply Inv_ended. }
  destruct m; [apply HI'|]. destruct r; apply HI'.
Qed.

Lemma rotate_to_next_preserves user_id m r auto :
  preserves (Inv user_id) (rotate_to_next user_id m r auto).
Proof.
  apply preserves_bind; [apply end_session_preserves|]. intros ended.
  apply preserves_bind; [apply quiet_preserves_Inv, quiet_get_best_account|].
  intros [[a []]|]; [| |apply preserves_ret].
  - apply preserves_bind; [apply quiet_preserves_Inv, quiet_to_dict|]. intros d.
    destruct auto; [|apply preserves_ret].
    apply preserves_bind; [apply start_session_preserves|]. intros s.
    apply preserves_ret.
  - apply preserves_bind; [apply quiet_preserves_Inv, quiet_to_dict|]. intros d.
    by intros st.
Qed.

Lemma run_calls_preserve user_id cs st :
  Inv user_id st → Inv user_id (run_calls user_id cs st).
Proof.
  revert st. induction cs as [|c cs IH]; intros st HI; [done|].
  cbn. apply IH. destruct c; cbn.
  - by apply start_session_preserves.
  - by apply end_session_preserves.
  - by apply rotate_to_next_preserves.
Qed.

Lemma Inv_at_most_one user_id st :
  Inv user_id st → length (open_sessions st) ≤ 1 ∧ length (active_accounts st) ≤ 1.
Proof.
  intros (Hnd&Hlen&Hvis&Hact). split; [done|].
  unfold active_accounts.
  assert (NoDup (filter (λ a, Account.activa a = true) (accounts st))) as Hnd'.
  { apply NoDup_filter. by eapply NoDup_fmap_1. }
  destruct (filter _ (accounts st)) as [|x [|y l]] eqn:Hf; cbn; [lia|lia|].
  exfalso.
  assert (x ∈ filter (λ a, Account.activa a = true) (accounts st))
    as [Hx Hxin]%list_elem_of_filter by (rewrite Hf; left).
  assert (y ∈ filter (λ a, Account.activa a = true) (accounts st))
    as [Hy Hyin]%list_elem_of_filter by (rewrite Hf; right; left).
  destruct (Hact x Hxin Hx) as (s1&Hs1&Hf1&Hid1).
  destruct (Hact y Hyin Hy) as (s2&Hs2&Hf2&Hid2).
  assert (s1 = s2) as -> by (by eapply (filter_le1_eq _ (sessions st))).
  apply list_elem_of_lookup in Hxin as [i Hi]. apply list_elem_of_lookup in Hyin as [j Hj].
  assert (i = j) as ->.
  { eapply (NoDup_fmap_lookup Account.id); try done. congruence. }
  assert (x = y) as -> by congruence.
  apply NoDup_cons in Hnd' as [Hnin _]. apply Hnin. left.
Qed.

(** C1.  Starting from a pool with unique account ids, no open session and
    no active account, after any sequence of [start_session],
    [end_session] and [rotate_to_next] calls, whatever they returned or
    raised, at most one session has [fin = None] and at most one account has
    [activa = true]. *)
Theorem C1_single_open_session user_id cs st :
  NoDup (Account.id <$> accounts st) →
  open_sessions st = [] → active_accounts st = [] →
  length (open_sessions (run_calls user_id cs st)) ≤ 1 ∧
  length (active_accounts (run_calls user_id cs st)) ≤ 1.
Proof.
  intros Hnd Hopen Hact. apply (Inv_at_most_one user_id), run_calls_preserve.
  unfold Inv. rewrite Hopen. split_and!; [done|cbn; lia| |].
  - intros s Hs Hfin. exfalso. by apply (filter_empty_1 _ _ s Hopen).
  - intros a Ha Hact'. exfalso. by apply (filter_empty_1 _ _ a Hact).
Qed.

(** ** The summary *)

Lemma total_duration_app l1 l2 :
  total_duration (l1 ++ l2) = (total_duration l1 + total_duration l2)%Z.
Proof.
  unfold total_duration. induction l1 as [|s l1 IH]; cbn; [done|].
  rewrite IH. lia.
Qed.

Lemma truthy_false_default d : truthy_duracion d = false → default 0%Z d = 0%Z.
Proof.
  destruct d as [x|]; cbn; [|done]. intros Hx. apply negb_false_iff in Hx. lia.
Qed.

Lemma foldl_count_session l t :
  let t' := foldl count_session t l in
  t_horas_anthropic t' = (t_horas_anthropic t + total_duration (of_provider anthropic l))%Z ∧
  t_horas_gemini t' = (t_horas_gemini t + total_duration (of_provider gemini l))%Z ∧
  t_sesiones_anthropic t' = t_sesiones_anthropic t + length (counted (of_provider anthropic l)) ∧
  t_sesiones_gemini t' = t_sesiones_gemini t + length (counted (of_provider gemini l)).
Proof.
  revert t. induction l as [|s l IH]; intros t; cbn zeta.
  { cbn. split_and!; lia. }
  cbn [foldl]. destruct (IH (count_session t s)) as (H1&H2&H3&H4).
  rewrite H1, H2, H3, H4. clear IH H1 H2 H3 H4.
  unfold count_session, of_provider, counted.
  destruct (Session.provider s) eqn:Hp;
    destruct (truthy_duracion (Session.duracion s)) eqn:Ht.
  all: rewrite ?(filter_cons_True (λ s, Session.provider s = anthropic)) by done.
  all: rewrite ?(filter_cons_True (λ s, Session.provider s = gemini)) by done.
  all: rewrite ?(filter_cons_False (λ s, Session.provider s = anthropic)) by congruence.
  all: rewrite ?(filter_cons_False (λ s, Session.provider s = gemini)) by congruence.
  all: rewrite ?filter_cons_True by done.
  all: rewrite ?filter_cons_False by congruence.
  all: unfold total_duration; cbn; rewrite ?(truthy_false_default _ Ht);
    split_and!; lia.
Qed.

Lemma summarize_account_Ok t a st t' st' :
  summarize_account t a st = Ok t' st' →
  sessions st' = sessions st ∧ accounts st' = accounts st ∧
  ∃ t0, t' = foldl count_session t0 (finished_sessions a st) ∧
        t_horas_anthropic t0 = t_horas_anthropic t ∧
        t_horas_gemini t0 = t_horas_gemini t ∧
        t_sesiones_anthropic t0 = t_sesiones_anthropic t ∧
        t_sesiones_gemini t0 = t_sesiones_gemini t.
Proof.
  unfold summarize_account.
  intros (c&st1&Hc&(x&st2&Hx&(y&st3&Hy&H)%bind_Ok)%bind_Ok)%bind_Ok.
  cbn in H. injection H as <- <-.
  pose proof (quiet_get_classification a st) as (Ha1&Hs1&_). rewrite Hc in Ha1, Hs1.
  pose proof (quiet_is_available anthropic a st1) as (Ha2&Hs2&_).
  unfold Account_is_anthropic_available in Hx. rewrite Hx in Ha2, Hs2.
  pose proof (quiet_is_available gemini a st2) as (Ha3&Hs3&_).
  unfold Account_is_gemini_available in Hy. rewrite Hy in Ha3, Hs3.
  cbn in *. split_and!; [congruence|congruence|].
  eexists. split.
  - unfold finished_sessions, Account_sessions.
    replace (sessions st3) with (sessions st) by congruence. reflexivity.
  - by destruct c, x, y.
Qed.

Lemma foldM_summarize_Ok l t st t' st' :
  foldM summarize_account l t st = Ok t' st' →
  let closed := l ≫= λ a, finished_sessions a st in
  t_horas_anthropic t' = (t_horas_anthropic t + total_duration (of_provider anthropic closed))%Z ∧
  t_horas_gemini t' = (t_horas_gemini t + total_duration (of_provider gemini closed))%Z ∧
  t_sesiones_anthropic t' = t_sesiones_anthropic t + length (counted (of_provider anthropic closed)) ∧
  t_sesiones_gemini t' = t_sesiones_gemini t + length (counted (of_provider gemini closed)).
Proof.
  revert t st. induction l as [|a l IH]; intros t st; cbn [foldM].
  { intros [= <- <-]. cbn. split_and!; lia. }
  intros (t1&st1&H1&H2)%bind_Ok.
  apply summarize_account_Ok in H1 as (Hs&Ha&t0&->&E1&E2&E3&E4).
  apply IH in H2. cbn zeta in H2.
  assert ((l ≫= λ a, finished_sessions a st1) = (l ≫= λ a, finished_sessions a st)) as Heq.
  { unfold finished_sessions, Account_sessions. by rewrite Hs. }
  rewrite Heq in H2. destruct H2 as (H1&H2&H3&H4).
  destruct (foldl_count_session (finished_sessions a st) t0) as (F1&F2&F3&F4).
  cbn zeta in *. rewrite bind_cons.
  unfold of_provider, counted in *.
  rewrite !filter_app, !total_duration_app, !length_app.
  rewrite H1, H2, H3, H4, F1, F2, F3, F4, E1, E2, E3, E4. split_and!; lia.
Qed.

Lemma get_summary_Ok_spec user_id st r st' :
  get_summary user_id st = Ok r st' →
  let closed := closed_sessions user_id st in
  let sa := length (counted (of_provider anthropic closed)) in
  let sg := length (counted (of_provider gemini closed)) in
  Summary.horas_anthropic r = total_duration (of_provider anthropic closed) ∧
  Summary.horas_gemini r = total_duration (of_provider gemini closed) ∧
  Summary.sesiones_anthropic r = sa ∧
  Summary.sesiones_gemini r = sg ∧
  (sg < sa → Summary.modelo_mas_usado r = Some Anthropic) ∧
  (sa < sg → Summary.modelo_mas_usado r = Some Gemini) ∧
  (sa = sg → 0 < sa → Summary.modelo_mas_usado r = Some Empate) ∧
  (sa = 0 → sg = 0 → Summary.modelo_mas_usado r = None).
Proof.
  unfold get_summary. intros H. apply bind_Ok in H as (s0&st0&[= <- <-]&H).
  apply bind_Ok in H as (t&st1&Hfold&[= <- <-]).
  apply foldM_summarize_Ok in Hfold as (H1&H2&H3&H4).
  cbn zeta in *. cbn in H1, H2, H3, H4. cbn [Summary.horas_anthropic
    Summary.horas_gemini Summary.sesiones_anthropic Summary.sesiones_gemini
    Summary.modelo_mas_usado].
  fold (closed_sessions user_id st) in H1, H2, H3, H4.
  rewrite H3, H4. split_and!; try lia; try done.
  all: unfold most_used; intros.
  - rewrite (proj2 (Nat.ltb_lt _ _)) by done. done.
  - rewrite (proj2 (Nat.ltb_ge _ _)) by lia.
    rewrite (proj2 (Nat.ltb_lt _ _)) by done. done.
  - rewrite (proj2 (Nat.ltb_ge _ _)) by lia.
    rewrite (proj2 (Nat.ltb_ge _ _)) by lia.
    rewrite (proj2 (Nat.ltb_lt _ _)) by done. done.
  - rewrite (proj2 (Nat.ltb_ge _ _)) by lia.
    rewrite (proj2 (Nat.ltb_ge _ _)) by lia.
    rewrite (proj2 (Nat.ltb_ge _ _)) by lia. done.
Qed.

(** ** The stable sort and its first element *)

Lemma head_insert_by {A} (key : A → Z) x l :
  head (insert_by key x l) =
  match head l with
  | Some y => if (key x <=? key y)%Z then Some x else Some y
  | None => Some x
  end.
Proof. destruct l as [|y l]; cbn; [done|]. by destruct (key x <=? key y)%Z. Qed.

Lemma head_sort_by {A} (key : A → Z) l :
  head (sort_by key l) = first_min key l.
Proof.
  induction l as [|x l IH]; cbn; [done|]. by rewrite head_insert_by, IH.
Qed.

Lemma first_min_None {A} (key : A → Z) l : first_min key l = None ↔ l = [].
Proof.
  destruct l as [|x l]; cbn; [done|].
  destruct (first_min key l); [destruct (key x <=? key a)%Z|]; done.
Qed.

(** The first element after the sort is the first of the least keys of
    the members that pass the filter. *)
Lemma first_min_filter {A} (key : A → Z) (Q : A → Prop) `{∀ x, Decision (Q x)} l a :
  first_min key (filter Q l) = Some a →
  ∃ i, l !! i = Some a ∧ Q a ∧
       ∀ j b, l !! j = Some b → Q b → (key a <= key b)%Z ∧ (j < i → (key a < key b)%Z).
Proof.
  revert a. induction l as [|x l IH]; intros a; [done|].
  rewrite filter_cons. destruct (decide (Q x)) as [HQ|HQ].
  - cbn [first_min]. destruct (first_min key (filter Q l)) as [y|] eqn:Hm.
    + destruct (IH y eq_refl) as (i&Hi&HQy&Hmin).
      destruct (key x <=? key y)%Z eqn:Hle; intros [= <-].
      * apply Z.leb_le in Hle. exists 0. split_and!; [done..|].
        intros [|j] b Hb HQb; cbn in Hb.
        { injection Hb as <-. split; lia. }
        destruct (Hmin j b Hb HQb). split; lia.
      * apply Z.leb_gt in Hle. exists (S i). split_and!; [done..|].
        intros [|j] b Hb HQb; cbn in Hb.
        { injection Hb as <-. split; lia. }
        destruct (Hmin j b Hb HQb) as [? Hlt]. split; [done|]. intros ?. apply Hlt. lia.
    + intros [= <-]. apply first_min_None in Hm.
      exists 0. split_and!; [done..|].
      intros [|j] b Hb HQb; cbn in Hb.
      { injection Hb as <-. split; lia. }
      exfalso. eapply (filter_empty_1 Q l b); [done| |done].
      by eapply list_elem_of_lookup_2.
  - intros Ha. destruct (IH a Ha) as (i&Hi&HQa&Hmin).
    exists (S i). split_and!; [done..|].
    intros [|j] b Hb HQb; cbn in Hb.
    { injection Hb as <-. done. }
    destruct (Hmin j b Hb HQb) as [? Hlt]. split; [done|]. intros ?. apply Hlt. lia.
Qed.

Lemma least_used_Ok l st r st' :
  least_used l st = Ok r st' → st' = st ∧ r = first_min usage l.
Proof.
  unfold least_used. destruct l as [|a [|b l]].
  - by intros [= <- <-].
  - cbn. by intros [= <- <-].
  - destruct (sort_by_veces_usada (a :: b :: l)) as [sorted|] eqn:Hs; [|done].
    intros [= <- <-]. split; [done|].
    unfold sort_by_veces_usada in Hs.
    destruct (forallb _ _); [|done]. injection Hs as <-.
    exact (head_sort_by usage (a :: b :: l)).
Qed.

(** ** Listing the available accounts *)

Lemma Account_is_available_total p a st :
  ¬ quota_naive p a st → ∃ b st', Account_is_available p a st = Ok b st'.
Proof.
  unfold quota_naive, Account_is_available.
  destruct (Account_get_quota p a st) as [[qi q]|]; [|by eexists _, _].
  rewrite Quota_is_available_unfold. intros Hn.
  destruct (Quota.estado q); [by eexists _, _|].
  destruct (Quota.proximo_reset q) as [[t|t]|]; [|..].
  - destruct Hn. eauto.
  - destruct (_ <=? _)%Z; [destruct (quotas st !! qi)|]; by eexists _, _.
  - by eexists _, _.
Qed.

Lemma Account_is_available_Ok_not_naive p a st b st' :
  Account_is_available p a st = Ok b st' → ¬ quota_naive p a st.
Proof.
  unfold quota_naive, Account_is_available.
  destruct (Account_get_quota p a st) as [[qi q]|]; [|by intros _ []].
  rewrite Quota_is_available_unfold. intros H (He&t&Ht).
  rewrite He, Ht in H. by cbn in H.
Qed.

Lemma recovered_not_naive K st st' p a :
  recovered K st st' → ¬ quota_naive p a st → ¬ quota_naive p a st'.
Proof.
  intros HR. unfold quota_naive.
  pose proof (recovered_get_quota K st st' p a HR) as H.
  destruct (Account_get_quota p a st) as [[i q]|].
  - destruct H as (q'&->&[->|(_&_&->)]); [done|]. cbn. by intros _ [? _].
  - by rewrite H.
Qed.

Lemma available_for_Some p a : available_for (Some p) a = Account_is_available p a.
Proof. by destruct p. Qed.

Lemma foldM_collect_Ok p l acc st L st' :
  foldM (collect (Some p)) l acc st = Ok L st' →
  recovered (λ k, ∃ a, a ∈ l ∧ k = (Account.id a, p)) st st' ∧
  (∀ a, a ∈ l → ¬ quota_naive p a st') ∧
  (∀ a, a ∈ L → a ∈ acc ∨ a ∈ l) ∧
  (NoDup (Account.id <$> l) → L = acc ++ filter (λ a, quota_open p a st') l).
Proof.
  revert acc st. induction l as [|a l IH]; intros acc st; cbn [foldM].
  { intros [= <- <-]. split_and!.
    - apply recovered_refl.
    - by intros a ?%elem_of_nil.
    - by left.
    - intros _. by rewrite filter_nil, app_nil_r. }
  intros (acc1&st1&Hstep&Hrest)%bind_Ok.
  unfold collect in Hstep. rewrite available_for_Some in Hstep.
  apply bind_Ok in Hstep as (b&st1'&Hav&[= <- <-]).
  destruct (IH _ _ Hrest) as (HR&Hnn&Hsub&HL).
  pose proof (Account_is_available_Ok_recovered _ _ _ _ _ Hav) as HR1.
  split_and!.
  - eapply recovered_trans; (eapply recovered_mono; [|eassumption]); cbn.
    + intros k ->. exists a. split; [left|done].
    + intros k (x&Hx&->). exists x. split; [by right|done].
  - intros x [->|Hx]%elem_of_cons; [|by apply Hnn].
    eapply recovered_not_naive; [exact HR|].
    eapply recovered_not_naive; [exact HR1|].
    by eapply Account_is_available_Ok_not_naive.
  - intros x [Hx|Hx]%Hsub; [|right; by right].
    destruct b; [|by left].
    apply elem_of_app in Hx as [Hx| ->%list_elem_of_singleton]; [by left|right; left].
  - rewrite fmap_cons. intros [Hnin Hnd]%NoDup_cons. rewrite (HL Hnd).
    assert (quota_open p a st' ↔ quota_open p a st1') as Hfr.
    { eapply quota_open_frame; [exact HR|]. intros (x&Hx&[= Hid]).
      apply Hnin. rewrite Hid. apply list_elem_of_fmap. by exists x. }
    pose proof (Account_is_available_open _ _ _ _ _ Hav) as Hb.
    rewrite filter_cons. destruct b.
    + rewrite decide_True by (apply Hfr, Hb; done). by rewrite <- app_assoc.
    + rewrite decide_False; [done|]. intros Ho%Hfr%Hb. done.
Qed.

Lemma NoDup_ids_query user_id st :
  NoDup (Account.id <$> accounts st) → NoDup (Account.id <$> query_accounts user_id st).
Proof.
  intros Hnd. eapply sublist_NoDup; [exact Hnd|].
  apply fmap_sublist, sublist_filter.
Qed.

Lemma get_available_accounts_Ok user_id p st L st' :
  get_available_accounts user_id (Some p) st = Ok L st' →
  recovered (λ k, k.2 = p) st st' ∧
  (∀ a, a ∈ query_accounts user_id st → ¬ quota_naive p a st') ∧
  (∀ a, a ∈ L → a ∈ query_accounts user_id st) ∧
  (NoDup (Account.id <$> accounts st) →
   L = filter (λ a, quota_open p a st') (query_accounts user_id st)).
Proof.
  unfold get_available_accounts, bind, get_state.
  intros H. change (foldM (collect (Some p)) (query_accounts user_id st) [] st = Ok L st') in H.
  apply foldM_collect_Ok in H as (HR&Hnn&Hsub&HL). split_and!.
  - eapply recovered_mono; [|exact HR]. by intros k (a&_&->).
  - done.
  - intros a [Ha%elem_of_nil|Ha]%Hsub; done.
  - intros Hnd. apply HL. by apply NoDup_ids_query.
Qed.

Lemma first_least_used_unique P l a a' :
  first_least_used P l a → first_least_used P l a' → a = a'.
Proof.
  intros (i&Hi&HP&Hmin) (i'&Hi'&HP'&Hmin').
  destruct (Hmin i' a' Hi' HP') as [H1 H2]. destruct (Hmin' i a Hi HP) as [H3 H4].
  destruct (decide (i = i')) as [->|Hne]; [congruence|].
  destruct (decide (i < i')); [specialize (H4 ltac:(done))|specialize (H2 ltac:(lia))]; lia.
Qed.

Lemma best_gemini_Ok user_id st r st' :
  NoDup (Account.id <$> accounts st) →
  best_gemini user_id st = Ok r st' →
  recovered (λ k, k.2 = gemini) st st' ∧
  let pool := query_accounts user_id st in
  match r with
  | Some (a, p) => p = gemini ∧ first_least_used (λ b, quota_open gemini b st') pool a
  | None => ∀ b, b ∈ pool → ¬ quota_open gemini b st'
  end.
Proof.
  intros Hnd. unfold best_gemini.
  intros (L&st1&HL&(best&st2&Hbest&[= <- <-])%bind_Ok)%bind_Ok.
  apply get_available_accounts_Ok in HL as (HR&_&_&HLeq).
  apply least_used_Ok in Hbest as [-> ->]. rewrite (HLeq Hnd).
  split; [done|]. cbn zeta.
  destruct (first_min usage _) as [a|] eqn:Hm.
  - split; [done|]. by apply first_min_filter in Hm.
  - apply first_min_None in Hm. intros b Hb. exact (filter_empty_1 _ _ b Hm Hb).
Qed.

Lemma get_best_account_Ok_rule user_id prefer_anthropic st r st' :
  NoDup (Account.id <$> accounts st) →
  get_best_account user_id prefer_anthropic st = Ok r st' →
  let pool := query_accounts user_id st in
  let rule p a := first_least_used (λ b, quota_open p b st') pool a in
  match r with
  | Some (a, anthropic) =>
      prefer_anthropic = true ∧ rule anthropic a ∧ ∀ a', rule anthropic a' → a' = a
  | Some (a, gemini) =>
      (prefer_anthropic = true → ∀ b, b ∈ pool → ¬ quota_open anthropic b st') ∧
      rule gemini a ∧ ∀ a', rule gemini a' → a' = a
  | None =>
      ∀ b, b ∈ pool →
           (prefer_anthropic = true → ¬ quota_open anthropic b st') ∧
           ¬ quota_open gemini b st'
  end.
Proof.
  intros Hnd H pool rule. destruct prefer_anthropic; cbn in H.
  - apply bind_Ok in H as (L&st1&HL&(best&st2&Hbest&H)%bind_Ok).
    apply get_available_accounts_Ok in HL as (HR&_&_&HLeq).
    apply least_used_Ok in Hbest as [-> ->]. rewrite (HLeq Hnd) in H.
    destruct (first_min usage _) as [a|] eqn:Hm.
    + injection H as <- <-. apply first_min_filter in Hm.
      split_and!; [done|done|]. intros a' Ha'. by eapply first_least_used_unique.
    + apply first_min_None in Hm.
      assert (accounts st1 = accounts st) as Hacc by apply HR.
      assert (NoDup (Account.id <$> accounts st1)) as Hnd1 by (by rewrite Hacc).
      apply (best_gemini_Ok _ _ _ _ Hnd1) in H as (HR2&Hg).
      assert (query_accounts user_id st1 = pool) as Hpool.
      { unfold pool, query_accounts. by rewrite Hacc. }
      rewrite Hpool in Hg.
      assert (∀ b, b ∈ pool → ¬ quota_open anthropic b st') as Hna.
      { intros b Hb Ho. apply (filter_empty_1 _ _ b Hm); [done|].
        apply (quota_open_frame _ _ _ anthropic b HR2); [by cbn|done]. }
      destruct r as [[a p]|].
      * destruct Hg as [-> Hg]. split_and!; [done|done|].
        intros a' Ha'. by eapply first_least_used_unique.
      * intros b Hb. split; [intros _; by apply Hna|by apply Hg].
  - apply (best_gemini_Ok _ _ _ _ Hnd) in H as (HR2&Hg). fold pool in Hg.
    destruct r as [[a p]|].
    + destruct Hg as [-> Hg]. split_and!; [done|done|].
      intros a' Ha'. by eapply first_least_used_unique.
    + intros b Hb. split; [done|by apply Hg].
Qed.

(** ** When the selection returns *)

Lemma foldM_collect_total p l acc st :
  (∀ a, a ∈ l → ¬ quota_naive p a st) →
  ∃ L st', foldM (collect (Some p)) l acc st = Ok L st'.
Proof.
  revert acc st. induction l as [|a l IH]; intros acc st Hnn; cbn [foldM].
  { by eexists _, _. }
  destruct (Account_is_available_total p a st) as (b&st1&Hav); [apply Hnn; left|].
  destruct (IH (if b then acc ++ [a] else acc) st1) as (L&st'&HL).
  { intros x Hx. eapply recovered_not_naive.
    - by eapply Account_is_available_Ok_recovered.
    - apply Hnn. by right. }
  exists L, st'. unfold collect at 1. rewrite available_for_Some.
  unfold bind at 1. rewrite (bind_eq _ _ _ _ _ Hav). exact HL.
Qed.

Lemma get_available_accounts_total user_id p st :
  (∀ a, a ∈ query_accounts user_id st → ¬ quota_naive p a st) →
  ∃ L st', get_available_accounts user_id (Some p) st = Ok L st'.
Proof. intros Hnn. by apply (foldM_collect_total p _ [] st). Qed.

Lemma least_used_total l st :
  (∀ a, a ∈ l → is_Some (Account.veces_usada a)) →
  ∃ r, least_used l st = Ok r st.
Proof.
  intros Hv. unfold least_used. destruct l as [|a [|b l]]; [by eexists..|].
  unfold sort_by_veces_usada.
  rewrite (proj2 (List.forallb_forall _ _)); [by eexists|].
  intros x Hx%list_elem_of_In. apply bool_decide_eq_true. by apply Hv.
Qed.

Lemma best_gemini_total user_id st :
  (∀ a, a ∈ query_accounts user_id st → ¬ quota_naive gemini a st) →
  (∀ a, a ∈ query_accounts user_id st → is_Some (Account.veces_usada a)) →
  ∃ r st', best_gemini user_id st = Ok r st'.
Proof.
  intros Hnn Hv. unfold best_gemini.
  destruct (get_available_accounts_total user_id gemini st Hnn) as (L&st1&HL).
  rewrite (bind_eq _ _ _ _ _ HL).
  destruct (least_used_total L st1) as (r&Hr).
  { intros a Ha. apply Hv.
    by apply (get_available_accounts_Ok _ _ _ _ _ HL). }
  rewrite (bind_eq _ _ _ _ _ Hr). by eexists _, _.
Qed.

Lemma get_best_account_total user_id prefer_anthropic st :
  (∀ p a, a ∈ query_accounts user_id st → ¬ quota_naive p a st) →
  (∀ a, a ∈ query_accounts user_id st → is_Some (Account.veces_usada a)) →
  ∃ r st', get_best_account user_id prefer_anthropic st = Ok r st'.
Proof.
  intros Hnn Hv. destruct prefer_anthropic; cbn;
    [|apply best_gemini_total; [apply Hnn|done]].
  destruct (get_available_accounts_total user_id anthropic st (Hnn anthropic))
    as (L&st1&HL).
  rewrite (bind_eq _ _ _ _ _ HL).
  pose proof (get_available_accounts_Ok _ _ _ _ _ HL) as (HR&_&Hsub&_).
  destruct (least_used_total L st1) as (r&Hr).
  { intros a Ha. by apply Hv, Hsub. }
  rewrite (bind_eq _ _ _ _ _ Hr). destruct r as [a|]; [by eexists _, _|].
  assert (query_accounts user_id st1 = query_accounts user_id st) as Hq.
  { unfold query_accounts. by destruct HR as (->&_). }
  apply best_gemini_total; rewrite Hq; [|done].
  intros a Ha. eapply recovered_not_naive; [exact HR|by apply Hnn].
Qed.

(** ** The view of an account *)

Lemma Account_quota_dict_total p a st :
  ¬ quota_naive p a st → ∃ d st', Account_quota_dict p a st = Ok d st'.
Proof.
  intros Hnn. unfold Account_quota_dict.
  destruct (Account_is_available_total p a st Hnn) as (b&st1&Hav).
  unfold Account_is_available in Hav.
  destruct (Account_get_quota p a st) as [[qi q]|]; [|by eexists _, _].
  unfold Quota_to_dict. rewrite (bind_eq _ _ _ _ _ Hav).
  destruct (quotas st1 !! qi); by eexists _, _.
Qed.

Lemma quiet_not_naive {A} (m : M A) p a st :
  quiet m → ¬ quota_naive p a st → ¬ quota_naive p a (state_of (m st)).
Proof. intros Hm. eapply recovered_not_naive, Hm. Qed.

Lemma Account_to_dict_total a st :
  ¬ quota_naive anthropic a st → ¬ quota_naive gemini a st →
  ∃ d st', Account_to_dict a st = Ok d st'.
Proof.
  intros Ha Hg.
  destruct (Account_is_available_total anthropic a st Ha) as (x&st1&H1).
  pose proof (quiet_not_naive (Account_is_available anthropic a) gemini a st
                (quiet_is_available _ _) Hg) as Hg1.
  pose proof (quiet_not_naive (Account_is_available anthropic a) anthropic a st
                (quiet_is_available _ _) Ha) as Ha1.
  rewrite H1 in Hg1, Ha1. cbn in Hg1, Ha1.
  destruct (Account_is_available_total gemini a st1 Hg1) as (y&st2&H2).
  pose proof (quiet_not_naive (Account_is_available gemini a) gemini a st1
                (quiet_is_available _ _) Hg1) as Hg2.
  pose proof (quiet_not_naive (Account_is_available gemini a) anthropic a st1
                (quiet_is_available _ _) Ha1) as Ha2.
  rewrite H2 in Hg2, Ha2. cbn in Hg2, Ha2.
  destruct (Account_quota_dict_total anthropic a st2 Ha2) as (qa&st3&H3).
  pose proof (quiet_not_naive (Account_quota_dict anthropic a) gemini a st2
                (quiet_quota_dict _ _) Hg2) as Hg3.
  rewrite H3 in Hg3. cbn in Hg3.
  destruct (Account_quota_dict_total gemini a st3 Hg3) as (qg&st4&H4).
  assert (Account_get_classification a st = Ok (classify x y) st2) as Hc.
  { apply Account_get_classification_Ok. by exists x, st1, y. }
  eexists _, st4. unfold Account_to_dict.
  rewrite (bind_eq _ _ _ _ _ Hc), (bind_eq _ _ _ _ _ H3), (bind_eq _ _ _ _ _ H4).
  done.
Qed.

(** ** The next reset of anthropic *)

Lemma earliest_None l : earliest l = None ↔ l = [].
Proof.
  destruct l as [|d l]; cbn; [done|].
  destruct (earliest l) as [m|]; [destruct (stamp d <=? stamp m)%Z|]; done.
Qed.

Lemma earliest_Some l d :
  earliest l = Some d → d ∈ l ∧ ∀ d', d' ∈ l → (stamp d <= stamp d')%Z.
Proof.
  revert d. induction l as [|x l IH]; intros d; cbn; [done|].
  destruct (earliest l) as [m|] eqn:Hm.
  - destruct (IH m eq_refl) as [Hin Hmin].
    destruct (stamp x <=? stamp m)%Z eqn:Hle; intros [= <-].
    + apply Z.leb_le in Hle. split; [left|].
      intros d' [->|Hd']%elem_of_cons; [lia|]. specialize (Hmin d' Hd'). lia.
    + apply Z.leb_gt in Hle. split; [by right|].
      intros d' [->|Hd']%elem_of_cons; [lia|]. by apply Hmin.
  - intros [= <-]. apply earliest_None in Hm as ->. split; [left|].
    intros d' [->|Hd']%elem_of_cons; [lia|]. by apply elem_of_nil in Hd'.
Qed.

Lemma get_next_anthropic_reset_spec user_id st :
  match get_next_anthropic_reset user_id st with
  | Some d =>
      (∃ q, exhausted_anthropic user_id st q ∧ Quota.proximo_reset q = Some d) ∧
      (∀ q d', exhausted_anthropic user_id st q → Quota.proximo_reset q = Some d' →
               (stamp d <= stamp d')%Z)
  | None => ∀ q, exhausted_anthropic user_id st q → Quota.proximo_reset q = None
  end.
Proof.
  unfold get_next_anthropic_reset, exhausted_anthropic.
  destruct (earliest _) as [d|] eqn:He.
  - apply earliest_Some in He as [Hin Hmin]. split.
    + apply list_elem_of_omap in Hin as (q&[Hq Hin]%list_elem_of_filter&Hd).
      exists q. destruct Hq as (?&?&?). by split_and!.
    + intros q d' (Hin'&Hq) Hd'. apply Hmin, list_elem_of_omap.
      exists q. split; [|done]. by apply list_elem_of_filter.
  - apply earliest_None in He. intros q (Hin&Hq).
    destruct (Quota.proximo_reset q) as [d|] eqn:Hd; [|done].
    assert (d ∈ omap Quota.proximo_reset
                  (filter (λ q, joined user_id (Quota.account_id q) st
                                ∧ Quota.provider q = anthropic
                                ∧ Quota.estado q = agotada) (quotas st))) as Hd'.
    { apply list_elem_of_omap. exists q. split; [|done]. by apply list_elem_of_filter. }
    rewrite He in Hd'. by apply elem_of_nil in Hd'.
Qed.

(** ** Rotation *)

Lemma first_min_elem {A} (key : A → Z) l a : first_min key l = Some a → a ∈ l.
Proof.
  revert a. induction l as [|x l IH]; intros a; cbn; [done|].
  destruct (first_min key l) as [y|].
  - destruct (key x <=? key y)%Z; intros [= <-]; [left|right; by apply IH].
  - intros [= <-]. left.
Qed.

(** The account [get_best_account] offers on gemini was checked for both
    providers without raising. *)
Lemma get_best_account_gemini_checked user_id st a st' :
  get_best_account user_id true st = Ok (Some (a, gemini)) st' →
  recovered (λ _, True) st st' ∧
  ¬ quota_naive anthropic a st' ∧ ¬ quota_naive gemini a st'.
Proof.
  intros H. split.
  { pose proof (quiet_get_best_account user_id true st) as HR. by rewrite H in HR. }
  cbn in H. apply bind_Ok in H as (L&st1&HL&(best&st2&Hbest&H)%bind_Ok).
  apply get_available_accounts_Ok in HL as (HR&Hnn&_&_).
  apply least_used_Ok in Hbest as [-> ->].
  destruct (first_min usage L); [done|].
  unfold best_gemini in H.
  apply bind_Ok in H as (L'&st3&HL'&(best&st4&Hbest&H)%bind_Ok).
  apply get_available_accounts_Ok in HL' as (HR'&Hnn'&Hsub'&_).
  apply least_used_Ok in Hbest as [-> ->].
  destruct (first_min usage L') as [a'|] eqn:Hm; [|done].
  injection H as -> <-.
  apply first_min_elem, Hsub' in Hm. split; [|by apply Hnn'].
  eapply recovered_not_naive; [exact HR'|]. apply Hnn.
  unfold query_accounts in *. by destruct HR as (<-&_).
Qed.

(** C4.  When [rotate_to_next] has ended the session and the selection
    offers an account on gemini, the call returns a result with
    [needs_user_choice] set, carrying under [next_anthropic_reset] the
    earliest reset time of the exhausted anthropic quotas of the user (or
    nothing when none records one), with no new session and the session
    table as [end_session] left it, whatever [auto_start] says.  In every
    result of [rotate_to_next], a new session is on anthropic, comes with
    [needs_user_choice] unset, and a result for gemini never has one. *)
Theorem C4_rotate_never_starts_gemini user_id m r auto_start st :
  (∀ ended st1 a st2,
     end_session user_id m r st = Ok ended st1 →
     get_best_account user_id true st1 = Ok (Some (a, gemini)) st2 →
     ∃ res st3,
       rotate_to_next user_id m r auto_start st = Ok res st3 ∧
       RotationResult.needs_user_choice res = true ∧
       RotationResult.next_provider res = Some gemini ∧
       RotationResult.rotated res = false ∧
       RotationResult.new_session res = None ∧
       RotationResult.next_anthropic_reset res
         = Some (get_next_anthropic_reset user_id st3) ∧
       sessions st3 = sessions st1 ∧ accounts st3 = accounts st1) ∧
  (∀ res st',
     rotate_to_next user_id m r auto_start st = Ok res st' →
     (RotationResult.next_provider res = Some gemini →
      RotationResult.needs_user_choice res = true ∧
      RotationResult.new_session res = None) ∧
     (∀ s, RotationResult.new_session res = Some s →
           SessionDict.provider s = anthropic ∧
           RotationResult.next_provider res = Some anthropic ∧
           RotationResult.needs_user_choice res = false ∧
           auto_start = true)) ∧
  (∀ st3,
     match get_next_anthropic_reset user_id st3 with
     | Some d =>
         (∃ q, exhausted_anthropic user_id st3 q ∧ Quota.proximo_reset q = Some d) ∧
         (∀ q d', exhausted_anthropic user_id st3 q →
                  Quota.proximo_reset q = Some d' → (stamp d <= stamp d')%Z)
     | None => ∀ q, exhausted_anthropic user_id st3 q → Quota.proximo_reset q = None
     end).
Proof.
  split_and!.
  - intros ended st1 a st2 Hend Hbest.
    destruct (get_best_account_gemini_checked _ _ _ _ Hbest) as (HR&Hna&Hng).
    destruct (Account_to_dict_total a st2 Hna Hng) as (d&st3&Hd).
    pose proof (quiet_to_dict a st2) as HR3. rewrite Hd in HR3. cbn in HR3.
    eexists _, st3. unfold rotate_to_next.
    rewrite (bind_eq _ _ _ _ _ Hend), (bind_eq _ _ _ _ _ Hbest).
    rewrite (bind_eq _ _ _ _ _ Hd). cbn.
    split_and!; try done.
    + destruct HR as (_&Hs&_), HR3 as (_&Hs3&_). congruence.
    + destruct HR as (Ha&_), HR3 as (Ha3&_). congruence.
  - intros res st'. unfold rotate_to_next.
    intros (ended&st1&_&(best&st2&_&H)%bind_Ok)%bind_Ok.
    destruct best as [[a []]|].
    + apply bind_Ok in H as (d&st3&_&H). destruct auto_start.
      * apply bind_Ok in H as (s&st4&Hs&[= <- <-]). cbn. split; [done|].
        intros s' [= <-]. split_and!; try done.
        rewrite start_session_unfold in Hs.
        destruct (get_active_session user_id st3); [done|].
        destruct (list_find _ (accounts st3)) as [[ai a']|]; [|done].
        destruct (Account_is_available anthropic a' st3) as [[] ?|]; try done.
        by injection Hs as <- <-.
      * injection H as <- <-. cbn. done.
    + apply bind_Ok in H as (d&st3&_&H). injection H as <- <-. cbn. done.
    + injection H as <- <-. cbn. done.
  - apply get_next_anthropic_reset_spec.
Qed.

(** ** When the summary returns *)

Lemma Account_is_available_total_step p a st :
  ¬ quota_naive p a st →
  ∃ b st', Account_is_available p a st = Ok b st' ∧ recovered (λ _, True) st st'.
Proof.
  intros Hnn. destruct (Account_is_available_total p a st Hnn) as (b&st'&H).
  exists b, st'. split; [done|].
  pose proof (quiet_is_available p a st) as HR. by rewrite H in HR.
Qed.

Lemma summarize_account_total t a st :
  ¬ quota_naive anthropic a st → ¬ quota_naive gemini a st →
  ∃ t' st', summarize_account t a st = Ok t' st' ∧ recovered (λ _, True) st st'.
Proof.
  intros Ha Hg.
  destruct (Account_is_available_total_step anthropic a st Ha) as (x&st1&H1&R1).
  pose proof (recovered_not_naive _ _ _ gemini a R1 Hg) as Hg1.
  destruct (Account_is_available_total_step gemini a st1 Hg1) as (y&st2&H2&R2).
  pose proof (recovered_not_naive _ _ _ anthropic a R1 Ha) as Ha1.
  pose proof (recovered_not_naive _ _ _ anthropic a R2 Ha1) as Ha2.
  pose proof (recovered_not_naive _ _ _ gemini a R2 Hg1) as Hg2.
  destruct (Account_is_available_total_step anthropic a st2 Ha2) as (x'&st3&H3&R3).
  pose proof (recovered_not_naive _ _ _ gemini a R3 Hg2) as Hg3.
  destruct (Account_is_available_total_step gemini a st3 Hg3) as (y'&st4&H4&R4).
  assert (Account_get_classification a st = Ok (classify x y) st2) as Hc.
  { apply Account_get_classification_Ok. by exists x, st1, y. }
  eexists _, st4. unfold summarize_account.
  rewrite (bind_eq _ _ _ _ _ Hc).
  unfold Account_is_anthropic_available, Account_is_gemini_available.
  rewrite (bind_eq _ _ _ _ _ H3), (bind_eq _ _ _ _ _ H4). split; [done|].
  do 3 (eapply recovered_trans; [eassumption|]). done.
Qed.

Lemma foldM_summarize_total l t st :
  (∀ p a, a ∈ l → ¬ quota_naive p a st) →
  ∃ t' st', foldM summarize_account l t st = Ok t' st'.
Proof.
  revert t st. induction l as [|a l IH]; intros t st Hnn; cbn [foldM].
  { by eexists _, _. }
  destruct (summarize_account_total t a st) as (t1&st1&H1&R1);
    [apply Hnn; left..|].
  destruct (IH t1 st1) as (t'&st'&H').
  { intros p x Hx. eapply recovered_not_naive; [exact R1|]. apply Hnn. by right. }
  exists t', st'. by rewrite (bind_eq _ _ _ _ _ H1).
Qed.

Lemma get_summary_total user_id st :
  (∀ p a, a ∈ query_accounts user_id st → ¬ quota_naive p a st) →
  ∃ r st', get_summary user_id st = Ok r st'.
Proof.
  intros Hnn. unfold get_summary, bind at 1, get_state.
  destruct (foldM_summarize_total (query_accounts user_id st) tally0 st Hnn)
    as (t&st'&Ht).
  rewrite (bind_eq _ _ _ _ _ Ht). by eexists _, _.
Qed.

(** * The claims on the selection, the summary and the closing of sessions *)

(** C3 as the code has it.  On a pool whose account ids are unique,
    [get_best_account] returns when no quota of the pool is exhausted with
    a reset stored without time zone and every [veces_usada] is set.  When
    it returns with anthropic preferred, the account is the one with the
    least [veces_usada] among the accounts of the user whose anthropic
    quota is available, the first of them in the listing of the accounts
    on ties; when no anthropic quota is available, the same among the
    accounts whose gemini quota is available; nothing when neither
    provider is available for any account.  Available is read on the rows
    as the call leaves them.  The rule has one answer only, so equal
    states give the same account.  With gemini preferred only gemini is
    considered. *)
Theorem C3_best_account_least_used_first_listed user_id prefer_anthropic st :
  NoDup (Account.id <$> accounts st) →
  let pool := query_accounts user_id st in
  ((∀ p a, a ∈ pool → ¬ quota_naive p a st) →
   (∀ a, a ∈ pool → is_Some (Account.veces_usada a)) →
   ∃ r st', get_best_account user_id prefer_anthropic st = Ok r st') ∧
  (∀ r st',
     get_best_account user_id prefer_anthropic st = Ok r st' →
     let rule p a := first_least_used (λ b, quota_open p b st') pool a in
     match r with
     | Some (a, anthropic) =>
         prefer_anthropic = true ∧ rule anthropic a ∧ ∀ a', rule anthropic a' → a' = a
     | Some (a, gemini) =>
         (prefer_anthropic = true → ∀ b, b ∈ pool → ¬ quota_open anthropic b st') ∧
         rule gemini a ∧ ∀ a', rule gemini a' → a' = a
     | None =>
         ∀ b, b ∈ pool →
              (prefer_anthropic = true → ¬ quota_open anthropic b st') ∧
              ¬ quota_open gemini b st'
     end).
Proof.
  intros Hnd pool. split.
  - apply get_best_account_total.
  - intros r st'. by apply get_best_account_Ok_rule.
Qed.

Lemma pool_two_best :
  get_best_account SINGLE_USER_ID true pool_two
  = Ok (Some (account_beta, anthropic)) pool_two.
Proof. vm_compute. reflexivity. Defined.

Lemma pool_two_keyed : NoDup (Account.id <$> accounts pool_two).
Proof. apply (bool_decide_unpack _). vm_compute. exact I. Defined.

(** On [pool_two] the first listed of the two unused accounts is chosen. *)
Lemma C3_witness :
  NoDup (Account.id <$> accounts pool_two) ∧
  first_least_used (λ b, quota_open anthropic b pool_two)
    (query_accounts SINGLE_USER_ID pool_two) account_beta.
Proof.
  split; [exact pool_two_keyed|].
  exact (proj1 (proj2 (proj2 (C3_best_account_least_used_first_listed
           SINGLE_USER_ID true pool_two pool_two_keyed) _ _ pool_two_best))).
Defined.

(** The account chosen on [pool_two] is not the one created first among
    the two tied candidates. *)
Lemma C3_counterexample :
  ¬ (∀ r st',
       get_best_account SINGLE_USER_ID true pool_two = Ok r st' →
       match r with
       | Some (a, p) =>
           spec_earliest_created_on_ties (λ b, quota_open p b st')
             (query_accounts SINGLE_USER_ID pool_two) a
       | None => True
       end).
Proof.
  intros H. specialize (H _ _ pool_two_best). cbn beta iota in H.
  assert (created account_beta <= created account_alpha)%Z as Hle.
  { apply H; [|exact I|reflexivity].
    apply list_elem_of_filter. split; [reflexivity|]. right. left. }
  vm_compute in Hle. by apply Hle.
Qed.

(** C9 as the code has it.  [get_summary] returns when no quota of the
    pool is exhausted with a reset stored without time zone.  When it
    returns, the hours of each provider are the total duration of the
    closed sessions of the pool for that provider; the session count of
    each provider is the number of those sessions whose recorded duration
    is neither missing nor zero; and the most used provider is the one
    with strictly more counted sessions, [Empate] on equal counts that are
    not zero, nothing when both counts are zero. *)
Theorem C9_summary_over_counted_sessions user_id st :
  ((∀ p a, a ∈ query_accounts user_id st → ¬ quota_naive p a st) →
   ∃ r st', get_summary user_id st = Ok r st') ∧
  (∀ r st',
     get_summary user_id st = Ok r st' →
     let closed := closed_sessions user_id st in
     let sa := length (counted (of_provider anthropic closed)) in
     let sg := length (counted (of_provider gemini closed)) in
     Summary.horas_anthropic r = total_duration (of_provider anthropic closed) ∧
     Summary.horas_gemini r = total_duration (of_provider gemini closed) ∧
     Summary.sesiones_anthropic r = sa ∧
     Summary.sesiones_gemini r = sg ∧
     (sg < sa → Summary.modelo_mas_usado r = Some Anthropic) ∧
     (sa < sg → Summary.modelo_mas_usado r = Some Gemini) ∧
     (sa = sg → 0 < sa → Summary.modelo_mas_usado r = Some Empate) ∧
     (sa = 0 → sg = 0 → Summary.modelo_mas_usado r = None)).
Proof.
  split.
  - apply get_summary_total.
  - intros r st'. apply get_summary_Ok_spec.
Qed.

Lemma pool_zero_duration_summary :
  get_summary SINGLE_USER_ID pool_zero_duration
  = Ok summary_zero_duration pool_zero_duration.
Proof. vm_compute. reflexivity. Defined.

(** On [pool_zero_duration] the summary counts no session and names no
    most used provider. *)
Lemma C9_witness :
  Summary.sesiones_anthropic summary_zero_duration
  = length (counted (of_provider anthropic
                       (closed_sessions SINGLE_USER_ID pool_zero_duration))).
Proof.
  exact (proj1 (proj2 (proj2 (proj2 (C9_summary_over_counted_sessions
           SINGLE_USER_ID pool_zero_duration) _ _ pool_zero_duration_summary)))).
Defined.

(** A session started and ended at the same reading of the clock is
    closed, yet the summary does not count it. *)
Lemma C9_counterexample :
  ¬ (∀ r st',
       get_summary SINGLE_USER_ID pool_zero_duration = Ok r st' →
       Summary.sesiones_anthropic r
       = length (of_provider anthropic
                   (closed_sessions SINGLE_USER_ID pool_zero_duration))).
Proof.
  intros H. specialize (H _ _ pool_zero_duration_summary).
  vm_compute in H. discriminate H.
Qed.

(** C5.  Marking a quota exhausted with a reset time in the past that has
    no time zone, and asking at once whether it is available, raises
    [TypeError] instead of answering yes.  (Same defect as C2.) *)
Theorem C5_past_naive_reset_raises :
  (500 < clock pool_one_quota (reads pool_one_quota))%Z ∧
  ∃ st1 q,
    Quota_mark_exhausted 0 (Naive 500) pool_one_quota = Ok () st1 ∧
    quotas st1 !! 0 = Some q ∧
    Quota_is_available 0 q st1 = Raise TypeError (tick st1).
Proof.
  split; [done|]. eexists _, _. split; [reflexivity|]. split; reflexivity.
Qed.

(** C6.  With an open session whose start is stored without time zone,
    [end_session] raises [TypeError] at [fin - inicio]: the session stays
    open and nothing is rolled into the account. *)
Theorem C6_naive_start_raises :
  get_active_session SINGLE_USER_ID pool_naive_start = Some (0, session_naive) ∧
  end_session SINGLE_USER_ID manual None pool_naive_start
  = Raise TypeError (tick pool_naive_start) ∧
  open_sessions (tick pool_naive_start) = [session_naive] ∧
  accounts (tick pool_naive_start) = accounts pool_naive_start.
Proof. split_and!; reflexivity. Qed.




(** * Witnesses *)

Lemma pool_two_idle : open_sessions pool_two = [] ∧ active_accounts pool_two = [].
Proof. split; reflexivity. Defined.

(** Five calls on [pool_two], two of which raise. *)
Lemma C1_witness :
  length (open_sessions (run_calls SINGLE_USER_ID calls_mixed pool_two)) ≤ 1 ∧
  length (active_accounts (run_calls SINGLE_USER_ID calls_mixed pool_two)) ≤ 1.
Proof.
  exact (C1_single_open_session SINGLE_USER_ID calls_mixed pool_two
           pool_two_keyed (proj1 pool_two_idle) (proj2 pool_two_idle)).
Defined.

Lemma pool_gemini_only_end :
  end_session SINGLE_USER_ID cuota_agotada None pool_gemini_only
  = Ok None pool_gemini_only.
Proof. vm_compute. reflexivity. Defined.

Lemma pool_gemini_only_best :
  get_best_account SINGLE_USER_ID true pool_gemini_only
  = Ok (Some (account_alpha, gemini)) (tick pool_gemini_only).
Proof. vm_compute. reflexivity. Defined.

(** On [pool_gemini_only] the rotation asks the user and starts nothing. *)
Lemma C4_witness :
  ∃ res st3,
    rotate_to_next SINGLE_USER_ID cuota_agotada None true pool_gemini_only = Ok res st3 ∧
    RotationResult.needs_user_choice res = true ∧
    RotationResult.next_provider res = Some gemini ∧
    RotationResult.rotated res = false ∧
    RotationResult.new_session res = None ∧
    RotationResult.next_anthropic_reset res
      = Some (get_next_anthropic_reset SINGLE_USER_ID st3) ∧
    sessions st3 = sessions pool_gemini_only ∧
    accounts st3 = accounts pool_gemini_only.
Proof.
  exact (proj1 (C4_rotate_never_starts_gemini SINGLE_USER_ID cuota_agotada None true
                  pool_gemini_only) _ _ _ _ pool_gemini_only_end pool_gemini_only_best).
Defined.

(** On [pool_gemini_only] the account has no gemini row, and is partially
    limited. *)
Lemma C8_witness :
  Account_is_available gemini account_alpha pool_gemini_only
  = Ok true pool_gemini_only.
Proof.
  apply (proj1 (C8_fail_open_and_classification account_alpha pool_gemini_only)).
  reflexivity.
Defined.

(** * Further properties of the engine *)

(** ** A quota that has recovered stays recovered *)

Lemma quota_open_is_available p a st :
  quota_open p a st → Account_is_available p a st = Ok true st.
Proof.
  unfold quota_open, Account_is_available.
  destruct (Account_get_quota p a st) as [[qi q]|]; [|done].
  intros He. by apply Quota_is_available_disponible.
Qed.

(** Once the availability check of an account and provider has answered
    yes, it answers yes again, without reading the clock or writing a row,
    after any calls that only read the clock and let quotas recover (other
    availability checks, listings, classifications, [to_dict], the
    selection). *)
Theorem available_answer_is_stable {B} p a st st1 (m : M B) :
  Account_is_available p a st = Ok true st1 →
  quiet m →
  Account_is_available p a st1 = Ok true st1 ∧
  Account_is_available p a (state_of (m st1)) = Ok true (state_of (m st1)).
Proof.
  intros Hav Hm.
  assert (quota_open p a st1) as Ho by (by apply (Account_is_available_open p a st true st1)).
  split; [by apply quota_open_is_available|].
  apply quota_open_is_available. eapply quota_open_mono; [apply Hm|done].
Qed.

(** ** Listing the available accounts, for a provider or for either *)

Lemma available_for_Ok p a st ok st1 :
  available_for p a st = Ok ok st1 →
  recovered (λ k, k.1 = Account.id a) st st1 ∧ (ok = true ↔ relevant_open p a st1).
Proof.
  destruct p as [p|].
  - rewrite available_for_Some. intros H. split.
    + eapply recovered_mono; [|by eapply Account_is_available_Ok_recovered].
      by intros k ->.
    + by eapply Account_is_available_open.
  - cbn. intros (x&st0&Hx&H)%bind_Ok.
    pose proof (Account_is_available_Ok_recovered _ _ _ _ _ Hx) as R1.
    pose proof (Account_is_available_open _ _ _ _ _ Hx) as O1.
    destruct x.
    + injection H as <- <-. split.
      * eapply recovered_mono; [|exact R1]. by intros k ->.
      * split; [intros _; left; by apply O1|done].
    + pose proof (Account_is_available_Ok_recovered _ _ _ _ _ H) as R2.
      pose proof (Account_is_available_open _ _ _ _ _ H) as O2.
      split.
      * eapply recovered_trans; (eapply recovered_mono; [|eassumption]); by intros k ->.
      * rewrite O2. split; [by right|]. intros [Ha|Hg]; [|done].
        exfalso. apply (quota_open_frame _ _ _ anthropic a R2) in Ha; [|by intros [=]].
        by apply O1 in Ha.
Qed.

Lemma relevant_open_frame K st st' p a :
  recovered K st st' → (∀ q, ¬ K (Account.id a, q)) →
  relevant_open p a st' ↔ relevant_open p a st.
Proof.
  intros HR HK. destruct p as [p|]; cbn.
  - by eapply quota_open_frame.
  - by rewrite !(quota_open_frame K st st').
Qed.

Lemma foldM_collect_any_Ok p l acc st L st' :
  foldM (collect p) l acc st = Ok L st' →
  recovered (λ k, ∃ a, a ∈ l ∧ k.1 = Account.id a) st st' ∧
  (NoDup (Account.id <$> l) → L = acc ++ filter (λ a, relevant_open p a st') l).
Proof.
  revert acc st. induction l as [|a l IH]; intros acc st; cbn [foldM].
  { intros [= <- <-]. split; [apply recovered_refl|].
    intros _. by rewrite filter_nil, app_nil_r. }
  intros (acc1&st1&Hstep&Hrest)%bind_Ok.
  unfold collect in Hstep. apply bind_Ok in Hstep as (ok&st1'&Hav&[= <- <-]).
  destruct (IH _ _ Hrest) as (HR&HL).
  apply available_for_Ok in Hav as (HR1&Hok).
  split.
  - eapply recovered_trans; (eapply recovered_mono; [|eassumption]); cbn.
    + intros k Hk. exists a. split; [left|done].
    + intros k (x&Hx&Hk). exists x. split; [by right|done].
  - rewrite fmap_cons. intros [Hnin Hnd]%NoDup_cons. rewrite (HL Hnd).
    assert (relevant_open p a st' ↔ relevant_open p a st1') as Hfr.
    { eapply relevant_open_frame; [exact HR|]. intros q (x&Hx&Hid). cbn in Hid.
      apply Hnin. rewrite Hid. apply list_elem_of_fmap. by exists x. }
    rewrite filter_cons. destruct ok.
    + rewrite decide_True by (apply Hfr, Hok; done). by rewrite <- app_assoc.
    + rewrite decide_False; [done|]. intros Ho%Hfr%Hok. done.
Qed.

(** [get_available_accounts] returns, in the order of the listing, exactly
    the accounts of the user whose quota is usable on the rows as the call
    leaves them: the quota of the provider asked for, or either quota when
    no provider is given.  It writes no account and no session. *)
Theorem get_available_accounts_lists_open user_id p st L st' :
  NoDup (Account.id <$> accounts st) →
  get_available_accounts user_id p st = Ok L st' →
  L = filter (λ a, relevant_open p a st') (query_accounts user_id st) ∧
  accounts st' = accounts st ∧ sessions st' = sessions st.
Proof.
  intros Hnd H. unfold get_available_accounts, bind, get_state in H.
  apply foldM_collect_any_Ok in H as ((Ha&Hs&_)&HL). split_and!; [|done..].
  apply HL. by apply NoDup_ids_query.
Qed.

(** ** The counters of the summary *)

Lemma foldl_count_session_frame l t :
  let t' := foldl count_session t l in
  t_disponibles t' = t_disponibles t ∧ t_limite_parcial t' = t_limite_parcial t ∧
  t_limite_total t' = t_limite_total t ∧
  t_limite_anthropic t' = t_limite_anthropic t ∧
  t_limite_gemini t' = t_limite_gemini t.
Proof.
  revert t. induction l as [|s l IH]; intros t; cbn zeta; [done|].
  cbn [foldl]. destruct (IH (count_session t s)) as (->&->&->&->&->).
  unfold count_session.
  by destruct (truthy_duracion _), (Session.provider s).
Qed.

(** What one turn of the loop adds to the counters, read on the rows as
    the turn leaves them. *)
Lemma summarize_account_counters t a st t' st' :
  summarize_account t a st = Ok t' st' →
  recovered (λ k, k.1 = Account.id a) st st' ∧
  t_disponibles t' + t_limite_parcial t' + t_limite_total t'
    = S (t_disponibles t + t_limite_parcial t + t_limite_total t) ∧
  t_disponibles t' ≤ S (t_disponibles t) ∧ t_limite_total t ≤ t_limite_total t' ∧
  (t_disponibles t' ≠ t_disponibles t →
   quota_open anthropic a st' ∧ quota_open gemini a st') ∧
  (¬ quota_open anthropic a st' → ¬ quota_open gemini a st' →
   t_limite_total t' = S (t_limite_total t)) ∧
  t_limite_anthropic t'
    = t_limite_anthropic t + (if decide (quota_open anthropic a st') then 0 else 1) ∧
  t_limite_gemini t'
    = t_limite_gemini t + (if decide (quota_open gemini a st') then 0 else 1).
Proof.
  unfold summarize_account.
  intros (c&st2&Hc&(x'&st3&Hx'&(y'&st4&Hy'&H)%bind_Ok)%bind_Ok)%bind_Ok.
  cbn in H. injection H as <- <-.
  apply Account_get_classification_Ok in Hc as (x&st1&y&Hx&Hy&->).
  unfold Account_is_anthropic_available, Account_is_gemini_available in *.
  pose proof (Account_is_available_Ok_recovered _ _ _ _ _ Hx) as R1.
  pose proof (Account_is_available_Ok_recovered _ _ _ _ _ Hy) as R2.
  pose proof (Account_is_available_Ok_recovered _ _ _ _ _ Hx') as R3.
  pose proof (Account_is_available_Ok_recovered _ _ _ _ _ Hy') as R4.
  pose proof (Account_is_available_open _ _ _ _ _ Hx) as O1.
  pose proof (Account_is_available_open _ _ _ _ _ Hy) as O2.
  pose proof (Account_is_available_open _ _ _ _ _ Hx') as O3.
  pose proof (Account_is_available_open _ _ _ _ _ Hy') as O4.
  assert (recovered (λ _, True) st2 st4) as R24.
  { eapply recovered_trans; [eapply recovered_mono; [|exact R3]; done|].
    eapply recovered_mono; [|exact R4]. done. }
  assert (recovered (λ _, True) st1 st4) as R14.
  { eapply recovered_trans; [eapply recovered_mono; [|exact R2]; done|exact R24]. }
  assert (quota_open anthropic a st4 ↔ quota_open anthropic a st3) as F3.
  { eapply quota_open_frame; [exact R4|]. by intros [=]. }
  destruct (foldl_count_session_frame (finished_sessions a st4)
              (count_exhausted x' y' (count_classification (classify x y) t)))
    as (E1&E2&E3&E4&E5).
  cbn zeta in *. rewrite E1, E2, E3, E4, E5. clear E1 E2 E3 E4 E5.
  split_and!.
  - eapply recovered_trans; [eapply recovered_mono; [|exact R1]; by intros k ->|].
    eapply recovered_trans; [eapply recovered_mono; [|exact R2]; by intros k ->|].
    eapply recovered_trans; [eapply recovered_mono; [|exact R3]; by intros k ->|].
    eapply recovered_mono; [|exact R4]. by intros k ->.
  - destruct x, y; cbn; lia.
  - destruct x, y; cbn; lia.
  - destruct x, y; cbn; lia.
  - destruct x, y; cbn; try (intros Hne; by destruct Hne). intros _. split.
    + eapply quota_open_mono; [exact R14|]. by apply O1.
    + eapply quota_open_mono; [exact R24|]. by apply O2.
  - intros Hna Hng.
    assert (x = false) as ->.
    { destruct x; [|done]. destruct Hna.
      eapply quota_open_mono; [exact R14|]. by apply O1. }
    assert (y = false) as ->.
    { destruct y; [|done]. destruct Hng.
      eapply quota_open_mono; [exact R24|]. by apply O2. }
    done.
  - destruct (classify x y); cbn; destruct x'.
    all: try (rewrite decide_True by (apply F3, O3; done); lia).
    all: rewrite decide_False; [lia|]; intros Ho%F3%O3; done.
  - destruct (classify x y); cbn; destruct y'.
    all: try (rewrite decide_True by (apply O4; done); lia).
    all: rewrite decide_False; [lia|]; intros Ho%O4; done.
Qed.

Lemma foldM_summarize_counters l t st t' st' :
  NoDup (Account.id <$> l) →
  foldM summarize_account l t st = Ok t' st' →
  recovered (λ k, ∃ a, a ∈ l ∧ k.1 = Account.id a) st st' ∧
  t_disponibles t' + t_limite_parcial t' + t_limite_total t'
    = t_disponibles t + t_limite_parcial t + t_limite_total t + length l ∧
  t_disponibles t'
    ≤ t_disponibles t
      + length (filter (λ a, quota_open anthropic a st' ∧ quota_open gemini a st') l) ∧
  t_limite_total t
    + length (filter (λ a, ¬ quota_open anthropic a st' ∧ ¬ quota_open gemini a st') l)
    ≤ t_limite_total t' ∧
  t_limite_anthropic t'
    = t_limite_anthropic t + length (filter (λ a, ¬ quota_open anthropic a st') l) ∧
  t_limite_gemini t'
    = t_limite_gemini t + length (filter (λ a, ¬ quota_open gemini a st') l).
Proof.
  revert t st. induction l as [|a l IH]; intros t st Hnd; cbn [foldM].
  { intros [= <- <-]. split; [apply recovered_refl|]. cbn. lia. }
  rewrite fmap_cons in Hnd. apply NoDup_cons in Hnd as [Hnin Hnd].
  intros (t1&st1&H1&H2)%bind_Ok.
  apply summarize_account_counters in H1 as (R1&S1&D1&T1&B1&N1&A1&G1).
  apply (IH _ _ Hnd) in H2 as (R2&S2&D2&T2&A2&G2).
  assert (∀ p, quota_open p a st' ↔ quota_open p a st1) as Hfr.
  { intros p. eapply quota_open_frame; [exact R2|]. intros (x&Hx&Hid). cbn in Hid.
    apply Hnin. rewrite Hid. apply list_elem_of_fmap. by exists x. }
  split.
  { eapply recovered_trans; (eapply recovered_mono; [|eassumption]); cbn.
    - intros k Hk. exists a. split; [left|done].
    - intros k (x&Hx&Hk). exists x. split; [by right|done]. }
  rewrite !filter_cons. cbn [length].
  split_and!.
  - lia.
  - destruct (decide (quota_open anthropic a st' ∧ quota_open gemini a st'))
      as [Hb|Hb]; cbn [length]; [lia|].
    destruct (decide (t_disponibles t1 = t_disponibles t)) as [He|Hne]; [lia|].
    destruct Hb. destruct (B1 Hne) as [? ?]. split; by apply Hfr.
  - destruct (decide (¬ quota_open anthropic a st' ∧ ¬ quota_open gemini a st'))
      as [[Hna Hng]|Hb]; cbn [length]; [|lia].
    rewrite Hfr in Hna, Hng. rewrite (N1 Hna Hng) in T2. lia.
  - rewrite A2, A1. destruct (decide (quota_open anthropic a st1)) as [Ho|Ho].
    + rewrite decide_False by (intros Hn; by apply Hn, Hfr). lia.
    + rewrite decide_True by (intros Hn%Hfr; done). cbn [length]. lia.
  - rewrite G2, G1. destruct (decide (quota_open gemini a st1)) as [Ho|Ho].
    + rewrite decide_False by (intros Hn; by apply Hn, Hfr). lia.
    + rewrite decide_True by (intros Hn%Hfr; done). cbn [length]. lia.
Qed.

(** When [get_summary] returns on a pool with unique account ids: [total]
    is the number of accounts of the user and the three classification
    counters add up to it; [limite_anthropic] and [limite_gemini] count
    the accounts whose quota for that provider is not usable on the rows
    as the call leaves them; and, since an account is classified before
    its quotas are checked again, [disponibles] counts at most the accounts
    with both quotas usable then, and [limite_total] at least those with
    neither. *)
Theorem get_summary_counters user_id st r st' :
  NoDup (Account.id <$> accounts st) →
  get_summary user_id st = Ok r st' →
  let pool := query_accounts user_id st in
  Summary.total r = length pool ∧
  Summary.disponibles r + Summary.limite_parcial r + Summary.limite_total r
    = Summary.total r ∧
  Summary.limite_anthropic r
    = length (filter (λ a, ¬ quota_open anthropic a st') pool) ∧
  Summary.limite_gemini r
    = length (filter (λ a, ¬ quota_open gemini a st') pool) ∧
  Summary.disponibles r
    ≤ length (filter (λ a, quota_open anthropic a st' ∧ quota_open gemini a st') pool) ∧
  length (filter (λ a, ¬ quota_open anthropic a st' ∧ ¬ quota_open gemini a st') pool)
    ≤ Summary.limite_total r.
Proof.
  intros Hnd H pool. unfold get_summary in H.
  apply bind_Ok in H as (s0&st0&[= <- <-]&H).
  apply bind_Ok in H as (t&st1&Hfold&[= <- <-]).
  apply foldM_summarize_counters in Hfold as (_&S&D&T&A&G);
    [|by apply NoDup_ids_query].
  cbn in *. fold pool in S, D, T, A, G. split_and!; try done; lia.
Qed.

(** ** What can be raised *)

Lemma rote_ret {A} (a : A) : raises_only_TypeError (ret a).
Proof. by intros st e st'. Qed.

Lemma rote_raise {A} : raises_only_TypeError (@raise A TypeError).
Proof. intros st e st'. by intros [= <- _]. Qed.

Lemma rote_bind {A B} (m : M A) (k : A → M B) :
  raises_only_TypeError m → (∀ a, raises_only_TypeError (k a)) →
  raises_only_TypeError (bind m k).
Proof.
  intros Hm Hk st e st' [H|(a&st1&_&H)]%bind_Raise; [by eapply Hm|by eapply Hk].
Qed.

Lemma rote_get_state {A} (k : state → M A) :
  (∀ s, raises_only_TypeError (k s)) → raises_only_TypeError (bind get_state k).
Proof. intros Hk st e st' H. by eapply (Hk st st). Qed.

Lemma rote_foldM {A S} (f : S → A → M S) l s :
  (∀ s x, raises_only_TypeError (f s x)) → raises_only_TypeError (foldM f l s).
Proof.
  intros Hf. revert s. induction l as [|x l IH]; intros s; cbn.
  - apply rote_ret.
  - apply rote_bind; [apply Hf|apply IH].
Qed.

Lemma rote_quota_is_available qi q : raises_only_TypeError (Quota_is_available qi q).
Proof.
  intros st e st'. rewrite Quota_is_available_unfold.
  destruct (Quota.estado q); [done|].
  destruct (Quota.proximo_reset q) as [[t|t]|]; [by intros [= <- _]| |done].
  destruct (_ <=? _)%Z; [destruct (quotas st !! qi)|]; done.
Qed.

Lemma rote_is_available p a : raises_only_TypeError (Account_is_available p a).
Proof.
  intros st e st'. unfold Account_is_available.
  destruct (Account_get_quota p a st) as [[qi q]|]; [apply rote_quota_is_available|done].
Qed.

Lemma rote_get_classification a : raises_only_TypeError (Account_get_classification a).
Proof.
  apply rote_bind; [apply rote_is_available|]. intros x.
  apply rote_bind; [apply rote_is_available|]. intros y. apply rote_ret.
Qed.

Lemma rote_quota_dict p a : raises_only_TypeError (Account_quota_dict p a).
Proof.
  intros st e st'. unfold Account_quota_dict.
  destruct (Account_get_quota p a st) as [[qi q]|]; [|done].
  unfold Quota_to_dict. intros [H|(b&st1&_&H)]%bind_Raise.
  - by eapply rote_quota_is_available.
  - by destruct (quotas st1 !! qi).
Qed.

Lemma rote_to_dict a : raises_only_TypeError (Account_to_dict a).
Proof.
  apply rote_bind; [apply rote_get_classification|]. intros c.
  apply rote_bind; [apply rote_quota_dict|]. intros qa.
  apply rote_bind; [apply rote_quota_dict|]. intros qg. apply rote_ret.
Qed.

Lemma rote_available_for p a : raises_only_TypeError (available_for p a).
Proof.
  destruct p as [[]|]; cbn; try apply rote_is_available.
  apply rote_bind; [apply rote_is_available|].
  intros []; [apply rote_ret|apply rote_is_available].
Qed.

Lemma rote_get_available_accounts user_id p :
  raises_only_TypeError (get_available_accounts user_id p).
Proof.
  apply rote_get_state. intros s. apply rote_foldM. intros l a.
  apply rote_bind; [apply rote_available_for|]. intros b. apply rote_ret.
Qed.

Lemma rote_least_used l : raises_only_TypeError (least_used l).
Proof.
  unfold least_used. destruct l; [apply rote_ret|].
  destruct (sort_by_veces_usada _); [apply rote_ret|apply rote_raise].
Qed.

Lemma rote_best_gemini user_id : raises_only_TypeError (best_gemini user_id).
Proof.
  apply rote_bind; [apply rote_get_available_accounts|]. intros l.
  apply rote_bind; [apply rote_least_used|]. intros b. apply rote_ret.
Qed.

Lemma rote_get_best_account user_id b :
  raises_only_TypeError (get_best_account user_id b).
Proof.
  destruct b; cbn; [|apply rote_best_gemini].
  apply rote_bind; [apply rote_get_available_accounts|]. intros l.
  apply rote_bind; [apply rote_least_used|].
  intros [a|]; [apply rote_ret|apply rote_best_gemini].
Qed.

Lemma rote_end_session user_id m r : raises_only_TypeError (end_session user_id m r).
Proof.
  intros st e st'. rewrite end_session_unfold.
  destruct (get_active_session user_id st) as [[si s]|]; [|done].
  rewrite Session_end_session_unfold.
  destruct (Session.inicio s) as [t|t]; [by intros [= <- _]|]. cbn zeta.
  destruct (Account_query_get _ st) as [[ai a]|]; destruct m; try done;
    destruct r; done.
Qed.

(** ** Ending, then ending again; starting, then starting again *)

Lemma end_session_Ok_idle user_id m r st ended st1 :
  Inv user_id st → end_session user_id m r st = Ok ended st1 →
  Inv user_id st1 ∧ open_sessions st1 = [] ∧ get_active_session user_id st1 = None.
Proof.
  intros HI H.
  assert (Inv user_id st1) as HI1.
  { pose proof (end_session_preserves user_id m r st HI) as HP. by rewrite H in HP. }
  assert (open_sessions st1 = []) as Hopen.
  { destruct (get_active_session user_id st) as [[si s]|] eqn:Hact.
    - pose proof Hact as (Hs&Hfin&_)%get_active_session_Some.
      destruct (Session.inicio s) as [t|t] eqn:Hin.
      { by rewrite (end_session_naive _ _ _ _ _ _ _ Hact Hin) in H. }
      destruct (end_session_aware user_id m r st si s t Hact Hin)
        as (ai&a&st'&_&Heq&Hsess&_).
      rewrite Heq in H. injection H as _ <-.
      unfold open_sessions. rewrite Hsess.
      eapply filter_insert_last_open; [done..|apply HI].
    - rewrite (end_session_idle _ _ _ _ Hact) in H. injection H as _ <-.
      by apply (Inv_idle user_id). }
  split_and!; [done..|].
  destruct (get_active_session user_id st1) as [[si s]|] eqn:Hact; [|done].
  apply get_active_session_Some in Hact as (Hs&Hfin&_).
  exfalso. eapply (filter_empty_1 _ _ s Hopen); [|done].
  by eapply list_elem_of_lookup_2.
Qed.

(** On a state that satisfies the invariant, once [end_session] has
    returned, calling it again returns nothing and changes nothing, whatever
    the arguments: no state drift. *)
Theorem end_session_twice user_id m r m' r' st ended st1 :
  Inv user_id st →
  end_session user_id m r st = Ok ended st1 →
  end_session user_id m' r' st1 = Ok None st1.
Proof.
  intros HI H. apply end_session_idle.
  by apply (end_session_Ok_idle user_id m r st ended st1).
Qed.

Lemma get_active_session_tables user_id st st' :
  accounts st' = accounts st → sessions st' = sessions st →
  get_active_session user_id st' = get_active_session user_id st.
Proof.
  intros Ha Hs. unfold get_active_session. rewrite Hs.
  apply list_find_ext. intros s. unfold joined. by rewrite Ha.
Qed.

(** Once [start_session] has returned, every further [start_session], for
    any account and provider, raises the conflict error and changes
    nothing; this still holds after any calls that only read the clock and
    let quotas recover. *)
Theorem start_session_then_conflict {B} user_id account_id p st s st1
    (m : M B) account_id' p' :
  start_session user_id account_id p st = Ok s st1 →
  quiet m →
  start_session user_id account_id' p' st1 = Raise (ValueError conflict_msg) st1 ∧
  start_session user_id account_id' p' (state_of (m st1))
  = Raise (ValueError conflict_msg) (state_of (m st1)).
Proof.
  intros H Hm.
  assert (is_Some (get_active_session user_id st1)) as Hact.
  { rewrite start_session_unfold in H.
    destruct (get_active_session user_id st); [done|].
    destruct (list_find _ (accounts st)) as [[ai a]|] eqn:Hf; [|done].
    pose proof (Account_is_available_recovered p a st) as HR.
    destruct (Account_is_available p a st) as [[] st0|]; try done.
    cbn in HR. destruct HR as (Ha&Hs&_). injection H as <- <-.
    apply list_find_Some in Hf as (Hai&(Hid&Hu)&_).
    unfold get_active_session. eapply list_find_elem_of.
    - cbn. apply elem_of_app. right. left.
    - split; [done|]. unfold joined. cbn. apply Exists_exists.
      exists (set_activa true a). split; [|done].
      rewrite Ha. apply list_elem_of_insert. by eapply lookup_lt_Some. }
  split.
  - rewrite start_session_unfold. by destruct Hact as [x ->].
  - rewrite start_session_unfold. destruct (Hm st1) as (Ha&Hs&_).
    rewrite (get_active_session_tables user_id st1 _ Ha Hs).
    by destruct Hact as [x ->].
Qed.

(** ** Rotation under the invariant *)

Lemma quota_open_same_id p a a' st :
  Account.id a' = Account.id a → quota_open p a' st ↔ quota_open p a st.
Proof. intros Hid. unfold quota_open, Account_get_quota. by rewrite Hid. Qed.

Lemma start_session_succeeds user_id a p st :
  get_active_session user_id st = None →
  a ∈ accounts st → Account.user_id a = user_id → quota_open p a st →
  ∃ s st',
    start_session user_id (Account.id a) p st = Ok s st' ∧
    Session.account_id s = Account.id a ∧ Session.fin s = None ∧
    sessions st' = sessions st ++ [s].
Proof.
  intros Hact Ha Hu Ho. rewrite start_session_unfold, Hact.
  destruct (list_find _ (accounts st)) as [[ai a']|] eqn:Hf.
  - apply list_find_Some in Hf as (_&(Hid&_)&_).
    rewrite (quota_open_is_available p a' st) by (by apply (quota_open_same_id p a a')).
    by eexists _, _.
  - apply list_find_None in Hf. rewrite Forall_forall in Hf.
    by destruct (Hf a Ha).
Qed.

Lemma Account_to_dict_id a st d st' :
  Account_to_dict a st = Ok d st' → AccountDict.id d = Account.id a.
Proof.
  unfold Account_to_dict.
  intros (c&st1&_&(qa&st2&_&(qg&st3&_&[= <- _])%bind_Ok)%bind_Ok)%bind_Ok. done.
Qed.

Lemma quiet_Ok_tables {A} (m : M A) st a st' :
  quiet m → m st = Ok a st' → accounts st' = accounts st ∧ sessions st' = sessions st.
Proof. intros Hm H. destruct (Hm st) as (Ha&Hs&_). by rewrite H in Ha, Hs. Qed.

Lemma open_sessions_tables st st' :
  sessions st' = sessions st → open_sessions st' = open_sessions st.
Proof. unfold open_sessions. by intros ->. Qed.

(** What the selection hands to [start_session] inside [rotate_to_next]:
    an account of the user whose anthropic quota is usable. *)
Lemma get_best_account_anthropic_ready user_id st a st' :
  NoDup (Account.id <$> accounts st) →
  get_best_account user_id true st = Ok (Some (a, anthropic)) st' →
  a ∈ accounts st ∧ Account.user_id a = user_id ∧ quota_open anthropic a st'.
Proof.
  intros Hnd H.
  pose proof (get_best_account_Ok_rule _ _ _ _ _ Hnd H) as (_&(i&Hi&Ho&_)&_).
  apply list_elem_of_lookup_2, list_elem_of_filter in Hi as [Hu Ha]. done.
Qed.

(** On a state that satisfies the invariant, the only exception
    [rotate_to_next] raises is [TypeError], whatever its cause: the
    [start_session] it makes never fails a precondition, so no
    [ValueError] comes out.  When it returns, the session that was open is closed:
    the only session left open is the new one, if the result carries one,
    and it belongs to the account offered as [next_account].  With
    [auto_start] set and an account offered on anthropic, the result always
    carries a new session. *)
Theorem rotate_to_next_under_invariant user_id m r auto_start st :
  Inv user_id st →
  (∀ e st', rotate_to_next user_id m r auto_start st = Raise e st' → e = TypeError) ∧
  (∀ res st',
     rotate_to_next user_id m r auto_start st = Ok res st' →
     match RotationResult.new_session res with
     | Some sd =>
         RotationResult.rotated res = true ∧
         ∃ s acc, open_sessions st' = [s] ∧ Session_to_dict s = sd ∧
                  RotationResult.next_account res = Some acc ∧
                  AccountDict.id acc = Session.account_id s
     | None => RotationResult.rotated res = false ∧ open_sessions st' = []
     end ∧
     (auto_start = true → RotationResult.next_provider res = Some anthropic →
      is_Some (RotationResult.new_session res))).
Proof.
  intros HI.
  assert (∀ ended st1 a st2 d st3,
            end_session user_id m r st = Ok ended st1 →
            get_best_account user_id true st1 = Ok (Some (a, anthropic)) st2 →
            Account_to_dict a st2 = Ok d st3 →
            ∃ s st4, start_session user_id (Account.id a) anthropic st3 = Ok s st4 ∧
                     Session.account_id s = Account.id a ∧
                     open_sessions st4 = [s]) as Hstart.
  { intros ended st1 a st2 d st3 Hend Hbest Hd.
    destruct (end_session_Ok_idle _ _ _ _ _ _ HI Hend) as (HI1&Hopen&Hact).
    destruct (get_best_account_anthropic_ready _ _ _ _ (proj1 HI1) Hbest)
      as (Ha&Hu&Ho).
    destruct (quiet_Ok_tables _ _ _ _ (quiet_get_best_account _ _) Hbest) as [Ha2 Hs2].
    destruct (quiet_Ok_tables _ _ _ _ (quiet_to_dict _) Hd) as [Ha3 Hs3].
    destruct (start_session_succeeds user_id a anthropic st3) as (s&st4&Hs&Hid&Hfin&Hss).
    - rewrite <- Hact. apply get_active_session_tables; congruence.
    - by rewrite Ha3, Ha2.
    - done.
    - pose proof (quiet_to_dict a st2) as HR. rewrite Hd in HR.
      by eapply quota_open_mono.
    - exists s, st4. split_and!; [done..|].
      unfold open_sessions in *. rewrite Hss, filter_app, Hs3, Hs2, Hopen.
      by rewrite filter_cons_True. }
  split.
  - intros e st'. unfold rotate_to_next.
    intros [H|(ended&st1&Hend&H)]%bind_Raise; [by eapply rote_end_session|].
    apply bind_Raise in H as [H|(best&st2&Hbest&H)]; [by eapply rote_get_best_account|].
    destruct best as [[a []]|]; [| |done].
    + apply bind_Raise in H as [H|(d&st3&Hd&H)]; [by eapply rote_to_dict|].
      destruct auto_start; [|done].
      destruct (Hstart _ _ _ _ _ _ Hend Hbest Hd) as (s&st4&Hs&_).
      apply bind_Raise in H as [H|(s'&st4'&_&H)]; [congruence|done].
    + apply bind_Raise in H as [H|(d&st3&Hd&H)]; [by eapply rote_to_dict|done].
  - intros res st'. unfold rotate_to_next.
    intros (ended&st1&Hend&(best&st2&Hbest&H)%bind_Ok)%bind_Ok.
    destruct (end_session_Ok_idle _ _ _ _ _ _ HI Hend) as (HI1&Hopen&Hact).
    destruct (quiet_Ok_tables _ _ _ _ (quiet_get_best_account _ _) Hbest) as [Ha2 Hs2].
    destruct best as [[a []]|].
    + apply bind_Ok in H as (d&st3&Hd&H).
      destruct (quiet_Ok_tables _ _ _ _ (quiet_to_dict _) Hd) as [Ha3 Hs3].
      destruct auto_start.
      * destruct (Hstart _ _ _ _ _ _ Hend Hbest Hd) as (s&st4&Hs&Hid&Hop).
        rewrite (bind_eq _ _ _ _ _ Hs) in H. injection H as <- <-. cbn.
        split; [|done]. split; [done|]. exists s, d. split_and!; try done.
        rewrite Hid. by eapply Account_to_dict_id.
      * injection H as <- <-. cbn. split; [|done]. split; [done|].
        rewrite (open_sessions_tables st1) by congruence. done.
    + apply bind_Ok in H as (d&st3&Hd&H).
      destruct (quiet_Ok_tables _ _ _ _ (quiet_to_dict _) Hd) as [Ha3 Hs3].
      injection H as <- <-. cbn. split; [|done]. split; [done|].
      rewrite (open_sessions_tables st1) by congruence. done.
    + injection H as <- <-. cbn. split; [|done]. split; [done|].
      rewrite (open_sessions_tables st1) by congruence. done.
Qed.

(** ** The sweep of expired quotas *)

Lemma foldM_reset_and_count (P : Quota.t → Prop) `{∀ q, Decision (P q)}
    (pre l : list Quota.t) count st :
  foldM reset_and_count
    (filter (λ iq, P iq.2) (imap (λ i q, (length pre + i, q)) l)) count
    (with_quotas (pre ++ l) st)
  = Ok (count + length (filter P l))
       (with_quotas (pre ++ ((λ q, if decide (P q) then reset_row q else q) <$> l)) st).
Proof.
  revert pre count. induction l as [|q l IH]; intros pre count.
  { cbn. by rewrite Nat.add_0_r. }
  rewrite imap_cons, !filter_cons. cbn [snd fmap list_fmap].
  assert (imap ((λ i q0, (length pre + i, q0)) ∘ S) l
          = imap (λ i q0, (length (pre ++ [q]) + i, q0)) l) as Himap.
  { apply imap_ext. intros i x _. cbn. rewrite length_app. cbn. f_equal. lia. }
  assert (∀ q', imap ((λ i q0, (length pre + i, q0)) ∘ S) l
          = imap (λ i q0, (length (pre ++ [q']) + i, q0)) l) as Himap'.
  { intros q'. apply imap_ext. intros i x _. cbn. rewrite length_app. cbn. f_equal. lia. }
  destruct (decide (P q)) as [HP|HP].
  - cbn [foldM]. unfold reset_and_count at 1. unfold bind at 1. cbn [fst].
    unfold Quota_reset, bind. cbn [quotas with_quotas].
    rewrite Nat.add_0_r, list_lookup_middle by done. unfold ret at 1. cbn.
    replace (<[length pre := reset_row q]> (pre ++ q :: l))
      with ((pre ++ [reset_row q]) ++ l).
    2:{ rewrite <- (Nat.add_0_r (length pre)) at 1. rewrite insert_app_r.
        cbn. by rewrite <- app_assoc. }
    rewrite (Himap' (reset_row q)).
    pose proof (IH (pre ++ [reset_row q]) (S count)) as IH'.
    unfold with_quotas in IH' |- *. cbn in IH' |- *. rewrite IH'.
    rewrite <- app_assoc. cbn. do 2 f_equal. lia.
  - rewrite Himap. pose proof (IH (pre ++ [q]) count) as IH'.
    rewrite <- !app_assoc in IH'. cbn in IH'. exact IH'.
Qed.

Lemma expired_tables user_id now st st' q :
  accounts st' = accounts st → expired user_id now st' q ↔ expired user_id now st q.
Proof. intros Ha. unfold expired, joined. by rewrite Ha. Qed.

Lemma check_and_reset_quotas_run user_id st :
  let now := clock st (reads st) in
  check_and_reset_quotas user_id st
  = Ok (length (filter (expired user_id now st) (quotas st)))
       (with_quotas (swept user_id now st) (tick st)).
Proof.
  intros now. unfold check_and_reset_quotas, bind at 1, datetime_now.
  unfold bind at 1, get_state. cbn [stamp quotas tick].
  pose proof (foldM_reset_and_count (expired user_id now st) [] (quotas st) 0
                (tick st)) as Hf.
  cbn in Hf. unfold with_quotas at 1 in Hf. cbn in Hf.
  change (State (accounts st) (quotas st) (sessions st) (clock st) (S (reads st)))
    with (tick st) in Hf.
  change (imap (λ i q, (i, q)) (quotas st)) with (imap pair (quotas st)) in Hf.
  exact Hf.
Qed.

(** [check_and_reset_quotas] always returns.  Reading the clock once, it
    resets exactly the exhausted quota rows of the accounts of the user
    whose stored [proximo_reset] is not after that reading, returns their
    number, and leaves every other row, every account and every session as
    it was; no row is expired for that reading afterwards. *)
Theorem check_and_reset_quotas_sweeps user_id st :
  let now := clock st (reads st) in
  ∃ st',
    check_and_reset_quotas user_id st
    = Ok (length (filter (expired user_id now st) (quotas st))) st' ∧
    quotas st' = swept user_id now st ∧
    accounts st' = accounts st ∧ sessions st' = sessions st ∧
    reads st' = S (reads st) ∧
    Forall (λ q, ¬ expired user_id now st' q) (quotas st').
Proof.
  intros now. subst now. eexists. split; [apply check_and_reset_quotas_run|].
  split_and!; [done..|].
  cbn. apply Forall_fmap, Forall_forall. intros q _. cbn.
  destruct (decide (expired user_id (clock st (reads st)) st q)) as [He|He].
  - unfold expired. cbn. by intros (_&?&_).
  - intros He'. apply He. revert He'. by apply expired_tables.
Qed.

Lemma Inv_of_idle user_id st :
  NoDup (Account.id <$> accounts st) →
  open_sessions st = [] → active_accounts st = [] → Inv user_id st.
Proof.
  intros Hnd Ho Ha. split_and!; [done|by rewrite Ho; cbn; lia|..].
  - intros s Hs Hfin. exfalso.
    assert (s ∈ open_sessions st) as Hin by (by apply list_elem_of_filter).
    rewrite Ho in Hin. by apply elem_of_nil in Hin.
  - intros a Hin Hact. exfalso.
    assert (a ∈ active_accounts st) as Hin'.
    { unfold active_accounts. apply list_elem_of_filter. split; [|done].
      by rewrite Hact. }
    rewrite Ha in Hin'. by apply elem_of_nil in Hin'.
Qed.

Lemma pool_two_Inv : Inv SINGLE_USER_ID pool_two.
Proof. apply Inv_of_idle; [exact pool_two_keyed|reflexivity..]. Defined.

Lemma pool_started_Inv : Inv SINGLE_USER_ID pool_started.
Proof. apply run_calls_preserve, pool_two_Inv. Defined.

Lemma pool_gemini_only_keyed : NoDup (Account.id <$> accounts pool_gemini_only).
Proof. apply (bool_decide_unpack _). vm_compute. exact I. Defined.

Lemma pool_expired_keyed : NoDup (Account.id <$> accounts pool_expired).
Proof. apply (bool_decide_unpack _). vm_compute. exact I. Defined.

(** On [pool_expired] the check of the anthropic quota resets the row; the
    answer stays after a selection. *)
Lemma available_answer_is_stable_witness :
  ∃ st1,
    Account_is_available anthropic account_alpha pool_expired = Ok true st1 ∧
    Quota.estado <$> quotas st1 = [disponible; agotada] ∧
    Account_is_available anthropic account_alpha st1 = Ok true st1 ∧
    Account_is_available anthropic account_alpha
      (state_of (get_best_account SINGLE_USER_ID true st1))
    = Ok true (state_of (get_best_account SINGLE_USER_ID true st1)).
Proof.
  eexists. split; [vm_compute; reflexivity|]. split; [reflexivity|].
  apply (available_answer_is_stable anthropic account_alpha pool_expired _
           (get_best_account SINGLE_USER_ID true)).
  - vm_compute. reflexivity.
  - apply quiet_get_best_account.
Defined.

(** On [pool_expired] the listing for either provider holds the account,
    whose anthropic quota it resets. *)
Lemma get_available_accounts_lists_open_witness :
  ∃ st',
    get_available_accounts SINGLE_USER_ID None pool_expired = Ok [account_alpha] st' ∧
    [account_alpha]
    = filter (λ a, relevant_open None a st') (query_accounts SINGLE_USER_ID pool_expired) ∧
    accounts st' = accounts pool_expired ∧ sessions st' = sessions pool_expired.
Proof.
  eexists. split; [vm_compute; reflexivity|].
  apply (get_available_accounts_lists_open SINGLE_USER_ID None pool_expired).
  - exact pool_expired_keyed.
  - vm_compute. reflexivity.
Defined.

(** On [pool_expired] the summary counts one account, partially limited,
    with its gemini quota exhausted. *)
Lemma get_summary_counters_witness :
  ∃ r st',
    get_summary SINGLE_USER_ID pool_expired = Ok r st' ∧
    Summary.total r = 1 ∧ Summary.limite_parcial r = 1 ∧
    Summary.limite_anthropic r
    = length (filter (λ a, ¬ quota_open anthropic a st')
                (query_accounts SINGLE_USER_ID pool_expired)) ∧
    Summary.limite_gemini r
    = length (filter (λ a, ¬ quota_open gemini a st')
                (query_accounts SINGLE_USER_ID pool_expired)).
Proof.
  eexists _, _. split; [vm_compute; reflexivity|].
  split; [reflexivity|]. split; [reflexivity|].
  eassert (get_summary SINGLE_USER_ID pool_expired = Ok _ _) as Hrun
    by (vm_compute; reflexivity).
  pose proof (get_summary_counters SINGLE_USER_ID pool_expired _ _
                pool_expired_keyed Hrun) as H.
  exact (conj (proj1 (proj2 (proj2 H))) (proj1 (proj2 (proj2 (proj2 H))))).
Defined.

(** On [pool_started] the first call closes the session, the second finds
    none. *)
Lemma end_session_twice_witness :
  ∃ ended st1,
    end_session SINGLE_USER_ID manual None pool_started = Ok (Some ended) st1 ∧
    end_session SINGLE_USER_ID cuota_agotada (Some (Aware 5000)) st1 = Ok None st1.
Proof.
  eexists _, _. split; [vm_compute; reflexivity|].
  eapply (end_session_twice SINGLE_USER_ID manual None cuota_agotada
            (Some (Aware 5000)) pool_started _ _ pool_started_Inv).
  vm_compute. reflexivity.
Defined.

(** On [pool_two], after a start on the older account, a start on the
    other one is refused. *)
Lemma start_session_then_conflict_witness :
  ∃ s st1,
    start_session SINGLE_USER_ID "alpha" anthropic pool_two = Ok s st1 ∧
    start_session SINGLE_USER_ID "beta" gemini st1
    = Raise (ValueError conflict_msg) st1 ∧
    start_session SINGLE_USER_ID "beta" gemini
      (state_of (get_best_account SINGLE_USER_ID true st1))
    = Raise (ValueError conflict_msg)
        (state_of (get_best_account SINGLE_USER_ID true st1)).
Proof.
  eexists _, _. split; [vm_compute; reflexivity|].
  eapply (start_session_then_conflict SINGLE_USER_ID "alpha" anthropic pool_two _ _
           (get_best_account SINGLE_USER_ID true) "beta" gemini).
  - vm_compute. reflexivity.
  - apply quiet_get_best_account.
Defined.

(** On [pool_started] the rotation closes the session on the older account
    and opens one on the other. *)
Lemma rotate_to_next_under_invariant_witness :
  ∃ res st',
    rotate_to_next SINGLE_USER_ID cuota_agotada (Some (Aware 5000)) true pool_started
    = Ok res st' ∧
    RotationResult.rotated res = true ∧
    ∃ sd s acc,
      RotationResult.new_session res = Some sd ∧
      open_sessions st' = [s] ∧ Session_to_dict s = sd ∧
      RotationResult.next_account res = Some acc ∧
      AccountDict.id acc = Session.account_id s ∧
      Session.account_id s = "beta".
Proof.
  eexists _, _. split; [vm_compute; reflexivity|].
  eassert (rotate_to_next SINGLE_USER_ID cuota_agotada (Some (Aware 5000)) true
             pool_started = Ok _ _) as Hrun by (vm_compute; reflexivity).
  pose proof (proj1 (proj2 (rotate_to_next_under_invariant SINGLE_USER_ID
                              cuota_agotada (Some (Aware 5000)) true pool_started
                              pool_started_Inv) _ _ Hrun)) as H.
  cbn in H. destruct H as (Hrot&s&acc&Hopen&Hsd&Hacc&Hid).
  split; [exact Hrot|]. eexists _, s, acc. split; [reflexivity|].
  split_and!; [exact Hopen|exact Hsd|exact Hacc|exact Hid|].
  rewrite <- Hid. by injection Hacc as <-.
Defined.

(** ** The routes keep the database sound *)

Lemma recovered_keys K st st' :
  recovered K st st' → key <$> quotas st' = key <$> quotas st.
Proof.
  intros (_&_&_&HF). induction HF as [|q q' l l' Hq _ IH]; [done|].
  cbn. rewrite IH. f_equal. by destruct Hq as [->|(_&_&->)].
Qed.

(** [Sound] reads the quota rows through their keys only. *)
Lemma Sound_quotas st st' :
  accounts st' = accounts st → sessions st' = sessions st →
  key <$> quotas st' = key <$> quotas st →
  Sound st → Sound st'.
Proof.
  intros Ha Hs Hk [HI Ho He Hqk Hqo Hso Hac].
  split; rewrite ?Ha, ?Hs, ?Hk; try done.
  by apply (Inv_tables _ st).
Qed.

Lemma Sound_recovered K st st' : recovered K st st' → Sound st → Sound st'.
Proof.
  intros HR. pose proof (recovered_keys _ _ _ HR) as Hk.
  destruct HR as (Ha&Hs&_). by apply Sound_quotas.
Qed.

Lemma quiet_preserves_Sound {A} (m : M A) : quiet m → preserves Sound m.
Proof. intros Hm st. apply Sound_recovered with (λ _, True), Hm. Qed.

Lemma Sound_idle st :
  Sound st → get_active_session SINGLE_USER_ID st = None →
  open_sessions st = [] ∧ active_accounts st = [].
Proof. intros HS. apply Inv_idle, HS. Qed.

Lemma lookup_elem_ids st ai a :
  accounts st !! ai = Some a → Account.id a ∈ Account.id <$> accounts st.
Proof.
  intros H. apply list_elem_of_fmap. exists a. split; [done|].
  by eapply list_elem_of_lookup_2.
Qed.

(** A session is opened on the account at [ai]. *)
Lemma Sound_started st ai a s Q C R :
  Sound st → open_sessions st = [] →
  accounts st !! ai = Some a →
  Session.account_id s = Account.id a → Session.fin s = None →
  key <$> Q = key <$> quotas st →
  Sound (State (<[ai := set_activa true a]> (accounts st)) Q (sessions st ++ [s]) C R).
Proof.
  intros [HI Ho He Hqk Hqo Hso Hac] Hopen Hai Hsid Hfin Hk.
  assert (a ∈ accounts st) as Hin by (by eapply list_elem_of_lookup_2).
  assert (Account.id <$> <[ai := set_activa true a]> (accounts st)
          = Account.id <$> accounts st) as Hids by (by apply (fmap_insert_same _ _ ai a)).
  assert (ai < length (accounts st)) as Hlt by (by eapply lookup_lt_Some).
  split; cbn [accounts quotas sessions].
  - apply Inv_started; try done. by apply Ho.
  - intros x Hx. apply list_elem_of_lookup in Hx as [j Hj].
    apply list_lookup_insert_Some in Hj as [(<-&<-&_)|(Hne&Hj)].
    + cbn. by apply Ho.
    + apply Ho. by eapply list_elem_of_lookup_2.
  - by rewrite (fmap_insert_same Account.email_google _ ai a).
  - by rewrite Hk.
  - rewrite Hk, Hids. done.
  - rewrite Hids. intros x [Hx|Hx%list_elem_of_singleton]%elem_of_app.
    + by apply Hso.
    + subst x. rewrite Hsid. by eapply lookup_elem_ids.
  - intros x [Hx|Hx%list_elem_of_singleton]%elem_of_app Hfx.
    + exfalso. by apply (filter_empty_1 _ _ x Hopen).
    + subst x. exists (set_activa true a). split_and!; [|done..].
      apply list_elem_of_lookup. exists ai. by rewrite list_lookup_insert_eq.
Qed.

(** The open session at [si] is closed and its account, at [ai], left. *)
Lemma Sound_ended st si s s' ai a a' Q C R :
  Sound st →
  sessions st !! si = Some s → Session.fin s = None → Session.fin s' ≠ None →
  Session.account_id s' = Session.account_id s →
  Account_query_get (Session.account_id s) st = Some (ai, a) →
  Account.id a' = Account.id a → Account.user_id a' = Account.user_id a →
  Account.email_google a' = Account.email_google a →
  Account.activa a' = false →
  key <$> Q = key <$> quotas st →
  Sound (State (<[ai := a']> (accounts st)) Q (<[si := s']> (sessions st)) C R).
Proof.
  intros [HI Ho He Hqk Hqo Hso Hac] Hsi Hfin Hfin' Hsid Hget Hid Hu Hem Hina Hk.
  pose proof Hget as Hget'.
  apply list_find_Some in Hget' as (Hai&Hida&_).
  assert (a ∈ accounts st) as Hin by (by eapply list_elem_of_lookup_2).
  assert (Account.id <$> <[ai := a']> (accounts st)
          = Account.id <$> accounts st) as Hids by (by apply (fmap_insert_same _ _ ai a)).
  split; cbn [accounts quotas sessions].
  - by eapply Inv_ended.
  - intros x Hx. apply list_elem_of_lookup in Hx as [j Hj].
    apply list_lookup_insert_Some in Hj as [(<-&<-&_)|(Hne&Hj)].
    + rewrite Hu. by apply Ho.
    + apply Ho. by eapply list_elem_of_lookup_2.
  - by rewrite (fmap_insert_same Account.email_google _ ai a).
  - by rewrite Hk.
  - by rewrite Hk, Hids.
  - rewrite Hids. intros x Hx. apply list_elem_of_lookup in Hx as [j Hj].
    apply list_lookup_insert_Some in Hj as [(<-&<-&_)|(Hne&Hj)].
    + rewrite Hsid. apply Hso. by eapply list_elem_of_lookup_2.
    + apply Hso. by eapply list_elem_of_lookup_2.
  - intros x Hx Hfx. exfalso.
    assert (filter (λ s, Session.fin s = None) (<[si := s']> (sessions st)) = [])
      as Hnone.
    { apply (filter_insert_last_open _ _ si s s'); try done. apply HI. }
    by apply (filter_empty_1 _ _ x Hnone).
Qed.

(** A quota row is added for an account that had none for the provider. *)
Lemma Sound_quota_added st q :
  Sound st →
  Quota.account_id q ∈ Account.id <$> accounts st →
  key q ∉ key <$> quotas st →
  Sound (with_quotas (quotas st ++ [q]) st).
Proof.
  intros [HI Ho He Hqk Hqo Hso Hac] Hin Hnew.
  split; cbn [accounts quotas sessions with_quotas]; try done.
  - rewrite fmap_app. apply NoDup_app. split_and!; [done| |apply NoDup_singleton].
    cbn. intros k Hk Hq%list_elem_of_singleton. by subst k.
  - rewrite fmap_app. intros k [Hk|Hq%list_elem_of_singleton]%elem_of_app; [by apply Hqo|by subst k].
Qed.

Lemma find_quota_None account_id p st :
  find_quota account_id p st = None → (account_id, p) ∉ key <$> quotas st.
Proof.
  unfold find_quota. rewrite list_find_None, Forall_forall.
  intros H (q&Hk&Hq)%list_elem_of_fmap. apply (H q Hq).
  unfold key in Hk. by injection Hk as -> ->.
Qed.

Lemma keys_insert_same (l : list Quota.t) (qi : nat) q q' :
  l !! qi = Some q → key q' = key q → key <$> <[qi := q']> l = key <$> l.
Proof. apply fmap_insert_same. Qed.

Lemma Sound_tick st : Sound st → Sound (tick st).
Proof. by apply Sound_quotas. Qed.

Lemma start_session_sound account_id p :
  preserves Sound (start_session SINGLE_USER_ID account_id p).
Proof.
  intros st HS. rewrite start_session_unfold.
  destruct (get_active_session SINGLE_USER_ID st) eqn:Hact; [done|].
  destruct (list_find _ (accounts st)) as [[ai a]|] eqn:Hf; [|done].
  pose proof (Account_is_available_recovered p a st) as HR.
  destruct (Account_is_available p a st) as [[] st1|e st1]; cbn in HR |- *;
    try (by eapply Sound_recovered).
  pose proof (Sound_recovered _ _ _ HR HS) as HS1.
  destruct HR as (Ha&Hs&_).
  apply list_find_Some in Hf as (Hai&(Hid&Hu)&_).
  unfold with_sessions, with_accounts, tick. cbn.
  apply Sound_started; try done.
  - unfold open_sessions. rewrite Hs. by apply (Sound_idle st).
  - by rewrite Ha.
Qed.

Lemma Sound_exhausted st s r C R :
  Sound st → Session.account_id s ∈ Account.id <$> accounts st →
  Sound (State (accounts st) (quotas_after_exhaust s r st) (sessions st) C R).
Proof.
  intros HS Hin. unfold quotas_after_exhaust.
  destruct (list_find _ (quotas st)) as [[qi q]|] eqn:Hf.
  - apply list_find_Some in Hf as (Hq&(Ha&Hp)&_).
    apply (Sound_quotas st); [done..| |done]. cbn.
    apply (keys_insert_same _ _ q); [done|]. unfold key. cbn. by rewrite Ha, Hp.
  - apply (Sound_quotas (with_quotas (quotas st ++ [exhausted_row s r (clock st (reads st))]) st));
      [done..|].
    apply Sound_quota_added; [done..|].
    by apply (find_quota_None (Session.account_id s) (Session.provider s) st).
Qed.

Lemma end_session_sound m r :
  preserves Sound (end_session SINGLE_USER_ID m r).
Proof.
  intros st HS. rewrite end_session_unfold.
  destruct (get_active_session SINGLE_USER_ID st) as [[si s]|] eqn:Hact; [|done].
  apply get_active_session_Some in Hact as (Hsi&Hfin&Hj).
  rewrite Session_end_session_unfold.
  destruct (Session.inicio s) as [t|t]; cbn; [by apply Sound_tick|].
  destruct (joined_query_get _ _ _ Hj) as [[ai a] Hget]. rewrite Hget. cbn.
  set (now := clock st (reads st)).
  assert (Sound (State (<[ai := rollup (Some (now - t)%Z) a]> (accounts st))
                   (quotas st)
                   (<[si := closed_row s (Aware now) (now - t)%Z m]> (sessions st))
                   (clock st) (S (reads st)))) as HS1.
  { eapply Sound_ended; done. }
  assert (∀ r', Sound (State (<[ai := rollup (Some (now - t)%Z) a]> (accounts st))
                   (quotas_after_exhaust s r'
                      (State (<[ai := rollup (Some (now - t)%Z) a]> (accounts st))
                   (quotas st)
                   (<[si := closed_row s (Aware now) (now - t)%Z m]> (sessions st))
                   (clock st) (S (reads st))))
                   (<[si := closed_row s (Aware now) (now - t)%Z m]> (sessions st))
                   (clock st) (S (S (reads st))))) as HS2.
  { intros r'. apply (Sound_exhausted _ s r' _ _ HS1). cbn.
    apply list_find_Some in Hget as (Hai&_).
    rewrite (fmap_insert_same Account.id _ ai a) by done.
    apply HS. by eapply list_elem_of_lookup_2. }
  destruct m; [exact HS1|]. destruct r as [r|]; [apply HS2|exact HS1].
Qed.

Lemma rotate_to_next_sound m r auto_start :
  preserves Sound (rotate_to_next SINGLE_USER_ID m r auto_start).
Proof.
  apply preserves_bind; [apply end_session_sound|]. intros ended.
  apply preserves_bind; [apply quiet_preserves_Sound, quiet_get_best_account|].
  intros [[a []]|]; [| |apply preserves_ret].
  - apply preserves_bind; [apply quiet_preserves_Sound, quiet_to_dict|]. intros d.
    destruct auto_start; [|apply preserves_ret].
    apply preserves_bind; [apply start_session_sound|]. intros s. apply preserves_ret.
  - apply preserves_bind; [apply quiet_preserves_Sound, quiet_to_dict|]. intros d.
    intros st HS. done.
Qed.

Lemma quiet_get_summary user_id : quiet (get_summary user_id).
Proof.
  apply quiet_get_state. intros s. apply quiet_bind.
  - apply quiet_foldM. intros t a. unfold summarize_account.
    apply quiet_bind; [apply quiet_get_classification|]. intros c.
    apply quiet_bind; [apply quiet_is_available|]. intros x.
    apply quiet_bind; [apply quiet_is_available|]. intros y.
    apply quiet_get_state. intros s'. apply quiet_ret.
  - intros t. apply quiet_ret.
Qed.

Lemma http_keeps (P : state → Prop) (m : M response) st :
  preserves P m → P st → P (outcome_state (http m st)).
Proof. intros Hm HP. specialize (Hm st HP). unfold http. by destruct (m st). Qed.

Lemma preserves_reply P status b : preserves P (reply status b).
Proof. by intros st. Qed.

Lemma preserves_to_dict_reply (f : AccountDict.t → response) a :
  preserves Sound (let! d := Account_to_dict a in ret (f d)).
Proof.
  apply preserves_bind; [apply quiet_preserves_Sound, quiet_to_dict|].
  intros d. apply preserves_ret.
Qed.

(** *** Accounts *)

Lemma Sound_created st id email nombre created_at C R :
  Sound st →
  id ∉ Account.id <$> accounts st →
  email ∉ Account.email_google <$> accounts st →
  Sound (State (accounts st
                  ++ [AccountsRoutes.new_account SINGLE_USER_ID id email nombre created_at])
               (quotas st ++ [AccountsRoutes.new_quota id anthropic;
                              AccountsRoutes.new_quota id gemini])
               (sessions st) C R).
Proof.
  intros [(Hnd&Hlen&Hvis&Hact) Ho He Hqk Hqo Hso Hac] Hid Hem.
  split; cbn [accounts quotas sessions]; rewrite ?fmap_app; cbn [fmap list_fmap].
  - split_and!; cbn [accounts quotas sessions]; rewrite ?fmap_app.
    + apply NoDup_app. split_and!; [done| |apply NoDup_singleton].
      intros k Hk Hk'%list_elem_of_singleton. cbn in Hk'. by subst k.
    + exact Hlen.
    + intros s Hs Hfin. unfold joined. cbn. apply Exists_app. left. by apply Hvis.
    + intros a [Ha|Ha%list_elem_of_singleton]%elem_of_app Hac'; [by apply Hact|].
      by subst a.
  - intros a [Ha|Ha%list_elem_of_singleton]%elem_of_app; [by apply Ho|by subst a].
  - apply NoDup_app. split_and!; [done| |apply NoDup_singleton].
    intros k Hk Hk'%list_elem_of_singleton. cbn in Hk'. by subst k.
  - apply NoDup_app. split_and!; [done| |].
    + intros k Hk Hk'. apply Hid.
      apply Hqo in Hk. apply elem_of_cons in Hk' as [->|Hk']; [done|].
      apply list_elem_of_singleton in Hk'. by subst k.
    + apply NoDup_cons. split; [|apply NoDup_singleton].
      intros H%list_elem_of_singleton. discriminate.
  - intros k [Hk|Hk]%elem_of_app; apply elem_of_app; [left; by apply Hqo|right].
    apply list_elem_of_singleton.
    apply elem_of_cons in Hk as [->|Hk]; [done|].
    apply list_elem_of_singleton in Hk. by subst k.
  - intros s Hs. apply elem_of_app. left. by apply Hso.
  - intros s Hs Hfin. destruct (Hac s Hs Hfin) as (a&Ha&Hida&Haa).
    exists a. split; [|done]. apply elem_of_app. by left.
Qed.

Lemma create_account_sound new_id email_google nombre st :
  Sound st →
  Sound (outcome_state
           (AccountsRoutes.create_account SINGLE_USER_ID new_id email_google nombre st)).
Proof.
  intros HS. unfold AccountsRoutes.create_account.
  destruct email_google as [email|]; [|done].
  destruct (decide (email = "")); [done|].
  destruct (list_find _ (accounts st)) as [x|] eqn:Hf; [done|].
  destruct (decide (new_id ∈ _)) as [Hin|Hnew]; [by apply Sound_tick|].
  apply http_keeps; [apply preserves_to_dict_reply|].
  apply Sound_created; [done..|].
  rewrite list_find_None, Forall_forall in Hf.
  intros (a&He&Ha)%list_elem_of_fmap. apply (Hf a Ha).
  split; [by apply HS|done].
Qed.

(** The row of an account is rewritten, keeping its id, owner and
    activity. *)
Lemma Sound_account_set st ai a a' :
  Sound st → accounts st !! ai = Some a →
  Account.id a' = Account.id a → Account.user_id a' = Account.user_id a →
  Account.activa a' = Account.activa a →
  NoDup (Account.email_google <$> <[ai := a']> (accounts st)) →
  Sound (with_accounts (<[ai := a']> (accounts st)) st).
Proof.
  intros [(Hnd&Hlen&Hvis&Hact) Ho He Hqk Hqo Hso Hac] Hai Hid Hu Haa Hem.
  assert (Account.id <$> <[ai := a']> (accounts st) = Account.id <$> accounts st)
    as Hids by (by apply (fmap_insert_same _ _ ai a)).
  assert (a ∈ accounts st) as Hin by (by eapply list_elem_of_lookup_2).
  split; cbn [accounts quotas sessions with_accounts]; rewrite ?Hids; try done.
  - split_and!; cbn [accounts quotas sessions with_accounts]; rewrite ?Hids; try done.
    + intros s Hs Hfin. apply joined_owner_keys. unfold owner_keys. cbn.
      rewrite (fmap_insert_same _ _ ai a) by (done || by rewrite Hid, Hu).
      by apply joined_owner_keys, Hvis.
    + intros x Hx Hxa. apply list_elem_of_lookup in Hx as [j Hj].
      apply list_lookup_insert_Some in Hj as [(<-&<-&_)|(Hne&Hj)].
      * rewrite Hid. apply Hact; [done|congruence].
      * apply Hact; [|done]. by eapply list_elem_of_lookup_2.
  - intros x Hx. apply list_elem_of_lookup in Hx as [j Hj].
    apply list_lookup_insert_Some in Hj as [(<-&<-&_)|(Hne&Hj)].
    + rewrite Hu. by apply Ho.
    + apply Ho. by eapply list_elem_of_lookup_2.
  - intros s Hs Hfin. destruct (Hac s Hs Hfin) as (x&Hx&Hidx&Hxa).
    apply list_elem_of_lookup in Hx as [j Hj].
    destruct (decide (j = ai)) as [->|Hne].
    + exists a'. assert (x = a) as -> by congruence. split_and!; [|congruence..].
      apply list_elem_of_lookup. exists ai.
      apply list_lookup_insert_eq. by eapply lookup_lt_Some.
    + exists x. split_and!; [|done..]. apply list_elem_of_lookup. exists j.
      by rewrite list_lookup_insert_ne.
Qed.

Lemma NoDup_fmap_insert {A B} (f : A → B) (l : list A) i x x' :
  NoDup (f <$> l) → l !! i = Some x →
  (∀ j y, j ≠ i → l !! j = Some y → f y ≠ f x') →
  NoDup (f <$> <[i := x']> l).
Proof.
  intros Hnd Hi Hother. apply NoDup_alt. intros j k b Hj Hk.
  rewrite list_lookup_fmap in Hj, Hk.
  destruct (<[i:=x']> l !! j) as [y|] eqn:Hyj; [|done].
  destruct (<[i:=x']> l !! k) as [z|] eqn:Hzk; [|done].
  cbn in Hj, Hk. injection Hj as <-. injection Hk as Hzy.
  apply list_lookup_insert_Some in Hyj as [(<-&<-&_)|(Hnej&Hyj)];
    apply list_lookup_insert_Some in Hzk as [(<-&<-&_)|(Hnek&Hzk)]; try done.
  - exfalso. by apply (Hother k z).
  - exfalso. apply (Hother j y); [done..|]. done.
  - by apply (NoDup_fmap_lookup f l j k y z).
Qed.

Lemma update_account_sound account_id data st :
  Sound st →
  Sound (outcome_state (AccountsRoutes.update_account SINGLE_USER_ID account_id data st)).
Proof.
  intros HS. unfold AccountsRoutes.update_account.
  apply http_keeps; [|done]. clear st HS. intros st HS.
  unfold bind at 1, get_state. unfold find_account.
  destruct (list_find _ (accounts st)) as [[ai a]|] eqn:Hf; [|done].
  apply list_find_Some in Hf as (Hai&(Hid&Hu)&_).
  destruct data as [data|]; [|done].
  set (a1 := match AccountsRoutes.upd_nombre data with
             | Some nombre => AccountsRoutes.set_nombre nombre a
             | None => a
             end).
  assert (Account.id a1 = Account.id a ∧ Account.user_id a1 = Account.user_id a
          ∧ Account.activa a1 = Account.activa a
          ∧ Account.email_google a1 = Account.email_google a) as (H1&H2&H3&H4).
  { unfold a1. by destruct (AccountsRoutes.upd_nombre data). }
  destruct (AccountsRoutes.upd_email_google data) as [email|].
  - destruct (list_find _ (accounts st)) as [x|] eqn:Htaken; [done|].
    rewrite list_find_None, Forall_forall in Htaken.
    unfold bind at 1.
    apply (preserves_to_dict_reply (λ d, Response 200 (PAccount d))).
    apply (Sound_account_set st ai a); [done..|].
    apply (NoDup_fmap_insert _ _ _ a); [apply HS|done|].
    intros j y Hne Hj Hy. cbn in Hy. apply (Htaken y).
    { by eapply list_elem_of_lookup_2. }
    split_and!; [|done|].
    + apply HS. by eapply list_elem_of_lookup_2.
    + intros Hidy. apply Hne.
      apply (NoDup_fmap_lookup Account.id (accounts st) j ai y a); [apply HS|done..|congruence].
  - unfold bind at 1.
    apply (preserves_to_dict_reply (λ d, Response 200 (PAccount d))).
    apply (Sound_account_set st ai a); [done..|].
    rewrite (fmap_insert_same _ _ ai a) by done. apply HS.
Qed.

Lemma elem_of_delete_other {A B} (f : A → B) (l : list A) i a x :
  l !! i = Some a → x ∈ l → f x ≠ f a → x ∈ delete i l.
Proof.
  intros Hi Hx Hne. rewrite delete_take_drop.
  rewrite <- (take_drop_middle l i a Hi) in Hx.
  apply elem_of_app in Hx as [Hx|Hx]; apply elem_of_app; [by left|].
  apply elem_of_cons in Hx as [->|Hx]; [done|by right].
Qed.

Lemma delete_fresh {A B} (f : A → B) (l : list A) i a :
  NoDup (f <$> l) → l !! i = Some a → f a ∉ f <$> delete i l.
Proof.
  intros Hnd Hi. rewrite <- (take_drop_middle l i a Hi) in Hnd.
  rewrite delete_take_drop. rewrite fmap_app in *. cbn in Hnd.
  apply NoDup_app in Hnd as (_&Hdisj&Hnd'). apply NoDup_cons in Hnd' as [Hnot _].
  intros [H|H]%elem_of_app; [|done]. apply (Hdisj _ H). left.
Qed.

Lemma length_filter_filter {A} (P Q : A → Prop)
    `{∀ x, Decision (P x)} `{∀ x, Decision (Q x)} (l : list A) :
  length (filter P (filter Q l)) ≤ length (filter P l).
Proof.
  induction l as [|x l IH]; [done|].
  rewrite !filter_cons.
  destruct (decide (Q x)); [rewrite filter_cons|]; destruct (decide (P x)); cbn; lia.
Qed.

(** An inactive account is deleted with its quota and session rows. *)
Lemma Sound_deleted st ai a C R :
  Sound st → accounts st !! ai = Some a → Account.activa a = false →
  Sound (State (delete ai (accounts st))
           (filter (λ q, Quota.account_id q ≠ Account.id a) (quotas st))
           (filter (λ s, Session.account_id s ≠ Account.id a) (sessions st)) C R).
Proof.
  intros [(Hnd&Hlen&Hvis&Hact) Ho He Hqk Hqo Hso Hac] Hai Hina.
  assert (∀ x, x ∈ delete ai (accounts st) → x ∈ accounts st) as Hsub.
  { intros x Hx. eapply elem_of_sublist; [exact Hx|apply sublist_delete]. }
  assert (∀ k, k ∈ Account.id <$> accounts st → k ≠ Account.id a →
               k ∈ Account.id <$> delete ai (accounts st)) as Hkeep.
  { intros k (x&->&Hx)%list_elem_of_fmap Hne. apply list_elem_of_fmap.
    exists x. split; [done|]. by apply (elem_of_delete_other Account.id _ _ a). }
  pose proof (delete_fresh Account.id _ _ _ Hnd Hai) as Hfresh.
  split; cbn [accounts quotas sessions].
  - split_and!; cbn [accounts quotas sessions].
    + eapply sublist_NoDup; [exact Hnd|]. apply fmap_sublist, sublist_delete.
    + unfold open_sessions. cbn [sessions].
      etrans; [apply length_filter_filter|exact Hlen].
    + intros s [Hne Hs]%list_elem_of_filter Hfin.
      specialize (Hvis s Hs Hfin). unfold joined in *. cbn [accounts].
      apply Exists_exists in Hvis as (x&Hx&Hidx&Hux).
      apply Exists_exists. exists x. split; [|done].
      apply (elem_of_delete_other Account.id _ _ a); [done..|congruence].
    + intros x Hx Hxa. destruct (Hact x (Hsub x Hx) Hxa) as (s&Hs&Hfin&Hsid).
      exists s. split_and!; [|done..]. apply list_elem_of_filter. split; [|done].
      rewrite Hsid. intros Heq. apply Hfresh. rewrite <- Heq.
      apply list_elem_of_fmap. by exists x.
  - intros x Hx. by apply Ho, Hsub.
  - eapply sublist_NoDup; [exact He|]. apply fmap_sublist, sublist_delete.
  - eapply sublist_NoDup; [exact Hqk|]. apply fmap_sublist, sublist_filter.
  - intros k (q&->&[Hne Hq]%list_elem_of_filter)%list_elem_of_fmap.
    apply Hkeep; [|done]. apply Hqo. apply list_elem_of_fmap. by exists q.
  - intros s [Hne Hs]%list_elem_of_filter. apply Hkeep; [by apply Hso|done].
  - intros s [Hne Hs]%list_elem_of_filter Hfin.
    destruct (Hac s Hs Hfin) as (x&Hx&Hidx&Hxa).
    exists x. split_and!; [|done..].
    apply (elem_of_delete_other Account.id _ _ a); [done..|congruence].
Qed.

Lemma delete_account_sound account_id st :
  Sound st →
  Sound (outcome_state (AccountsRoutes.delete_account SINGLE_USER_ID account_id st)).
Proof.
  intros HS. unfold AccountsRoutes.delete_account, http, bind at 1, get_state, find_account.
  destruct (list_find _ (accounts st)) as [[ai a]|] eqn:Hf; [|done].
  apply list_find_Some in Hf as (Hai&_).
  destruct (Account.activa a) eqn:Hact; [done|].
  cbn. by apply Sound_deleted.
Qed.

Lemma get_account_sound account_id st :
  Sound st →
  Sound (outcome_state (AccountsRoutes.get_account SINGLE_USER_ID account_id st)).
Proof.
  intros HS. unfold AccountsRoutes.get_account. apply http_keeps; [|done]. clear st HS. intros st HS.
  unfold bind at 1, get_state.
  destruct (find_account _ _ st) as [[ai a]|]; [|done].
  by apply (preserves_to_dict_reply (λ d, Response 200 (PAccount d))).
Qed.

Lemma get_summary_sound st :
  Sound st → Sound (outcome_state (AccountsRoutes.get_summary SINGLE_USER_ID st)).
Proof.
  intros HS. unfold AccountsRoutes.get_summary. apply http_keeps; [|done].
  apply preserves_bind; [apply quiet_preserves_Sound, quiet_get_summary|].
  intros s. apply preserves_ret.
Qed.

(** *** Quotas *)

Lemma get_quotas_sound account_id st :
  Sound st → Sound (outcome_state (QuotasRoutes.get_quotas SINGLE_USER_ID account_id st)).
Proof.
  intros HS. unfold QuotasRoutes.get_quotas. apply http_keeps; [|done]. clear st HS. intros st HS.
  unfold bind at 1, get_state.
  destruct (find_account _ _ st) as [[ai a]|]; [|done].
  revert HS. apply preserves_bind; [apply quiet_preserves_Sound, quiet_quota_dict|].
  intros qa. apply preserves_bind; [apply quiet_preserves_Sound, quiet_quota_dict|].
  intros qg. apply preserves_ret.
Qed.

Lemma quiet_quota_dict_at qi : quiet (QuotasRoutes.quota_dict_at qi).
Proof.
  intros st. unfold QuotasRoutes.quota_dict_at.
  destruct (quotas st !! qi) as [q|] eqn:Hq; [|apply recovered_refl].
  unfold Quota_to_dict, bind.
  pose proof (Quota_is_available_recovered qi q st Hq) as HR.
  destruct (Quota_is_available qi q st) as [b st1|e st1]; cbn in *.
  - eapply recovered_mono; [|destruct (quotas st1 !! qi); exact HR]. done.
  - eapply recovered_mono; [|exact HR]. done.
Qed.

Lemma Quota_reset_sound qi : preserves Sound (Quota_reset qi).
Proof.
  intros st HS. unfold Quota_reset.
  destruct (quotas st !! qi) as [q|] eqn:Hq; [|done]. cbn.
  apply (Sound_quotas st); [done..| |done]. cbn.
  by apply (keys_insert_same _ _ q).
Qed.

Lemma Quota_mark_exhausted_sound qi r : preserves Sound (Quota_mark_exhausted qi r).
Proof.
  intros st HS. unfold Quota_mark_exhausted, bind, datetime_now. cbn.
  destruct (quotas st !! qi) as [q|] eqn:Hq; cbn; [|by apply Sound_tick].
  apply (Sound_quotas st); [done..| |done]. cbn.
  by apply (keys_insert_same _ _ q).
Qed.

Lemma get_or_create_quota_sound account_id p st :
  Sound st → account_id ∈ Account.id <$> accounts st →
  Sound (state_of (QuotasRoutes.get_or_create_quota account_id p st)).
Proof.
  intros HS Hin. unfold QuotasRoutes.get_or_create_quota.
  destruct (find_quota account_id p st) as [[qi q]|] eqn:Hf; [done|]. cbn.
  apply Sound_quota_added; [done..|]. by apply find_quota_None.
Qed.

Lemma find_account_ids user_id account_id st x :
  find_account user_id account_id st = Some x →
  account_id ∈ Account.id <$> accounts st.
Proof.
  destruct x as [ai a]. intros (Hai&(Hid&_)&_)%list_find_Some.
  rewrite <- Hid. by eapply lookup_elem_ids.
Qed.

Lemma mark_exhausted_sound account_id provider r st :
  Sound st →
  Sound (outcome_state
           (QuotasRoutes.mark_exhausted SINGLE_USER_ID account_id provider r st)).
Proof.
  intros HS. unfold QuotasRoutes.mark_exhausted.
  apply http_keeps; [|done]. clear st HS.
  destruct (parse_provider provider) as [p|]; [|apply preserves_reply].
  intros st HS. unfold bind at 1, get_state.
  destruct (find_account _ _ st) as [x|] eqn:Hf; [|done].
  apply find_account_ids in Hf.
  destruct r as [| |d]; [done..|].
  unfold bind at 1.
  pose proof (get_or_create_quota_sound account_id p st HS Hf) as HS1.
  destruct (QuotasRoutes.get_or_create_quota account_id p st) as [qi st1|]; [|done].
  cbn in HS1. revert HS1.
  apply preserves_bind; [apply Quota_mark_exhausted_sound|]. intros [].
  apply preserves_bind; [apply quiet_preserves_Sound, quiet_quota_dict_at|].
  intros qd. apply preserves_ret.
Qed.

Lemma reset_quota_sound account_id provider st :
  Sound st →
  Sound (outcome_state (QuotasRoutes.reset_quota SINGLE_USER_ID account_id provider st)).
Proof.
  intros HS. unfold QuotasRoutes.reset_quota.
  apply http_keeps; [|done]. clear st HS.
  destruct (parse_provider provider) as [p|]; [|apply preserves_reply].
  intros st HS. unfold bind at 1, get_state.
  destruct (find_account _ _ st) as [x|] eqn:Hf; [|done].
  destruct (find_quota _ _ st) as [[qi q]|]; [|done].
  revert HS. apply preserves_bind; [apply Quota_reset_sound|]. intros [].
  apply preserves_bind; [apply quiet_preserves_Sound, quiet_quota_dict_at|].
  intros qd. apply preserves_ret.
Qed.

Lemma check_and_reset_quotas_sound : preserves Sound (check_and_reset_quotas SINGLE_USER_ID).
Proof.
  intros st HS. rewrite check_and_reset_quotas_run. cbn.
  apply (Sound_quotas st); [done..| |done]. cbn. unfold swept.
  rewrite <- list_fmap_compose. apply list_fmap_ext. intros i q _. cbn.
  by destruct (decide _).
Qed.

Lemma check_resets_sound st :
  Sound st → Sound (outcome_state (QuotasRoutes.check_resets SINGLE_USER_ID st)).
Proof.
  intros HS. unfold QuotasRoutes.check_resets. apply http_keeps; [|done].
  apply preserves_bind; [apply check_and_reset_quotas_sound|].
  intros n. apply preserves_ret.
Qed.

(** *** Sessions *)

Lemma start_session_route_sound data st :
  Sound st → Sound (outcome_state (SessionsRoutes.start_session SINGLE_USER_ID data st)).
Proof.
  intros HS. unfold SessionsRoutes.start_session. apply http_keeps; [|done].
  clear st HS. destruct data as [data|]; [|apply preserves_reply].
  destruct (SessionsRoutes.required _) as [account_id|]; [|apply preserves_reply].
  destruct (SessionsRoutes.required _) as [provider|]; [|apply preserves_reply].
  destruct (parse_provider provider) as [p|]; [|apply preserves_reply].
  intros st HS. pose proof (start_session_sound account_id p st HS) as HS1.
  destruct (start_session SINGLE_USER_ID account_id p st) as [s st1|[msg|] st1];
    cbn in HS1; [|done..].
  destruct (Account_query_get account_id st1) as [[ai a]|]; [|done].
  by apply (preserves_to_dict_reply (λ d, Response 201 (PSession (Session_to_dict s) (Some d)))).
Qed.

Lemma end_session_route_sound rq st :
  Sound st → Sound (outcome_state (SessionsRoutes.end_session SINGLE_USER_ID rq st)).
Proof.
  intros HS. unfold SessionsRoutes.end_session. destruct rq as [| |m r]; [done..|].
  apply http_keeps; [|done]. clear st HS.
  assert (∀ r', preserves Sound (λ st,
            match end_session SINGLE_USER_ID m r' st with
            | Ok None st1 => reply 404 (PError "No hay sesión activa") st1
            | Ok (Some ended_session) st1 =>
                reply 200 (PSession (Session_to_dict ended_session) None) st1
            | Raise _ st1 => reply 500 (PError SessionsRoutes.internal_error_msg) st1
            end)) as H.
  { intros r' st HS. pose proof (end_session_sound m r' st HS) as HS1.
    by destruct (end_session SINGLE_USER_ID m r' st) as [[s|] st1|e st1]. }
  destruct r; [apply H|apply preserves_reply|apply H].
Qed.

Lemma get_active_session_route_sound st :
  Sound st → Sound (outcome_state (SessionsRoutes.get_active_session SINGLE_USER_ID st)).
Proof.
  intros HS. unfold SessionsRoutes.get_active_session. apply http_keeps; [|done].
  clear st HS. intros st HS. unfold bind at 1, get_state.
  destruct (get_active_session SINGLE_USER_ID st) as [[si s]|]; [|done].
  destruct (Account_query_get _ st) as [[ai a]|]; [|done].
  by apply (preserves_to_dict_reply
              (λ d, Response 200 (PActive (Some (Session_to_dict s)) (Some d)))).
Qed.

Lemma rotate_session_sound rq st :
  Sound st →
  Sound (outcome_state (SessionsRoutes.rotate_session SINGLE_USER_ID rq st)).
Proof.
  intros HS. unfold SessionsRoutes.rotate_session.
  destruct rq as [| |m r auto_start]; [done..|].
  apply http_keeps; [|done]. clear st HS.
  destruct r; [|apply preserves_reply|];
    (apply preserves_bind; [apply rotate_to_next_sound|]; intros res; apply preserves_ret).
Qed.

(** *** Every request *)

Lemma handle_sound rq st : Sound st → Sound (outcome_state (handle rq st)).
Proof.
  intros HS. destruct rq; cbn [handle].
  - by apply create_account_sound.
  - by apply get_account_sound.
  - by apply update_account_sound.
  - by apply delete_account_sound.
  - by apply get_summary_sound.
  - by apply get_quotas_sound.
  - by apply mark_exhausted_sound.
  - by apply reset_quota_sound.
  - by apply check_resets_sound.
  - by apply start_session_route_sound.
  - by apply end_session_route_sound.
  - by apply get_active_session_route_sound.
  - by apply rotate_session_sound.
Qed.

Lemma serve_sound rqs st : Sound st → Sound (serve rqs st).
Proof.
  revert st. induction rqs as [|rq rqs IH]; intros st HS; [done|].
  cbn. apply IH. by apply handle_sound.
Qed.

Lemma empty_database_sound clock : Sound (empty_database clock).
Proof.
  split; cbn; try (by apply NoDup_nil_2); try (by intros x Hx%elem_of_nil).
  apply Inv_of_idle; [apply NoDup_nil_2|done..].
Qed.

(** Whatever requests are served, in whatever order and with whatever
    answers, a sound database stays sound: account ids, account emails and
    (account, provider) pairs of quota rows stay unique, every quota row
    and every session row keeps its account, and at most one session is
    open.  So at most one account is active, and an account is active
    exactly when the open session is on it. *)
Theorem requests_keep_database_sound rqs st :
  Sound st →
  let st' := serve rqs st in
  Sound st' ∧
  length (open_sessions st') ≤ 1 ∧ length (active_accounts st') ≤ 1 ∧
  ∀ a, a ∈ accounts st' →
       (Account.activa a = true
        ↔ ∃ s, s ∈ open_sessions st' ∧ Session.account_id s = Account.id a).
Proof.
  intros HS st'. pose proof (serve_sound rqs st HS) as HS'. fold st' in HS'.
  destruct (Inv_at_most_one _ _ (sound_inv _ HS')) as [Hopen Hactive].
  split_and!; [done..|]. intros a Ha. split.
  - intros Hact. destruct HS' as [(_&_&_&Hacc) _ _ _ _ _ _].
    destruct (Hacc a Ha Hact) as (s&Hs&Hfin&Hid). exists s. split; [|done].
    by apply list_elem_of_filter.
  - intros (s&[Hfin Hs]%list_elem_of_filter&Hid).
    destruct (sound_active _ HS' s Hs Hfin) as (b&Hb&Hidb&Hactb).
    assert (a = b) as ->; [|done].
    apply list_elem_of_lookup in Ha as [i Hi]. apply list_elem_of_lookup in Hb as [j Hj].
    assert (i = j) as ->; [|congruence].
    apply (NoDup_fmap_lookup Account.id (accounts st') i j a b); [apply HS'|done..|congruence].
Qed.

(** Eight requests on the empty database, two of them refused. *)
Lemma requests_keep_database_sound_witness :
  Sound (serve requests_mixed (empty_database (frozen 1000))) ∧
  Account.id <$> active_accounts (serve requests_mixed (empty_database (frozen 1000)))
  = ["a2"].
Proof.
  split; [|reflexivity].
  exact (proj1 (requests_keep_database_sound requests_mixed _
                  (empty_database_sound (frozen 1000)))).
Defined.

(** ** What the account routes answer *)

Lemma Quota_to_dict_disponible qi q st :
  quotas st !! qi = Some q → Quota.estado q = disponible →
  Quota_to_dict qi q st
  = Ok (QuotaDict (Quota.provider q) disponible true
          (Quota.proximo_reset q) (Quota.agotada_en q)) st.
Proof.
  intros Hq He. unfold Quota_to_dict, bind.
  rewrite Quota_is_available_disponible by done. by rewrite Hq, He.
Qed.





Lemma filter_all {A} (P : A → Prop) `{∀ x, Decision (P x)} (l : list A) :
  (∀ x, x ∈ l → P x) → filter P l = l.
Proof.
  induction l as [|x l IH]; intros HP; [done|].
  rewrite filter_cons_True by (apply HP; left).
  f_equal. apply IH. intros y Hy. apply HP. by right.
Qed.

Lemma delete_eq_filter {A B} `{EqDecision B} (f : A → B) (l : list A) i a :
  NoDup (f <$> l) → l !! i = Some a → delete i l = filter (λ x, f x ≠ f a) l.
Proof.
  revert i. induction l as [|x l IH]; intros i Hnd Hi; [done|].
  cbn in Hnd. apply NoDup_cons in Hnd as [Hx Hnd].
  destruct i as [|i]; cbn in Hi.
  - injection Hi as ->. rewrite filter_cons_False by (intros H; by apply H).
    change (delete 0 (a :: l)) with l.
    symmetry. apply filter_all. intros y Hy Heq. apply Hx. rewrite <- Heq.
    apply list_elem_of_fmap. by exists y.
  - rewrite filter_cons_True.
    + change (delete (S i) (x :: l)) with (x :: delete i l). f_equal. by apply IH.
    + intros Heq. apply Hx. rewrite Heq. apply list_elem_of_fmap. exists a.
      split; [done|]. by eapply list_elem_of_lookup_2.
Qed.

Lemma find_account_None st account_id :
  Sound st → account_id ∉ Account.id <$> accounts st →
  find_account SINGLE_USER_ID account_id st = None.
Proof.
  intros HS Hid. apply list_find_None, Forall_forall. intros a Ha [Hida _].
  apply Hid. rewrite <- Hida. apply list_elem_of_fmap. by exists a.
Qed.

Lemma find_account_Some st a :
  Sound st → a ∈ accounts st →
  ∃ ai, find_account SINGLE_USER_ID (Account.id a) st = Some (ai, a)
        ∧ accounts st !! ai = Some a.
Proof.
  intros HS Ha. unfold find_account.
  destruct (list_find _ (accounts st)) as [[ai b]|] eqn:Hf.
  - apply list_find_Some in Hf as (Hai&(Hid&_)&_).
    apply list_elem_of_lookup in Ha as [j Hj].
    assert (ai = j) as ->.
    { apply (NoDup_fmap_lookup Account.id (accounts st) ai j b a); [apply HS|done..]. }
    exists j. split; [|done]. congruence.
  - exfalso. rewrite list_find_None, Forall_forall in Hf. apply (Hf a Ha).
    split; [done|]. by apply HS.
Qed.

(** [DELETE /accounts/<account_id>] on a sound database.  An id that no
    account has is answered 404.  An active account is answered 400 and
    nothing changes: in particular the account of the open session cannot
    be deleted.  An inactive account is answered 200, and exactly the rows
    that carry its id are gone: the account, its quota rows and its
    session rows; every other row stays, in its place. *)
Theorem delete_account_answers account_id st :
  Sound st →
  let run := AccountsRoutes.delete_account SINGLE_USER_ID account_id st in
  (account_id ∉ Account.id <$> accounts st →
   run = Replied (Response 404 (PError "Cuenta no encontrada")) st) ∧
  (∀ a, a ∈ accounts st → Account.id a = account_id →
        if Account.activa a then run = Replied refused_active st
        else run = Replied (Response 200 (PMessage "Cuenta eliminada exitosamente"))
                     (State
                        (filter (λ x, Account.id x ≠ account_id) (accounts st))
                        (filter (λ q, Quota.account_id q ≠ account_id) (quotas st))
                        (filter (λ s, Session.account_id s ≠ account_id) (sessions st))
                        (clock st) (reads st))) ∧
  (∀ s, s ∈ open_sessions st → Session.account_id s = account_id →
        run = Replied refused_active st).
Proof.
  intros HS run.
  assert (∀ a, a ∈ accounts st → Account.id a = account_id →
               Account.activa a = true → run = Replied refused_active st) as Hactive.
  { intros a Ha <- Hact. destruct (find_account_Some st a HS Ha) as (ai&Hf&_).
    unfold run, AccountsRoutes.delete_account, http, bind, get_state.
    by rewrite Hf, Hact. }
  split_and!.
  - intros Hid. unfold run, AccountsRoutes.delete_account, http, bind, get_state.
    by rewrite find_account_None.
  - intros a Ha Hida. destruct (Account.activa a) eqn:Hact; [by apply (Hactive a)|].
    subst account_id. destruct (find_account_Some st a HS Ha) as (ai&Hf&Hai).
    unfold run, AccountsRoutes.delete_account, http, bind, get_state.
    rewrite Hf, Hact. cbn.
    rewrite (delete_eq_filter Account.id _ _ a) by (apply HS || done). done.
  - intros s [Hfin Hs]%list_elem_of_filter Hsid.
    destruct (sound_active _ HS s Hs Hfin) as (a&Ha&Hida&Hact).
    apply (Hactive a); [done|congruence|done].
Qed.

(** *** What the session and quota routes answer *)

(** [POST /sessions/end] lets one exception through: the [AttributeError]
    of a body that is not an object or of a [proximo_reset] that is not
    text, raised before the [try], when nothing has been read or written.
    On every other body it answers.  A timestamp that does not parse is
    answered 400.  Otherwise: without an active session the answer is 404
    and nothing changes; with an active session whose start is stored
    without time zone it is 500 and nothing is written; else it is 200
    with the session closed at the reading of the clock, its duration the
    time since its start, and rolled into its account. *)
Theorem end_session_route_answers rq st :
  let run := SessionsRoutes.end_session SINGLE_USER_ID rq st in
  match rq with
  | SessionsRoutes.EndNotObject => run = Failed AttributeError st
  | SessionsRoutes.EndResetNotText => run = Failed AttributeError st
  | SessionsRoutes.EndRequest m Malformed =>
      run = Replied (Response 400 (PError "Formato de fecha inválido")) st
  | SessionsRoutes.EndRequest m _ =>
      match get_active_session SINGLE_USER_ID st with
      | None => run = Replied (Response 404 (PError "No hay sesión activa")) st
      | Some (si, s) =>
          match Session.inicio s with
          | Naive _ =>
              run = Replied (Response 500 (PError SessionsRoutes.internal_error_msg))
                      (tick st)
          | Aware t =>
              let now := clock st (reads st) in
              let closed := closed_row s (Aware now) (now - t)%Z m in
              ∃ st', run = Replied (Response 200 (PSession (Session_to_dict closed) None)) st'
                     ∧ sessions st' = <[si := closed]> (sessions st)
                     ∧ ∃ ai a,
                         Account_query_get (Session.account_id s) st = Some (ai, a)
                         ∧ accounts st'
                           = <[ai := rollup (Some (now - t)%Z) a]> (accounts st)
          end
      end
  end.
Proof.
  intros run. destruct rq as [| |m r]; [done..|].
  assert (r ≠ Malformed →
          run = http (λ st,
            match end_session SINGLE_USER_ID m
                    (match r with Parsed d => Some d | _ => None end) st with
            | Ok None st1 => reply 404 (PError "No hay sesión activa") st1
            | Ok (Some ended_session) st1 =>
                reply 200 (PSession (Session_to_dict ended_session) None) st1
            | Raise _ st1 => reply 500 (PError SessionsRoutes.internal_error_msg) st1
            end) st) as Hrun.
  { intros Hr. unfold run, SessionsRoutes.end_session. by destruct r. }
  destruct r as [| |d]; [|done|]; rewrite Hrun by done; unfold http.
  all: destruct (get_active_session SINGLE_USER_ID st) as [[si s]|] eqn:Hact;
    [|by rewrite end_session_idle].
  all: destruct (Session.inicio s) as [t|t] eqn:Hin;
    [by rewrite (end_session_naive _ _ _ _ si s t)|].
  all: cbv zeta.
  all: edestruct (end_session_aware SINGLE_USER_ID m) as (ai&a&st'&Hget&Hend&Hs&Ha&_);
    [exact Hact|exact Hin|].
  all: rewrite Hend; eexists; split; [reflexivity|]; split; [exact Hs|].
  all: by exists ai, a.
Qed.

Lemma quota_dict_at_reset qi q st0 st :
  quotas st !! qi = Some q →
  QuotasRoutes.quota_dict_at qi (with_quotas (<[qi := reset_row q]> (quotas st)) st0)
  = Ok (QuotaDict (Quota.provider q) disponible true None None)
       (with_quotas (<[qi := reset_row q]> (quotas st)) st0).
Proof.
  intros Hq. unfold QuotasRoutes.quota_dict_at. cbn [quotas with_quotas].
  rewrite list_lookup_insert_eq by (by eapply lookup_lt_Some).
  rewrite Quota_to_dict_disponible; [done| |done].
  cbn. apply list_lookup_insert_eq. by eapply lookup_lt_Some.
Qed.

(** [POST /quotas/<account_id>/<provider>/reset] never fails, and writes no
    account and no session.  When it answers 200 the quota shown is
    available without timestamps, the provider is from then on usable for
    the account, and, if no session is active, a session can be started on
    it; with any other answer nothing has changed. *)
Theorem reset_quota_answers account_id provider st :
  ∃ r st',
    QuotasRoutes.reset_quota SINGLE_USER_ID account_id provider st = Replied r st' ∧
    accounts st' = accounts st ∧ sessions st' = sessions st ∧
    (status r ≠ 200 → st' = st) ∧
    (status r = 200 →
     ∃ p ai a,
       parse_provider provider = Some p ∧
       find_account SINGLE_USER_ID account_id st = Some (ai, a) ∧
       body r = PQuota (QuotaDict p disponible true None None) ∧
       Account_is_available p a st' = Ok true st' ∧
       (get_active_session SINGLE_USER_ID st = None →
        ∃ s st'', start_session SINGLE_USER_ID account_id p st' = Ok s st'')).
Proof.
  unfold QuotasRoutes.reset_quota, http.
  destruct (parse_provider provider) as [p|] eqn:Hp.
  2:{ eexists _, _. split; [reflexivity|]. by split_and!. }
  unfold bind at 1, get_state.
  destruct (find_account SINGLE_USER_ID account_id st) as [[ai a]|] eqn:Hfa.
  2:{ eexists _, _. split; [reflexivity|]. by split_and!. }
  destruct (find_quota account_id p st) as [[qi q]|] eqn:Hfq.
  2:{ eexists _, _. split; [reflexivity|]. by split_and!. }
  pose proof Hfq as (Hq&(Hqa&Hqp)&_)%list_find_Some.
  pose proof Hfa as (Hai&(Hid&Hu)&_)%list_find_Some.
  unfold bind at 1, Quota_reset. rewrite Hq.
  unfold bind at 1. rewrite (quota_dict_at_reset qi q st st Hq).
  eexists _, _. split; [reflexivity|]. split_and!; [done..|].
  intros _. exists p, ai, a. rewrite Hqp. split_and!; [done..| |].
  - apply quota_open_is_available. unfold quota_open.
    rewrite (get_quota_insert p a st st qi q (reset_row q)); [done| |done].
    unfold Account_get_quota, find_quota in *. by rewrite Hid.
  - intros Hidle.
    assert (a ∈ accounts st) as Ha by (by eapply list_elem_of_lookup_2).
    destruct (start_session_succeeds SINGLE_USER_ID a p
                (with_quotas (<[qi := reset_row q]> (quotas st)) st))
      as (s&st''&Hs&_); [done..| |].
    + unfold quota_open.
      rewrite (get_quota_insert p a st st qi q (reset_row q)); [done| |done].
      unfold Account_get_quota, find_quota in *. by rewrite Hid.
    + rewrite Hid in Hs. by exists s, st''.
Qed.

(** *** Runs on small databases *)

Lemma database_one_active_sound : Sound database_one_active.
Proof. apply serve_sound, empty_database_sound. Defined.


(** The account of the open session of [database_one_active] is not
    deleted. *)
Lemma delete_account_answers_witness :
  AccountsRoutes.delete_account SINGLE_USER_ID "a1" database_one_active
  = Replied refused_active database_one_active.
Proof.
  eapply (proj2 (proj2 (delete_account_answers "a1" database_one_active
                          database_one_active_sound))).
  - apply list_elem_of_lookup. exists 0. vm_compute. reflexivity.
  - reflexivity.
Defined.

(** ** Starting a session on an exhausted quota *)

Lemma parse_provider_token p : parse_provider (provider_token p) = Some p.
Proof. by destruct p. Qed.

Lemma required_text v : v ≠ "" → SessionsRoutes.required (Some v) = Some v.
Proof. intros Hv. unfold SessionsRoutes.required. by rewrite decide_False. Qed.

Lemma provider_token_text p : provider_token p ≠ "".
Proof. by destruct p. Qed.

(** The route on a body that names an account and a provider. *)
Lemma start_session_route_unfold user_id account_id p st :
  account_id ≠ "" →
  SessionsRoutes.start_session user_id
    (Some (SessionsRoutes.StartBody (Some account_id) (Some (provider_token p)))) st
  = match start_session user_id account_id p st with
    | Ok new_session st1 =>
        match Account_query_get account_id st1 with
        | Some (_, account) =>
            http (let! d := Account_to_dict account in
                  reply 201 (PSession (Session_to_dict new_session) (Some d))) st1
        | None => Replied (Response 201 (PSession (Session_to_dict new_session) None)) st1
        end
    | Raise (ValueError msg) st1 => Replied (Response 400 (PError msg)) st1
    | Raise TypeError st1 => Failed (Uncaught TypeError) st1
    end.
Proof.
  intros Hid. unfold SessionsRoutes.start_session, http. cbn [SessionsRoutes.sb_account_id
    SessionsRoutes.sb_provider].
  rewrite (required_text account_id Hid), (required_text _ (provider_token_text p)).
  rewrite parse_provider_token.
  destruct (start_session user_id account_id p st) as [s st1|[msg|] st1]; [|done..].
  by destruct (Account_query_get account_id st1) as [[ai a]|].
Qed.

(** C7.  No session is active, the account exists for the caller, and the
    quota row of the provider is exhausted.  With a reset time stored
    without time zone, [start_session] raises neither of its three
    [ValueError] failures nor creates a session: the availability check
    raises [TypeError], which the route, catching [ValueError] only, lets
    through.  The failure for an exhausted quota is produced only when the
    reset time is stored with a time zone and still ahead of the clock;
    the route answers it with status 400. *)
Theorem C7_exhausted_naive_reset_raises user_id account_id p st ai a qi q :
  get_active_session user_id st = None →
  list_find (λ a, Account.id a = account_id ∧ Account.user_id a = user_id)
            (accounts st) = Some (ai, a) →
  Account_get_quota p a st = Some (qi, q) →
  Quota.estado q = agotada →
  account_id ≠ "" →
  let body := Some (SessionsRoutes.StartBody (Some account_id) (Some (provider_token p))) in
  (∀ t, Quota.proximo_reset q = Some (Naive t) →
        start_session user_id account_id p st = Raise TypeError (tick st) ∧
        SessionsRoutes.start_session user_id body st = Failed (Uncaught TypeError) (tick st) ∧
        sessions (tick st) = sessions st ∧ accounts (tick st) = accounts st) ∧
  (∀ r, Quota.proximo_reset q = Some (Aware r) → (clock st (reads st) < r)%Z →
        start_session user_id account_id p st
        = Raise (ValueError (exhausted_msg p)) (tick st) ∧
        SessionsRoutes.start_session user_id body st
        = Replied (Response 400 (PError (exhausted_msg p))) (tick st)).
Proof.
  intros Hact Hf Hq He Hid body.
  assert (∀ x, Account_is_available p a st = x →
               start_session user_id account_id p st
               = match x with
                 | Ok true st1 =>
                     let s := Session.mk account_id p (Aware (clock st1 (reads st1)))
                                None None None in
                     Ok s (with_sessions (sessions st1 ++ [s])
                             (with_accounts (<[ai := set_activa true a]> (accounts st1))
                                (tick st1)))
                 | Ok false st1 => Raise (ValueError (exhausted_msg p)) st1
                 | Raise e st1 => Raise e st1
                 end) as Hstart.
  { intros x <-. by rewrite start_session_unfold, Hact, Hf. }
  unfold body. rewrite (start_session_route_unfold _ _ _ _ Hid).
  unfold Account_is_available in Hstart. rewrite Hq in Hstart.
  rewrite Quota_is_available_unfold, He in Hstart.
  split.
  - intros t Ht. rewrite Ht in Hstart. by rewrite (Hstart _ eq_refl).
  - intros r Hr Hlt. rewrite Hr in Hstart.
    assert ((r <=? clock st (reads st))%Z = false) as Hle by lia.
    rewrite Hle in Hstart. by rewrite (Hstart _ eq_refl).
Qed.

(** On [pool_naive_reset], starting a session on the exhausted provider
    raises [TypeError]. *)
Lemma C7_witness :
  start_session SINGLE_USER_ID "alpha" anthropic pool_naive_reset
  = Raise TypeError (tick pool_naive_reset) ∧
  SessionsRoutes.start_session SINGLE_USER_ID
    (Some (SessionsRoutes.StartBody (Some "alpha") (Some "anthropic"))) pool_naive_reset
  = Failed (Uncaught TypeError) (tick pool_naive_reset).
Proof.
  pose proof (proj1 (C7_exhausted_naive_reset_raises SINGLE_USER_ID "alpha" anthropic
                       pool_naive_reset 0 account_alpha 0
                       (Quota.mk "alpha" anthropic agotada (Some (Naive 5000))
                          (Some (Aware 900)))
                       eq_refl eq_refl eq_refl eq_refl ltac:(done))
                5000%Z eq_refl) as (H1&H2&_).
  split; [exact H1|exact H2].
Defined.
